(** * imq-cli: a shallow embedding of the command-line tool's library code

    The development follows the TypeScript sources module by module.

    Definitions:
    - [Js]            the JavaScript built-ins the sources call
                      ([String.prototype.replace], [Array.prototype.indexOf],
                      truthiness), and the state-and-exception monad in which
                      the effectful code is written;
    - [Semver]        the functions of the [semver] package lib/node.ts
                      imports;
    - [Node]          lib/node.ts: [semverCompare], [getNodeVersions],
                      [nodeVersion], [toTravisTags];
    - [Travis]        lib/travis.ts: [trySyncBuilds], [enableBuilds];
    - [Create]        src/service/create.ts: [updateLicenseText],
                      [compileTemplateFile], [compileTemplate], [handler];
    - [UpdateVersion] src/service/update-version.ts: [handleSpawnResponse],
                      [execGitFlow], [walkThroughFolders].

    Properties: [SemverFacts], [NodeFacts], [TravisFacts],
    [UpdateVersionFacts], [HandlerFacts], [StringFacts], [LicenseFacts] and
    [TemplateFacts].

    JavaScript strings are modelled as [string], arrays as [list], numbers
    that count things as unbounded integers. *)

From Stdlib Require Import String Ascii List ZArith NArith Lia Bool Arith.
From Stdlib Require Import Sorting.Permutation DecimalString.
From Equations Require Import Equations.
Import ListNotations.

Local Open Scope string_scope.
Local Open Scope list_scope.

(* ===================================================================== *)
(** ** JavaScript built-ins and the effect monad *)
(* ===================================================================== *)

Module Js.

(** A thrown value: an [Error], [TypeError] or [RangeError] object carrying
    a message. *)
Inductive exn : Type :=
| Error (message : string)
| TypeError (message : string)
| RangeError (message : string).

(** Completion of an effectful call: a value, or a thrown exception. *)
Inductive result (A : Type) : Type :=
| Ok (a : A)
| Throw (e : exn).
Arguments Ok {A} a.
Arguments Throw {A} e.

(** Effectful code over a world of type [S]: the world is threaded through,
    and survives a throw (what was written before the throw stays written). *)
Definition M (S A : Type) : Type := S -> result A * S.

Definition ret {S A} (a : A) : M S A := fun s => (Ok a, s).

Definition bind {S A B} (m : M S A) (k : A -> M S B) : M S B :=
  fun s => match m s with
           | (Ok a, s') => k a s'
           | (Throw e, s') => (Throw e, s')
           end.

Definition throw {S A} (e : exn) : M S A := fun s => (Throw e, s).

(** [try { body } catch (err) { handler err }] *)
Definition try_catch {S A} (body : M S A) (handler : exn -> M S A) : M S A :=
  fun s => match body s with
           | (Ok a, s') => (Ok a, s')
           | (Throw e, s') => handler e s'
           end.

Definition get {S} : M S S := fun s => (Ok s, s).
Definition modify {S} (f : S -> S) : M S unit := fun s => (Ok tt, f s).

(** [xs.forEach(f)] and [for (const x of xs) f(x)]: run [f] on each element
    in order, stopping at the first throw. *)
Fixpoint for_of {S A} (xs : list A) (f : A -> M S unit) : M S unit :=
  match xs with
  | [] => ret tt
  | x :: rest => bind (f x) (fun _ => for_of rest f)
  end.

(** Truthiness of a string: every string but the empty one. *)
Definition truthy (s : string) : bool :=
  match s with EmptyString => false | String _ _ => true end.

(** [xs.indexOf(x)] on an array of strings (strict equality): the index of
    the first element equal to [x], or [-1]. *)
Fixpoint indexOf (xs : list string) (x : string) : Z :=
  match xs with
  | [] => -1
  | y :: rest =>
      if String.eqb y x then 0
      else let i := indexOf rest x in
           if i <? 0 then -1 else i + 1
  end%Z.

(** [xs.filter((x, i) => f(x, i))], the callback receiving the index;
    [i] is the index of the head of [xs]. *)
Fixpoint filter_from {A} (f : A -> Z -> bool) (i : Z) (xs : list A) : list A :=
  match xs with
  | [] => []
  | x :: rest =>
      if f x i then x :: filter_from f (i + 1) rest
      else filter_from f (i + 1) rest
  end.

Definition filter_indexed {A} (f : A -> Z -> bool) (xs : list A) : list A :=
  filter_from f 0 xs.

(** [xs.push(x)] *)
Definition push {A} (xs : list A) (x : A) : list A := xs ++ [x].

(** [xs.find(p)] is [List.find]. *)

(** *** Strings *)

(** [strip_prefix p s] is what follows [p] in [s] when [s] starts with
    [p]. *)
Fixpoint strip_prefix (p s : string) : option string :=
  match p with
  | EmptyString => Some s
  | String a p' =>
      match s with
      | EmptyString => None
      | String b s' => if Ascii.eqb a b then strip_prefix p' s' else None
      end
  end.

(** Expansion of a replacement string ([GetSubstitution] of ECMA-262) for a
    match without capture groups: [$$] stands for a dollar sign, [$&] for
    the matched text, [$`] for the text before the match and [$'] for the
    text after it; any other [$] stands for itself. *)
Fixpoint getSubstitution (matched before after replacement : string) : string :=
  match replacement with
  | EmptyString => EmptyString
  | String c tail =>
      if Ascii.eqb c "$" then
        match tail with
        | EmptyString => "$"
        | String d rest =>
            if Ascii.eqb d "$" then
              String "$" (getSubstitution matched before after rest)
            else if Ascii.eqb d "&" then
              (matched ++ getSubstitution matched before after rest)%string
            else if Ascii.eqb d "`" then
              (before ++ getSubstitution matched before after rest)%string
            else if Ascii.eqb d "'" then
              (after ++ getSubstitution matched before after rest)%string
            else
              String "$" (getSubstitution matched before after tail)
        end
      else String c (getSubstitution matched before after tail)
  end.

(** [s.replace(searchValue, replaceValue)] with a string [searchValue]:
    only the first occurrence is replaced.  [before] is the text already
    passed. *)
Fixpoint replace_from (before searchValue replaceValue s : string) : string :=
  match strip_prefix searchValue s with
  | Some after =>
      (getSubstitution searchValue before after replaceValue ++ after)%string
  | None =>
      match s with
      | EmptyString => EmptyString
      | String c rest =>
          String c (replace_from (before ++ String c EmptyString)%string
                                 searchValue replaceValue rest)
      end
  end.

Definition replace (searchValue replaceValue s : string) : string :=
  replace_from EmptyString searchValue replaceValue s.

Fixpoint string_forallb (f : ascii -> bool) (s : string) : bool :=
  match s with
  | EmptyString => true
  | String c rest => f c && string_forallb f rest
  end.

(** A text of ASCII characters. *)
Definition ascii_text (s : string) : bool :=
  string_forallb (fun c => (nat_of_ascii c <? 128)%nat) s.




(** Line feed and carriage return, the line terminators among the ASCII
    characters. *)
Definition is_line_terminator (c : ascii) : bool :=
  Ascii.eqb c "010" || Ascii.eqb c "013".

(** The match of [new RegExp(source)] at the start of [s], for a [source]
    made of characters that stand for themselves and of dots: the text
    matched and the text after it.  A dot stands for any one character
    that is not a line terminator.  Sources with another syntax character
    are not modelled. *)
Fixpoint match_source (source s : string) : option (string * string) :=
  match source with
  | EmptyString => Some (EmptyString, s)
  | String a source' =>
      match s with
      | EmptyString => None
      | String b s' =>
          if (if Ascii.eqb a "." then negb (is_line_terminator b)
              else Ascii.eqb a b)
          then match match_source source' s' with
               | Some (matched, after) => Some (String b matched, after)
               | None => None
               end
          else None
      end
  end.

(** [s.replace(new RegExp(source, 'g'), replaceValue)] for a non-empty
    [source] as in [match_source]: every match is replaced, the search
    resuming after each match.  [skip] counts the characters of the
    current match still to be passed over; [before] is the text already
    passed. *)
Fixpoint replace_global_from (skip : nat) (before source replaceValue s : string)
  : string :=
  match s with
  | EmptyString => EmptyString
  | String c rest =>
      let before' := (before ++ String c EmptyString)%string in
      match skip with
      | S k => replace_global_from k before' source replaceValue rest
      | O =>
          match match_source source s with
          | Some (matched, after) =>
              (getSubstitution matched before after replaceValue
               ++ replace_global_from (String.length source - 1) before'
                                      source replaceValue rest)%string
          | None =>
              String c (replace_global_from 0 before' source replaceValue rest)
          end
      end
  end.

Definition replace_global (source replaceValue s : string) : string :=
  replace_global_from 0 EmptyString source replaceValue s.

Definition is_digit (c : ascii) : bool :=
  let n := nat_of_ascii c in ((48 <=? n) && (n <=? 57))%nat.


End Js.

Declare Scope js_scope.
Delimit Scope js_scope with js.
Notation "x <- m ;; k" := (Js.bind m (fun x => k))
  (at level 61, m at next level, right associativity) : js_scope.
Notation "m ;;; k" := (Js.bind m (fun _ => k))
  (at level 61, right associativity) : js_scope.

(* ===================================================================== *)
(** ** The [semver] package *)
(* ===================================================================== *)

(** lib/node.ts imports [semver.gt] and [semver.lt] from the npm package
    [semver], whose sources are not part of the repository.  They are
    modelled here after the precedence rules of semantic versioning the
    specification refers to. *)
Module Semver.
Import Js.

(** A pre-release identifier: a number, or a text of letters, digits and
    hyphens that is not a number. *)
Inductive Identifier : Type :=
| Numeric (n : N)
| Alphanumeric (s : string).

(** A parsed version.  Build metadata is checked by the parser and then
    dropped: it takes no part in comparisons. *)
Record SemVer : Type := {
  major : N;
  minor : N;
  patch : N;
  prerelease : list Identifier
}.

Definition MAX_LENGTH : nat := 256.
Definition MAX_SAFE_INTEGER : N := 9007199254740991.

(** [s.split(sep)] for a one-character separator. *)
Fixpoint split (sep : ascii) (s : string) : list string :=
  match s with
  | EmptyString => [EmptyString]
  | String c rest =>
      if Ascii.eqb c sep then EmptyString :: split sep rest
      else match split sep rest with
           | head :: tail => String c head :: tail
           | [] => [String c EmptyString]
           end
  end.

(** The text before the first [sep], and the text after it if there is
    one. *)
Fixpoint split_first (sep : ascii) (s : string) : string * option string :=
  match s with
  | EmptyString => (EmptyString, None)
  | String c rest =>
      if Ascii.eqb c sep then (EmptyString, Some rest)
      else let (before, after) := split_first sep rest in
           (String c before, after)
  end.

Fixpoint digits_value (acc : N) (s : string) : N :=
  match s with
  | EmptyString => acc
  | String c rest => digits_value (acc * 10 + (N_of_ascii c - 48)) rest
  end.

(** [0|[1-9]\d*] *)
Definition is_numeric_identifier (s : string) : bool :=
  match s with
  | EmptyString => false
  | String c rest =>
      string_forallb is_digit s
      && (negb (Ascii.eqb c "0") || (rest =? "")%string)
  end.

(** [[0-9A-Za-z-]] *)
Definition is_identifier_char (c : ascii) : bool :=
  let n := nat_of_ascii c in
  (((48 <=? n) && (n <=? 57)) || ((65 <=? n) && (n <=? 90))
   || ((97 <=? n) && (n <=? 122)) || (n =? 45))%nat.

(** A component of the main version: a numeric identifier not above
    [MAX_SAFE_INTEGER]. *)
Definition parse_number (s : string) : option N :=
  if is_numeric_identifier s && (digits_value 0 s <=? MAX_SAFE_INTEGER)%N
  then Some (digits_value 0 s) else None.

(** A pre-release identifier.  An all-digit identifier must be a numeric
    identifier below [MAX_SAFE_INTEGER]. *)
Definition parse_identifier (s : string) : option Identifier :=
  match s with
  | EmptyString => None
  | String _ _ =>
      if negb (string_forallb is_identifier_char s) then None
      else if string_forallb is_digit s then
        if is_numeric_identifier s && (digits_value 0 s <? MAX_SAFE_INTEGER)%N
        then Some (Numeric (digits_value 0 s)) else None
      else Some (Alphanumeric s)
  end.

Fixpoint parse_identifiers (ids : list string) : option (list Identifier) :=
  match ids with
  | [] => Some []
  | s :: rest =>
      match parse_identifier s, parse_identifiers rest with
      | Some i, Some is' => Some (i :: is')
      | _, _ => None
      end
  end.

(** White space: tab, line feed, vertical tab, form feed, carriage return
    and space. *)
Definition is_space (c : ascii) : bool :=
  let n := nat_of_ascii c in (((9 <=? n) && (n <=? 13)) || (n =? 32))%nat.

Fixpoint trim_start (s : string) : string :=
  match s with
  | EmptyString => EmptyString
  | String c rest => if is_space c then trim_start rest else s
  end.

Fixpoint trim_end (s : string) : string :=
  match s with
  | EmptyString => EmptyString
  | String c rest =>
      match trim_end rest with
      | EmptyString => if is_space c then EmptyString else String c EmptyString
      | rest' => String c rest'
      end
  end.

(** [s.trim()] *)
Definition trim (s : string) : string := trim_end (trim_start s).

(** A build identifier: [[0-9A-Za-z-]+]. *)
Definition is_build_identifier (s : string) : bool :=
  truthy s && string_forallb is_identifier_char s.

(** Modelled from the spec: the parser behind [semver.gt] and [semver.lt]
    ([new SemVer(version)] of the [semver] package, absent from the sources),
    for the versions of semantic versioning: an optional [v], three numbers
    separated by dots, an optional [-] and dot-separated pre-release
    identifiers, an optional [+] and dot-separated build identifiers, white
    space around the whole being ignored.  [None] stands for the
    [TypeError] the package throws. *)
Definition parse (version : string) : option SemVer :=
  if (MAX_LENGTH <? String.length version)%nat then None
  else
    let version := trim version in
    let version := match strip_prefix "v" version with
                   | Some rest => rest
                   | None => version
                   end in
    let (main_pre, build) := split_first "+" version in
    let build_ok := match build with
                    | None => true
                    | Some b => forallb is_build_identifier (split "." b)
                    end in
    let (main, pre) := split_first "-" main_pre in
    let ids := match pre with
               | None => Some []
               | Some p => parse_identifiers (split "." p)
               end in
    match split "." main, ids with
    | [a; b; c], Some ids =>
        match parse_number a, parse_number b, parse_number c with
        | Some a, Some b, Some c =>
            if build_ok
            then Some {| major := a; minor := b; patch := c; prerelease := ids |}
            else None
        | _, _, _ => None
        end
    | _, _ => None
    end.

(** [compareIdentifiers]: numbers by value, a number below any text, texts
    in the order of their characters. *)
Definition compareIdentifiers (a b : Identifier) : comparison :=
  match a, b with
  | Numeric x, Numeric y => N.compare x y
  | Numeric _, Alphanumeric _ => Lt
  | Alphanumeric _, Numeric _ => Gt
  | Alphanumeric x, Alphanumeric y => String.compare x y
  end.

(** The loop of [comparePre] over both identifier lists: the first
    difference decides, and a list that ends first is the lower one. *)
Fixpoint compareList (a b : list Identifier) : comparison :=
  match a, b with
  | [], [] => Eq
  | _ :: _, [] => Gt
  | [], _ :: _ => Lt
  | x :: a', y :: b' =>
      match compareIdentifiers x y with
      | Eq => compareList a' b'
      | c => c
      end
  end.

(** [compareMain]: major, then minor, then patch. *)
Definition compareMain (a b : SemVer) : comparison :=
  match N.compare (major a) (major b) with
  | Eq =>
      match N.compare (minor a) (minor b) with
      | Eq => N.compare (patch a) (patch b)
      | c => c
      end
  | c => c
  end.

(** [comparePre]: a version without pre-release is above one with. *)
Definition comparePre (a b : SemVer) : comparison :=
  match prerelease a, prerelease b with
  | _ :: _, [] => Lt
  | [], _ :: _ => Gt
  | [], [] => Eq
  | pa, pb => compareList pa pb
  end.

(** Modelled from the spec: [SemVer.compare] of the [semver] package, the
    precedence of semantic versions. *)
Definition compare (a b : SemVer) : comparison :=
  match compareMain a b with
  | Eq => comparePre a b
  | c => c
  end.

Definition invalid (version : string) : exn :=
  TypeError ("Invalid Version: " ++ version).

(** Modelled from the spec: [semver.gt(a, b)] of the [semver] package. *)
Definition gt (a b : string) : result bool :=
  match parse a, parse b with
  | Some x, Some y =>
      Ok (match compare x y with Gt => true | _ => false end)
  | None, _ => Throw (invalid a)
  | Some _, None => Throw (invalid b)
  end.

(** Modelled from the spec: [semver.lt(a, b)] of the [semver] package. *)
Definition lt (a b : string) : result bool :=
  match parse a, parse b with
  | Some x, Some y =>
      Ok (match compare x y with Lt => true | _ => false end)
  | None, _ => Throw (invalid a)
  | Some _, None => Throw (invalid b)
  end.

End Semver.

(* ===================================================================== *)
(** ** lib/node.ts *)
(* ===================================================================== *)

Module Node.
Import Js.
Local Open Scope js_scope.

(** [text.replace(RX_VERSION_CLEAN, '')] with [RX_VERSION_CLEAN = /^v/]:
    a leading [v] is dropped. *)
Definition clean (text : string) : string :=
  match strip_prefix "v" text with
  | Some rest => rest
  | None => text
  end.

(** The [lts] field of an entry: [boolean | string]. *)
Inductive Lts : Type :=
| LtsFlag (flag : bool)
| LtsName (codename : string).

(** [!!version.lts] *)
Definition lts_truthy (l : Lts) : bool :=
  match l with
  | LtsFlag flag => flag
  | LtsName codename => truthy codename
  end.

(** An entry of the catalog; of its fields the code reads [version] and
    [lts] only. *)
Record NodeVersion : Type := {
  version : string;
  date : string;
  lts : Lts
}.

(** [semverCompare(a, b)]: [-1] when [a] is the higher version, so that a
    sort with it lists the highest first. *)
Definition semverCompare (a b : string) : result Z :=
  match Semver.gt a b with
  | Throw e => Throw e
  | Ok true => Ok (-1)%Z
  | Ok false =>
      match Semver.lt a b with
      | Throw e => Throw e
      | Ok true => Ok 1%Z
      | Ok false => Ok 0%Z
      end
  end.

(** [xs.sort(compare)]: the sorted permutation of [xs], elements that
    compare equal keeping their order; a throw of [compare] ends the
    sort. *)
Fixpoint insert_sorted {A} (compare : A -> A -> result Z) (x : A)
  (sorted : list A) : result (list A) :=
  match sorted with
  | [] => Ok [x]
  | y :: rest =>
      match compare x y with
      | Throw e => Throw e
      | Ok c =>
          if (c <=? 0)%Z then Ok (x :: y :: rest)
          else match insert_sorted compare x rest with
               | Ok rest' => Ok (y :: rest')
               | Throw e => Throw e
               end
      end
  end.

Fixpoint sort {A} (compare : A -> A -> result Z) (xs : list A)
  : result (list A) :=
  match xs with
  | [] => Ok []
  | x :: rest =>
      match sort compare rest with
      | Ok sorted => insert_sorted compare x sorted
      | Throw e => Throw e
      end
  end.

(** What [https://nodejs.org/dist/index.json] answers: an error, or a body
    that parses to an array or to [null]. *)
Inductive Response : Type :=
| RequestFailed (err : exn)
| Answered (body : option (list NodeVersion)).

(** The module variable [nodeVersions] and the remote index. *)
Record World : Type := {
  nodeVersions : option (list NodeVersion);
  index_json : Response;
  requests : nat                  (* requests made so far *)
}.

(** The comparison [getNodeVersions] sorts with. *)
Definition compare_entries (a b : NodeVersion) : result Z :=
  semverCompare (clean (version a)) (clean (version b)).

(** [getNodeVersions(force = false)].  An error of the comparator is
    raised inside the callback of the request, where nothing catches it
    and the promise is never settled: the [Throw] that stands for it here
    is the end of the call, not a rejection a caller could handle. *)
Definition getNodeVersions (force : bool) : M World (list NodeVersion) := fun w =>
  match (if negb force then nodeVersions w else None) with
  | Some cached => (Ok cached, w)
  | None =>
      let requested cache :=
        {| nodeVersions := cache; index_json := index_json w;
           requests := S (requests w) |} in
      match index_json w with
      | RequestFailed err => (Throw err, requested (nodeVersions w))
      | Answered body =>
          let parsed := match body with Some entries => entries | None => [] end in
          match sort compare_entries parsed with
          | Ok sorted => (Ok sorted, requested (Some sorted))
          | Throw e => (Throw e, requested (nodeVersions w))
          end
      end
  end.

(** [(entry || {}).version || ''] *)
Definition version_or_empty (entry : option NodeVersion) : string :=
  match entry with
  | Some e => version e
  | None => EmptyString
  end.

(** [nodeVersion(tag)].  In the default case the pattern built from the
    tag is, for a tag of digits and dots, the test that the version starts
    with [v] and the tag. *)
Definition nodeVersion (tag : string) : M World string :=
  versions <- getNodeVersions false ;;
  if (tag =? "node")%string || (tag =? "latest")%string then
    ret (clean (version_or_empty (hd_error versions)))
  else if (tag =? "stable")%string || (tag =? "lts")%string
          || (tag =? "lts/*")%string then
    ret (clean (version_or_empty
                  (find (fun version => lts_truthy (lts version)) versions)))
  else
    ret (clean (version_or_empty
                  (find (fun v => match strip_prefix ("v" ++ tag) (version v) with
                                  | Some _ => true
                                  | None => false
                                  end) versions))).

(** The argument of [toTravisTags]: [string | string[]], or a missing one. *)
Inductive TagsArg : Type :=
| TagsUndefined
| TagsString (s : string)
| TagsArray (l : list string).

(** One iteration of the loop body: the [switch] on [tag].  The first case
    has no [break], so control falls through into the ['latest'] case. *)
Definition switch_tag (travisTags : list string) (tag : string) : list string :=
  if (tag =? "stable") || (tag =? "lts") then
    let travisTags := push travisTags "lts/*" in
    push travisTags "node"
  else if tag =? "latest" then
    push travisTags "node"
  else
    push travisTags tag.

(** The array [travisTags] after the [for] loop. *)
Definition pushed_tags (tags : list string) : list string :=
  fold_left switch_tag tags [].

Definition toTravisTags (tags : TagsArg) : list string :=
  match tags with
  | TagsUndefined => []
  | TagsString s =>
      if negb (truthy s) then []
      else
        let travisTags := pushed_tags [s] in
        filter_indexed (fun tag i => indexOf travisTags tag =? i)%Z travisTags
  | TagsArray l =>
      let travisTags := pushed_tags l in
      filter_indexed (fun tag i => indexOf travisTags tag =? i)%Z travisTags
  end.

End Node.

(* ===================================================================== *)
(** ** lib/travis.ts *)
(* ===================================================================== *)

Module Travis.
Import Js.
Local Open Scope js_scope.
Local Open Scope Z_scope.

(** An entry of the list answered by [travis.hooks.get()]. *)
Record Hook : Type := {
  id : Z;
  owner_name : string;
  name : string;
  active : bool
}.

(** The Travis service as the client sees it, and what the code did to it.
    The first four fields say how the remote side answers; the others record
    the calls made. *)
Record World : Type := {
  authenticate_ok : bool;         (* does [travis.authenticate] resolve *)
  sync_post_ok : nat -> bool;     (* does the k-th [users.sync.post()] resolve *)
  hooks_answer : option (list Hook); (* [hooks.get()]: the list, or a rejection *)
  hook_put_ok : bool;             (* does [hooks(id).put] resolve *)
  authenticated : list string;    (* tokens presented *)
  syncs : nat;                    (* [users.sync.post()] calls made so far *)
  slept : list Z;                 (* delays slept, oldest first *)
  puts : list (Z * bool)          (* [hooks(id).put({hook: {id, active}})] calls *)
}.

Definition record_authenticate (github_token : string) (w : World) : World :=
  {| authenticate_ok := authenticate_ok w; sync_post_ok := sync_post_ok w;
     hooks_answer := hooks_answer w; hook_put_ok := hook_put_ok w;
     authenticated := authenticated w ++ [github_token];
     syncs := syncs w; slept := slept w; puts := puts w |}.

Definition record_sync (w : World) : World :=
  {| authenticate_ok := authenticate_ok w; sync_post_ok := sync_post_ok w;
     hooks_answer := hooks_answer w; hook_put_ok := hook_put_ok w;
     authenticated := authenticated w;
     syncs := S (syncs w); slept := slept w; puts := puts w |}.

Definition record_sleep (delay : Z) (w : World) : World :=
  {| authenticate_ok := authenticate_ok w; sync_post_ok := sync_post_ok w;
     hooks_answer := hooks_answer w; hook_put_ok := hook_put_ok w;
     authenticated := authenticated w;
     syncs := syncs w; slept := slept w ++ [delay]; puts := puts w |}.

Definition record_put (hook_id : Z) (act : bool) (w : World) : World :=
  {| authenticate_ok := authenticate_ok w; sync_post_ok := sync_post_ok w;
     hooks_answer := hooks_answer w; hook_put_ok := hook_put_ok w;
     authenticated := authenticated w;
     syncs := syncs w; slept := slept w; puts := puts w ++ [(hook_id, act)] |}.

(** [travis.authenticate({ github_token })] *)
Definition authenticate (github_token : string) : M World unit := fun w =>
  if authenticate_ok w then (Ok tt, record_authenticate github_token w)
  else (Throw (Error "travis: authentication failed"),
        record_authenticate github_token w).

(** [travis.users.sync.post()] *)
Definition users_sync_post : M World unit := fun w =>
  if sync_post_ok w (syncs w) then (Ok tt, record_sync w)
  else (Throw (Error "travis: sync failed"), record_sync w).

(** [sleep(delay)] of lib/node.ts: resolves after [delay] milliseconds. *)
Definition sleep (delay : Z) : M World unit := fun w =>
  (Ok tt, record_sleep delay w).

(** [travis.hooks.get()], already projected on its [hooks] field. *)
Definition hooks_get : M World (list Hook) := fun w =>
  match hooks_answer w with
  | Some hs => (Ok hs, w)
  | None => (Throw (Error "travis: hooks request failed"), w)
  end.

(** [travis.hooks(hook_id).put({ hook: { id: hook_id, active: act } })] *)
Definition hooks_put (hook_id : Z) (act : bool) : M World unit := fun w =>
  if hook_put_ok w then (Ok tt, record_put hook_id act w)
  else (Throw (Error "travis: hook update failed"), record_put hook_id act w).

(** [trySyncBuilds(travis, retry = 0, maxRetries = 3, delay = 2000)], for
    counters that are integers a number holds exactly (see [TravisRetry]
    for the other numbers).  The recursive call passes [++retry] and
    [maxRetries] but no [delay], so a retry runs with the default delay of
    2000. *)
Equations? trySyncBuilds (retry maxRetries delay : Z) (w : World)
  : result bool * World by wf (Z.to_nat (maxRetries - retry)) lt :=
  trySyncBuilds retry maxRetries delay w
    with (users_sync_post ;;; sleep delay) w => {
    | (Ok _, w1) := (Ok true, w1);
    | (Throw err, w1) with Z_lt_dec retry maxRetries => {
      | left _ with sleep delay w1 => {
        | (Ok _, w2) := trySyncBuilds (retry + 1) maxRetries 2000 w2;
        | (Throw e, w2) := (Throw e, w2) };
      | right _ := (Ok false, w1) } }.
Proof. lia. Qed.

(** [enableBuilds(owner, repo, github_token, isPrivate)].  [isPrivate] only
    selects the endpoint the client talks to. *)
Definition enableBuilds (owner repo github_token : string) (isPrivate : bool)
  : M World bool :=
  authenticate github_token ;;;
  trySyncBuilds 0 3 2000 ;;;
  answer <- hooks_get ;;
  let hook := find (fun hook => (owner_name hook =? owner)%string
                                && (name hook =? repo)%string) answer in
  match hook with
  | None => ret false
  | Some hook =>
      if active hook then ret true
      else hooks_put (id hook) true ;;; ret true
  end.

End Travis.

(** *** The retry counters as numbers *)

Module TravisRetry.
Import Js Travis.
Local Open Scope js_scope.
Local Open Scope Z_scope.

(** The values of [retry] and [maxRetries]: integers, the two infinities
    and [NaN].  A number holds every integer from [-2^53] to [2^53], and
    beyond them, up to [2^54] on either side, the even ones. *)
Inductive number : Type :=
| Integer (z : Z)
| Infinity
| NegativeInfinity
| NaN.

Definition MAX_EXACT : Z := 9007199254740992.

(** [a < b] *)
Definition less_than (a b : number) : bool :=
  match a, b with
  | NaN, _ | _, NaN => false
  | Integer x, Integer y => x <? y
  | Integer _, Infinity => true
  | Integer _, NegativeInfinity => false
  | Infinity, _ => false
  | NegativeInfinity, NegativeInfinity => false
  | NegativeInfinity, _ => true
  end.

(** [++retry].  From [-2^53] to [2^53 - 1] the sum is exact.  Beyond,
    up to [2^54] on either side, the sum lies half way between two
    numbers and is rounded to the one whose half is even: the counter
    stays where it is, or moves on by two.  Farther out the sum is rounded
    back to the counter.  An infinity and [NaN] stay what they are. *)
Definition increment (a : number) : number :=
  match a with
  | Integer z =>
      if (- MAX_EXACT <=? z) && (z <? MAX_EXACT) then Integer (z + 1)
      else if (Z.abs z <? 2 * MAX_EXACT) && Z.odd (z / 2) then Integer (z + 2)
      else Integer z
  | other => other
  end.

(** [trySyncBuilds(travis, retry, maxRetries, delay)] on these numbers.
    [calls] bounds the number of calls of the function: the result is
    [None] when that many calls do not bring it to its end. *)
Fixpoint trySyncBuilds (calls : nat) (retry maxRetries : number) (delay : Z)
  (w : World) : option (result bool * World) :=
  match calls with
  | O => None
  | S calls' =>
      match (users_sync_post ;;; sleep delay) w with
      | (Ok _, w1) => Some (Ok true, w1)
      | (Throw err, w1) =>
          if less_than retry maxRetries then
            match sleep delay w1 with
            | (Ok _, w2) =>
                trySyncBuilds calls' (increment retry) maxRetries 2000 w2
            | (Throw e, w2) => Some (Throw e, w2)
            end
          else Some (Ok false, w1)
      end
  end.

End TravisRetry.

(* ===================================================================== *)
(** ** src/service/create.ts *)
(* ===================================================================== *)

Module Create.
Import Js.
Local Open Scope js_scope.

(** *** License text *)



(** *** Template compilation *)

(** A tag object: its properties in insertion order, each name once. *)
Definition Tags : Type := list (string * string).

(** A property name that is an array index: the canonical decimal text of
    an integer below [2^32 - 1]. *)
Definition array_index (name : string) : option N :=
  if Semver.is_numeric_identifier name
     && (Semver.digits_value 0 name <=? 4294967294)%N
  then Some (Semver.digits_value 0 name) else None.

Fixpoint insert_by_index (i : N) (entry : string * string)
  (sorted : list (N * (string * string))) : list (N * (string * string)) :=
  match sorted with
  | [] => [(i, entry)]
  | (j, other) :: rest =>
      if (i <? j)%N then (i, entry) :: sorted
      else (j, other) :: insert_by_index i entry rest
  end.

(** The properties whose name is an array index, in ascending order of
    index. *)
Fixpoint indexed_entries (tags : Tags) : list (N * (string * string)) :=
  match tags with
  | [] => []
  | (name, value) :: rest =>
      match array_index name with
      | Some i => insert_by_index i (name, value) (indexed_entries rest)
      | None => indexed_entries rest
      end
  end.

(** The properties in the order of [Object.keys]: the array indices first,
    in ascending order, then the other names in insertion order. *)
Definition own_entries (tags : Tags) : Tags :=
  map snd (indexed_entries tags)
  ++ filter (fun entry => match array_index (fst entry) with
                          | Some _ => false
                          | None => true
                          end) tags.

(** [compileTemplateFile(text, tags)] *)
Definition compileTemplateFile (text : string) (tags : Tags) : string :=
  fold_left
    (fun text '(tag, value) => replace_global ("%" ++ tag)%string value text)
    (own_entries tags) text.

(** The file system: a tree of directories and regular files, each file
    with its bytes (a file of ASCII characters is its own text).  A path is
    the list of names leading from the root. *)
#[warnings="-register-all"]
Inductive node : Type :=
| File (content : string)
| Dir (entries : list (string * node)).

Definition path : Type := list string.

Fixpoint assoc (x : string) (es : list (string * node)) : option node :=
  match es with
  | [] => None
  | (y, n) :: rest => if (y =? x)%string then Some n else assoc x rest
  end.

Fixpoint lookup (p : path) (n : node) : option node :=
  match p with
  | [] => Some n
  | x :: q =>
      match n with
      | File _ => None
      | Dir es =>
          match assoc x es with
          | Some child => lookup q child
          | None => None
          end
      end
  end.

(** [update_entry x f es] applies [f] to the entry named [x], the one
    [assoc] finds. *)
Fixpoint update_entry (x : string) (f : node -> node)
  (es : list (string * node)) : list (string * node) :=
  match es with
  | [] => []
  | (y, n) :: rest =>
      if (y =? x)%string then (y, f n) :: rest
      else (y, n) :: update_entry x f rest
  end.

(** [update p f n] applies [f] to the node at [p], if there is one. *)
Fixpoint update (p : path) (f : node -> node) (n : node) : node :=
  match p with
  | [] => f n
  | x :: q =>
      match n with
      | File c => File c
      | Dir es => Dir (update_entry x (update q f) es)
      end
  end.

(** [resolve(path, file)] of lib/path: the entry [file] of directory
    [path]. *)
Definition resolve (p : path) (file : string) : path := p ++ [file].

Definition readdirSync (p : path) : M node (list string) := fun fs =>
  match lookup p fs with
  | Some (Dir es) => (Ok (map fst es), fs)
  | Some (File _) => (Throw (Error "ENOTDIR: not a directory, scandir"), fs)
  | None => (Throw (Error "ENOENT: no such file or directory, scandir"), fs)
  end.

(** [fs.statSync(p).isDirectory()] *)
Definition statSync_isDirectory (p : path) : M node bool := fun fs =>
  match lookup p fs with
  | Some (Dir _) => (Ok true, fs)
  | Some (File _) => (Ok false, fs)
  | None => (Throw (Error "ENOENT: no such file or directory, stat"), fs)
  end.

Definition readFileSync (p : path) : M node string := fun fs =>
  match lookup p fs with
  | Some (File c) => (Ok c, fs)
  | Some (Dir _) => (Throw (Error "EISDIR: illegal operation on a directory, read"), fs)
  | None => (Throw (Error "ENOENT: no such file or directory, open"), fs)
  end.

(** [fs.writeFileSync(p, content)]: replaces the content of an existing
    file, and creates the file when only its directory exists. *)
Definition writeFileSync (p : path) (content : string) : M node unit := fun fs =>
  match lookup p fs with
  | Some (File _) => (Ok tt, update p (fun _ => File content) fs)
  | Some (Dir _) => (Throw (Error "EISDIR: illegal operation on a directory, open"), fs)
  | None =>
      match lookup (removelast p) fs, p with
      | Some (Dir _), _ :: _ =>
          (Ok tt, update (removelast p)
                    (fun d => match d with
                              | Dir es => Dir (es ++ [(last p EmptyString, File content)])
                              | File c => File c
                              end) fs)
      | _, _ => (Throw (Error "ENOENT: no such file or directory, open"), fs)
      end
  end.

Section Codec.

(** The [utf8] encoding of the platform: the text that the bytes of a file
    decode to (bytes that are no UTF-8 give way to replacement
    characters), and the bytes a text is encoded to. *)
Variable utf8_decode : string -> string.
Variable utf8_encode : string -> string.

(** [compileTemplate(path, tags)].  [stack] is the depth of calls the
    engine still allows; a deeper recursion throws a [RangeError]. *)
Fixpoint compileTemplate (stack : nat) (p : path) (tags : Tags) : M node unit :=
  match stack with
  | O => throw (RangeError "Maximum call stack size exceeded")
  | S stack' =>
      files <- readdirSync p ;;
      for_of files (fun file =>
        let filePath := resolve p file in
        isDirectory <- statSync_isDirectory filePath ;;
        if isDirectory then compileTemplate stack' filePath tags
        else
          bytes <- readFileSync filePath ;;
          let content := compileTemplateFile (utf8_decode bytes) tags in
          writeFileSync filePath (utf8_encode content))
  end.

End Codec.

(** *** The command handler *)

(** The arguments [handler] itself reads. *)
Record Arguments : Type := {
  arg_path : string;
  noInstall : bool
}.

Section Handler.

(** The outside world the stages act on, with the module variable
    [gitRepoInitialized] that [createGitRepo] sets. *)
Variable World : Type.
Variable gitRepoInitialized : World -> bool.

(** The stages of the pipeline: they prompt, copy files and call remote
    services; the handler only sequences them. *)
Variables buildFromTemplate createGitRepo buildDockerCi installPackages commit
  : Arguments -> M World unit.

(** [resolve], [rmdir] and [printError] of lib, and [console.log]. *)
Variable resolve_path : string -> string.
Variable rmdir : string -> M World unit.
Variable printError : exn -> M World unit.
Variable console_log : string -> M World unit.

(** The stages inside the [try] block. *)
Definition pipeline (argv : Arguments) : M World unit :=
  buildFromTemplate argv ;;;
  createGitRepo argv ;;;
  buildDockerCi argv ;;;
  (if negb (noInstall argv) then installPackages argv else ret tt) ;;;
  w <- get ;;
  (if gitRepoInitialized w then commit argv else ret tt) ;;;
  console_log "Service successfully created!".

(** [argv.path && (argv.path !== '.' || argv.path !== './')] *)
Definition cleanup_wanted (argv : Arguments) : bool :=
  truthy (arg_path argv)
  && (negb (arg_path argv =? ".")%string || negb (arg_path argv =? "./")%string).

Definition handler (argv : Arguments) : M World unit :=
  try_catch (pipeline argv)
    (fun err =>
       (if cleanup_wanted argv then rmdir (resolve_path (arg_path argv))
        else ret tt) ;;;
       printError err).

End Handler.

End Create.

(* ===================================================================== *)
(** ** src/service/update-version.ts *)
(* ===================================================================== *)

Module UpdateVersion.
Import Js.
Local Open Scope js_scope.

(** What [child_process.spawnSync] returns with [stdio: 'pipe'].  A process
    that ran to its end has a numeric [status] and its captured error
    output; one ended by a signal has a [null] status; when the executable
    could not be started there is an [error], and [status] and [stderr] are
    [null]. *)
Inductive SpawnSyncReturns : Type :=
| Exited (code : Z) (err_output : string)
| Signalled (signal : string) (err_output : string)
| NotSpawned (err : exn).

Definition status (r : SpawnSyncReturns) : option Z :=
  match r with Exited code _ => Some code | _ => None end.

Definition error (r : SpawnSyncReturns) : option exn :=
  match r with NotSpawned err => Some err | _ => None end.

Definition stderr (r : SpawnSyncReturns) : option string :=
  match r with
  | Exited _ out | Signalled _ out => Some out
  | NotSpawned _ => None
  end.

(** One call of [spawnSync(command, args, { cwd, stdio: 'pipe' })]. *)
Record Spawn : Type := {
  command : string;
  args : list string;
  cwd : string
}.

(** The operating system and the console.  [answer] says what a process
    returns, given the processes run before it. *)
Record World : Type := {
  answer : list Spawn -> Spawn -> SpawnSyncReturns;
  spawned : list Spawn;       (* processes run so far, oldest first *)
  logged : list string        (* lines written by [logger.log] *)
}.

Definition spawnSync (command : string) (args : list string) (cwd : string)
  : M World SpawnSyncReturns := fun w =>
  let call := {| command := command; args := args; cwd := cwd |} in
  (Ok (answer w (spawned w) call),
   {| answer := answer w; spawned := spawned w ++ [call]; logged := logged w |}).

Definition logger_log (line : string) : M World unit := fun w =>
  (Ok tt, {| answer := answer w; spawned := spawned w;
             logged := logged w ++ [line] |}).

(** [chalk] only colours its argument; the colour codes are left out. *)
Definition chalk (text : string) : string := text.

(** The two arguments of the command line the flow reads. *)
Record Arguments : Type := {
  branch : string;
  npmVersion : string
}.

Definition gitCheckout (servicePath branch : string) : M World SpawnSyncReturns :=
  logger_log ("Switching on branch " ++ branch ++ "...") ;;;
  spawnSync "git" ["checkout"; branch] servicePath.

Definition gitPull (servicePath : string) : M World SpawnSyncReturns :=
  logger_log "Execution git pull..." ;;;
  spawnSync "git" ["pull"] servicePath.

Definition changeVersion (servicePath version : string) : M World SpawnSyncReturns :=
  logger_log ("Execute npm version " ++ version) ;;;
  spawnSync "npm" ["version"; version] servicePath.

Definition gitPush (servicePath : string) : M World SpawnSyncReturns :=
  logger_log "Execution git push..." ;;;
  spawnSync "git" ["push"; "--follow-tags"] servicePath.

(** [response.status !== 0] *)
Definition status_not_zero (r : SpawnSyncReturns) : bool :=
  match status r with Some 0%Z => false | _ => true end.

Definition is_some {A} (o : option A) : bool :=
  match o with Some _ => true | None => false end.

(** [handleSpawnResponse]: logs the error output when
    [response.status !== 0 || response.error && response.stderr], and returns
    the status.  [response.stderr.toString()] throws on a [null] [stderr]. *)
Definition handleSpawnResponse (response : SpawnSyncReturns) : M World (option Z) :=
  (if status_not_zero response
      || (is_some (error response) && is_some (stderr response))
   then match stderr response with
        | Some out => logger_log (chalk out)
        | None => throw (TypeError "Cannot read property 'toString' of null")
        end
   else ret tt) ;;;
  ret (status response).

(** Truthiness of a [number | null]: a number other than zero. *)
Definition truthy_status (s : option Z) : bool :=
  match s with
  | Some 0%Z | None => false
  | Some _ => true
  end.

(** [execGitFlow]: checkout, pull, version bump, push; each [return] on a
    truthy status leaves the function. *)
Definition execGitFlow (servicePath : string) (args : Arguments) : M World unit :=
  response <- gitCheckout servicePath (branch args) ;;
  st <- handleSpawnResponse response ;;
  if truthy_status st then ret tt else
  response <- gitPull servicePath ;;
  st <- handleSpawnResponse response ;;
  if truthy_status st then ret tt else
  response <- changeVersion servicePath (npmVersion args) ;;
  st <- handleSpawnResponse response ;;
  if truthy_status st then ret tt else
  response <- gitPush servicePath ;;
  st <- handleSpawnResponse response ;;
  if truthy_status st then ret tt else
  logger_log (chalk "Done!").

Definition walkThroughFolders (paths : list string) (args : Arguments) : M World unit :=
  for_of paths (fun path =>
    logger_log (chalk (String "010" "Service: " ++ path)) ;;;
    execGitFlow path args).

End UpdateVersion.

(* ===================================================================== *)
(** ** src/service/update-version.ts: discovery of the service folders *)
(* ===================================================================== *)

Module Discovery.
Import Js.
Local Open Scope js_scope.

(** [hay.includes(needle)] *)
Fixpoint includes (needle hay : string) : bool :=
  match strip_prefix needle hay with
  | Some _ => true
  | None =>
      match hay with
      | EmptyString => false
      | String _ rest => includes needle rest
      end
  end.

Definition BASE_SERVICE_NAME : string := "IMQService".

(** [console.log]: the function of the console, or the empty function
    [isFolderContainsService] puts in its place. *)
Inductive Logger : Type :=
| Printing
| Silent.

(** A value exported by a module, seen through [value.__proto__.name]:
    reading [__proto__] of [null] or [undefined] throws; otherwise the
    name is a string or is not. *)
Inductive Exported : Type :=
| Nullish
| Valued (proto_name : option string).

(** The process and the disk.  The first four fields are not changed by the
    code: which directories [process.chdir] can enter, what [require]
    loads (the exports of the module in the order of [Object.entries], or a
    throw), what [readdirSync] lists, and the directory the process started
    in. *)
Record World : Type := {
  directories : string -> bool;
  modules : string -> option (list (string * Exported));
  listing : string -> option (list string);
  ROOT_DIRECTORY : string;
  cwd : string;
  console_log : Logger
}.

Definition set_console_log (logger : Logger) : M World unit :=
  modify (fun w =>
    {| directories := directories w; modules := modules w;
       listing := listing w; ROOT_DIRECTORY := ROOT_DIRECTORY w;
       cwd := cwd w; console_log := logger |}).

(** [process.chdir(directory)] *)
Definition process_chdir (directory : string) : M World unit := fun w =>
  if directories w directory then
    (Ok tt, {| directories := directories w; modules := modules w;
               listing := listing w; ROOT_DIRECTORY := ROOT_DIRECTORY w;
               cwd := directory; console_log := console_log w |})
  else (Throw (Error "ENOENT: no such file or directory, chdir"), w).

(** [require(servicePath)] *)
Definition require (servicePath : string)
  : M World (list (string * Exported)) := fun w =>
  match modules w servicePath with
  | Some service => (Ok service, w)
  | None => (Throw (Error "Cannot find module"), w)
  end.

(** [fs.readdirSync(path)] *)
Definition readdirSync (path : string) : M World (list string) := fun w =>
  match listing w path with
  | Some dirs => (Ok dirs, w)
  | None => (Throw (Error "ENOENT: no such file or directory, scandir"), w)
  end.

(** The [for] loop of [isFolderContainsService]: [Some b] when the loop
    returns [b], [None] when it ends without returning. *)
Fixpoint first_service_export (service : list (string * Exported))
  : M World (option bool) :=
  match service with
  | [] => ret None
  | (prop, func) :: rest =>
      if negb (includes "Service" prop) then first_service_export rest
      else
        match func with
        | Nullish =>
            throw (TypeError "Cannot read property '__proto__' of undefined")
        | Valued proto_name =>
            ret (Some (match proto_name with
                       | Some name => (name =? BASE_SERVICE_NAME)%string
                       | None => false
                       end))
        end
  end.

(** [isFolderContainsService(servicePath)].  A [return] from inside the
    loop leaves the function at once: what follows the [try] block is then
    not run. *)
Definition isFolderContainsService (servicePath : string) : M World bool :=
  w0 <- get ;;
  let originalLogger := console_log w0 in
  returned <-
    try_catch
      (set_console_log Silent ;;;
       process_chdir servicePath ;;;
       service <- require servicePath ;;
       returned <- first_service_export service ;;
       match returned with
       | Some b => ret (Some b)
       | None =>
           w <- get ;;
           process_chdir (ROOT_DIRECTORY w) ;;;
           ret None
       end)
      (fun _ => ret None) ;;
  match returned with
  | Some b => ret b
  | None => set_console_log originalLogger ;;; ret false
  end.

Section Folders.

(** [resolve(path)] and [resolve(path, dir)] of the [path] module. *)
Variable resolve : string -> string.
Variable resolve_in : string -> string -> string.

(** The loop of [getServicesFolders] over the entries of the root. *)
Fixpoint scan (path : string) (dirs : list string) (folders : list string)
  : M World (list string) :=
  match dirs with
  | [] => ret folders
  | dir :: rest =>
      let pathToService := resolve_in path dir in
      containsService <- isFolderContainsService pathToService ;;
      scan path rest
        (if containsService then push folders pathToService else folders)
  end.

(** [getServicesFolders(path)] *)
Definition getServicesFolders (path : string) : M World (list string) :=
  let folders : list string := [] in
  let path := resolve path in
  isService <- isFolderContainsService path ;;
  if isService then ret (push folders path)
  else
    dirs <- readdirSync path ;;
    scan path dirs folders.

End Folders.

End Discovery.

(* ===================================================================== *)
(** ** The command [completions on]: the completion script *)
(* ===================================================================== *)

Module Completions.
Import Js.
Local Open Scope js_scope.

Definition nl : string := String "010" EmptyString.
Definition tab : string := String "009" EmptyString.
Definition quote : string := String "034" EmptyString.

(** The files of the disk by name, the names of the environment variables,
    and what was written to the two output streams ([chalk] only colours
    the texts; the colour codes are left out). *)
Record World : Type := {
  files : string -> option string;
  env_keys : list string;
  stdout : list string;
  stderr : list string
}.

(** [readFileSync(file, { encoding: 'utf8' })] *)
Definition read (file : string) : M World string := fun w =>
  match files w file with
  | Some text => (Ok text, w)
  | None =>
      (Throw (Error ("ENOENT: no such file or directory, open '"
                     ++ file ++ "'")%string), w)
  end.

(** [existsSync(file)] *)
Definition exists_ (file : string) : M World bool := fun w =>
  (Ok (match files w file with Some _ => true | None => false end), w).

(** [appendFileSync(file, text)]: a missing file is created. *)
Definition append (file text : string) : M World unit :=
  modify (fun w =>
    {| files := fun f =>
         if (f =? file)%string
         then Some (match files w file with
                    | Some old => old ++ text
                    | None => text
                    end)%string
         else files w f;
       env_keys := env_keys w; stdout := stdout w; stderr := stderr w |}).

Definition stdout_write (text : string) : M World unit :=
  modify (fun w =>
    {| files := files w; env_keys := env_keys w;
       stdout := stdout w ++ [text]; stderr := stderr w |}).

Definition stderr_write (text : string) : M World unit :=
  modify (fun w =>
    {| files := files w; env_keys := env_keys w;
       stdout := stdout w; stderr := stderr w ++ [text] |}).

Definition message (e : exn) : string :=
  match e with
  | Error m | TypeError m | RangeError m => m
  end.

(** [/^ZSH/.test(key)] *)
Definition starts_with_ZSH (key : string) : bool :=
  match strip_prefix "ZSH" key with Some _ => true | None => false end.

Section Handler.

(** The program name [yargs.argv.$0] the builder stored, [resolve] and
    [touch] of lib, and the regular expressions of the engine:
    [RegExp pattern] is the test of the compiled pattern, or the error
    thrown for a pattern that does not compile. *)
Variable PROGRAM : string.
Variable resolve : string -> string.
Variable touch : string -> string -> M World unit.
Variable RegExp : string -> result (string -> bool).

(** [new RegExp(pattern)] *)
Definition new_RegExp (pattern : string) : M World (string -> bool) :=
  fun w => (RegExp pattern, w).

Definition marker : string := "###-begin-" ++ PROGRAM ++ "-completions-###".

(** The template literal [script]. *)
Definition script (zshScript : string) : string :=
  (nl ++
   marker ++ nl ++
   zshScript ++ nl ++
   "_yargs_completions() {" ++ nl ++
   tab ++ "local cur_word args type_list" ++ nl ++
   tab ++ "cur_word=" ++ quote ++ "${COMP_WORDS[COMP_CWORD]}" ++ quote ++ nl ++
   tab ++ "args=(" ++ quote ++ "${COMP_WORDS[@]}" ++ quote ++ ")" ++ nl ++
   tab ++ "type_list=$(" ++ PROGRAM ++ " --get-yargs-completions "
       ++ quote ++ "${args[@]}" ++ quote ++ ")" ++ nl ++
   tab ++ "COMPREPLY=( $(compgen -W " ++ quote ++ "${type_list}" ++ quote
       ++ " -- ${cur_word}) )" ++ nl ++
   tab ++ "if [ ${#COMPREPLY[@]} -eq 0 ]; then" ++ nl ++
   tab ++ tab ++ "COMPREPLY=( $(compgen -f -- " ++ quote ++ "${cur_word}"
       ++ quote ++ " ) )" ++ nl ++
   tab ++ "fi" ++ nl ++
   tab ++ "return 0" ++ nl ++
   "}" ++ nl ++
   "complete -F _yargs_completions " ++ PROGRAM ++ nl ++
   "###-end-" ++ PROGRAM ++ "-completions-###" ++ nl)%string.

(** [handler()] *)
Definition handler : M World unit :=
  w <- get ;;
  let zshScript :=
    if existsb starts_with_ZSH (env_keys w)
    then ("autoload bashcompinit" ++ nl ++ "bashcompinit")%string
    else EmptyString in
  let script := script zshScript in
  let rcFilename := if truthy zshScript then "~/.zshrc" else "~/.bashrc" in
  let rcFile := resolve rcFilename in
  try_catch
    (rcText <- read rcFile ;;
     rxExist <- new_RegExp marker ;;
     rcExists <- exists_ rcFile ;;
     let modify := if rcExists then append else touch in
     if negb (rxExist rcText) then
       modify rcFile script ;;;
       stdout_write
         ("Completion script added to " ++ rcFilename ++ nl ++
          "To have these changes to take effect, please, run:" ++ nl ++ nl ++
          "  $ " ++ "source " ++ rcFilename ++ nl ++ nl)%string
     else
       stdout_write
         ("Completion script already exists in your " ++ rcFilename ++ "."
          ++ nl ++
          "If it does not work, please try one of:" ++ nl ++ nl ++
          "  1. Reload your shell" ++ nl ++
          "  2. Run source " ++ rcFilename ++ nl ++ nl)%string)
    (fun err => stderr_write (message err)).

End Handler.

End Completions.

(* ===================================================================== *)
(** ** commands/service/create.ts: the service without docker *)
(* ===================================================================== *)

Module Docker.
Import Js Create.
Local Open Scope js_scope.

(** [travisYml.replace(/services:[\s\S]+?$/, '')].  The pattern has no
    flag: [$] is the end of the text, and the lazy [[\s\S]+?] has to take
    at least one character, so the match starts at the first [services:]
    that is followed by some character and reaches the end of the text. *)
Fixpoint strip_services (s : string) : string :=
  match s with
  | EmptyString => EmptyString
  | String c rest =>
      match strip_prefix "services:" s with
      | Some (String _ _) => EmptyString
      | _ => String c (strip_services rest)
      end
  end.

(** [fs.existsSync(p)] *)
Definition existsSync (p : path) : M node bool := fun fs =>
  (Ok (match lookup p fs with Some _ => true | None => false end), fs).

(** [drop_entry x es] removes the entry named [x], the one [assoc]
    finds. *)
Fixpoint drop_entry (x : string) (es : list (string * node))
  : list (string * node) :=
  match es with
  | [] => []
  | (y, n) :: rest =>
      if (y =? x)%string then rest else (y, n) :: drop_entry x rest
  end.

(** [fs.unlinkSync(p)]: removes a regular file from its directory. *)
Definition unlinkSync (p : path) : M node unit := fun fs =>
  match lookup p fs with
  | Some (File _) =>
      (Ok tt, update (removelast p)
                (fun d => match d with
                          | Dir es => Dir (drop_entry (last p EmptyString) es)
                          | File c => File c
                          end) fs)
  | Some (Dir _) =>
      (Throw (Error "EISDIR: illegal operation on a directory, unlink"), fs)
  | None => (Throw (Error "ENOENT: no such file or directory, unlink"), fs)
  end.

(** [stripDockerization(argv)], for the directory [resolve(argv.path)]. *)
Definition stripDockerization (p : path) : M node unit :=
  let travis := resolve p ".travis.yml" in
  let docker := resolve p "Dockerfile" in
  let ignore := resolve p ".dockerignore" in
  travisExists <- existsSync travis ;;
  (if travisExists then
     travisYml <- readFileSync travis ;;
     writeFileSync travis (strip_services travisYml)
   else ret tt) ;;;
  dockerExists <- existsSync docker ;;
  (if dockerExists then unlinkSync docker else ret tt) ;;;
  ignoreExists <- existsSync ignore ;;
  (if ignoreExists then unlinkSync ignore else ret tt).

End Docker.

(* ===================================================================== *)
(** ** commands/service/create.ts: the node versions of the CI builds *)
(* ===================================================================== *)

Module TravisTags.
Import Js.
Local Open Scope js_scope.

(** [\s] on a text of ASCII characters, and the characters a match of
    [/\s+|\s*,\s*/] can start with in such a text. *)
Definition is_separator (c : ascii) : bool :=
  Semver.is_space c || Ascii.eqb c ",".

Fixpoint spaces (s : string) : nat :=
  match s with
  | EmptyString => 0
  | String c rest => if Semver.is_space c then S (spaces rest) else 0
  end.

(** The length of the match of [/\s+|\s*,\s*/] at the start of [s], [0]
    when there is none.  At a white space the first alternative takes the
    run of white space and the match ends there, a comma after the run
    included in no match of that position; at a comma the second
    alternative takes the comma and the white space after it. *)
Definition separator_length (s : string) : nat :=
  match s with
  | EmptyString => 0
  | String c rest => if is_separator c then S (spaces rest) else 0
  end.

(** [s.split(/\s+|\s*,\s*/)] for a text of ASCII characters: [piece] is
    the text gathered since the last match, [skip] the number of
    characters of the current match still to be passed over. *)
Fixpoint split_from (skip : nat) (piece s : string) : list string :=
  match s with
  | EmptyString => [piece]
  | String c rest =>
      match skip with
      | S k => split_from k piece rest
      | O =>
          match separator_length s with
          | O => split_from 0 (piece ++ String c EmptyString) rest
          | S k => piece :: split_from k EmptyString rest
          end
      end
  end.

Definition split (s : string) : list string := split_from 0 EmptyString s.

(** What the command line parser hands over for an option declared
    without a type: a text, a number (an integer here: of a number only
    whether it is zero matters) or a boolean; an array of these when the
    option is given more than once; or nothing. *)
Inductive scalar : Type :=
| Str (s : string)
| Num (z : Z)
| Bool (b : bool).

Inductive argument : Type :=
| Undefined
| Scalar (value : scalar)
| Array (values : list scalar).

(** Truthiness: every array is truthy, the empty one too. *)
Definition truthy_argument (a : argument) : bool :=
  match a with
  | Undefined => false
  | Scalar (Str s) => truthy s
  | Scalar (Num z) => negb (z =? 0)%Z
  | Scalar (Bool b) => b
  | Array _ => true
  end.

(** What the function reads and writes: [argv.n] and [argv.nodeVersions],
    the text the user gives to the prompt, and the number of prompts
    shown. *)
Record World : Type := {
  n : argument;
  nodeVersions : argument;
  answer_tags : string;
  prompts : nat
}.

(** [inquirer.prompt(...)], the field [tags] of the answer. *)
Definition prompt_tags : M World string := fun w =>
  (Ok (answer_tags w),
   {| n := n w; nodeVersions := nodeVersions w;
      answer_tags := answer_tags w; prompts := S (prompts w) |}).

(** [argv.n = argv.nodeVersions = tags] *)
Definition set_tags (tags : list string) : M World unit :=
  modify (fun w =>
    {| n := Array (map Str tags); nodeVersions := Array (map Str tags);
       answer_tags := answer_tags w; prompts := prompts w |}).

(** [value.split(/\s+|\s*,\s*/)]: only a text has a [split]. *)
Definition split_argument (value : argument) : M World (list string) :=
  match value with
  | Scalar (Str s) => ret (split s)
  | _ => throw (TypeError "(argv.n || '').split is not a function")
  end.

(** [ensureTravisTags(argv)] *)
Definition ensureTravisTags : M World (list scalar) :=
  w <- get ;;
  match n w with
  | Array (first :: rest) => ret (first :: rest)
  | given =>
      pieces <- split_argument (if truthy_argument given then given
                                else Scalar (Str EmptyString)) ;;
      let tags := filter truthy pieces in
      tags <-
        (if (length tags =? 0)%nat then
           answer <- prompt_tags ;;
           if negb (truthy answer) then ret (tags ++ ["stable"; "latest"])
           else ret (split answer)
         else ret tags) ;;
      set_tags tags ;;;
      ret (map Str tags)
  end.

End TravisTags.

(* ===================================================================== *)
(** ** commands/service/create.ts: packages and the first commit *)
(* ===================================================================== *)

Module Shell.
Import Js.
Local Open Scope js_scope.

(** The fields of [package.json] that are read: the names listed under
    [dependencies] and [devDependencies], when the field is there. *)
Record Package : Type := {
  dependencies : option (list string);
  devDependencies : option (list string)
}.

(** The process and its surroundings: the working directory, the
    directories that exist, the commands [commandExists] finds, the error
    [execSync] throws for a command line (none when the command
    succeeds), the modules [require] loads, [config.gitBaseUrl] (empty
    when undefined), the command lines run and the lines logged. *)
Record World : Type := {
  cwd : string;
  directories : string -> bool;
  installed : string -> bool;
  failing : string -> option exn;
  packages : string -> option Package;
  gitBaseUrl : string;
  executed : list string;
  logged : list string
}.

(** [process.chdir(directory)] *)
Definition process_chdir (directory : string) : M World unit := fun w =>
  if directories w directory then
    (Ok tt,
     {| cwd := directory; directories := directories w;
        installed := installed w; failing := failing w;
        packages := packages w; gitBaseUrl := gitBaseUrl w;
        executed := executed w; logged := logged w |})
  else (Throw (Error "ENOENT: no such file or directory, chdir"), w).

(** [execSync(command)] *)
Definition execSync (command : string) : M World unit := fun w =>
  let w' :=
    {| cwd := cwd w; directories := directories w;
       installed := installed w; failing := failing w;
       packages := packages w; gitBaseUrl := gitBaseUrl w;
       executed := executed w ++ [command]; logged := logged w |} in
  match failing w command with
  | Some err => (Throw err, w')
  | None => (Ok tt, w')
  end.

Definition console_log (line : string) : M World unit :=
  modify (fun w =>
    {| cwd := cwd w; directories := directories w;
       installed := installed w; failing := failing w;
       packages := packages w; gitBaseUrl := gitBaseUrl w;
       executed := executed w; logged := logged w ++ [line] |}).

(** [require(file)] *)
Definition require (file : string) : M World Package := fun w =>
  match packages w file with
  | Some pkg => (Ok pkg, w)
  | None => (Throw (Error "Cannot find module"), w)
  end.

(** [Object.keys(value)] *)
Definition Object_keys (value : option (list string)) : M World (list string) :=
  match value with
  | Some keys => ret keys
  | None => throw (TypeError "Cannot convert undefined or null to object")
  end.

(** [names.join(' ')] *)
Definition join (names : list string) : string := String.concat " " names.

(** The arguments read here: [argv.path], [argv.name], and [argv.u]
    (empty when undefined). *)
Record Arguments : Type := {
  arg_path : string;
  arg_name : string;
  arg_u : string
}.

Section Lib.

(** [resolve] (with one and with two arguments) and [dashed] of lib. *)
Variable resolve : string -> string.
Variable resolve_in : string -> string -> string.
Variable dashed : string -> string.

(** [ensureName(name)], for a name of ASCII characters, of which [trim]
    takes off the white space that [Semver.trim] takes off. *)
Definition ensureName (name : string) : M World string :=
  if negb (truthy (Semver.trim name)) then
    throw (TypeError "Service name expected, but was not given!")
  else ret (dashed (Semver.trim name)).

(** [installPackages(argv)] *)
Definition installPackages (argv : Arguments) : M World unit :=
  w <- get ;;
  if negb (installed w "npm") then
    throw (Error "npm command is not installed!")
  else
    let cwd := cwd w in
    let path := resolve (arg_path argv) in
    pkg <- require (resolve_in path "package.json") ;;
    deps <- Object_keys (dependencies pkg) ;;
    devDeps <- Object_keys (devDependencies pkg) ;;
    process_chdir path ;;;
    (if negb (length deps =? 0)%nat then
       console_log "Installing dependencies..." ;;;
       execSync ("npm i --save " ++ join deps ++ " 2>&1")%string
     else ret tt) ;;;
    (if negb (length devDeps =? 0)%nat then
       console_log "Installing dev dependencies..." ;;;
       execSync ("npm i --save-dev " ++ join devDeps ++ "  2>&1")%string
     else ret tt) ;;;
    process_chdir cwd.

(** The command line of the first commit. *)
Definition commit_command (url : string) : string :=
  ("git init && git add . && git commit -am "
   ++ Completions.quote ++ "Initial commit" ++ Completions.quote ++ " && "
   ++ Completions.nl
   ++ "git remote add origin " ++ url ++ " && git push origin master")%string.

(** [commit(argv)], for a name and an owner of ASCII characters. *)
Definition commit (argv : Arguments) : M World unit :=
  let path := resolve (arg_path argv) in
  name <- ensureName (arg_name argv) ;;
  let owner := Semver.trim (arg_u argv) in
  w <- get ;;
  let cwd := cwd w in
  let url := gitBaseUrl w in
  url <-
    (if negb (truthy owner) && negb (truthy url) then
       throw (TypeError "GitHub namespace missing!")
     else if truthy owner then
       ret ("git@github.com:" ++ owner ++ "/" ++ name ++ ".git")%string
     else
       ret (url ++ "/" ++ name ++ ".git")%string) ;;
  process_chdir path ;;;
  w <- get ;;
  (if negb (installed w "git") then
     throw (Error "Git command expected, but is not installed!")
   else ret tt) ;;;
  console_log "Committing changes..." ;;;
  execSync (commit_command url) ;;;
  process_chdir cwd.

End Lib.

End Shell.

(* ===================================================================== *)
(** ** Properties of the version precedence *)
(* ===================================================================== *)

Module SemverFacts.
Import Js Semver.

(** A three-way comparison that is a total order: [Eq] on equal values
    only, antisymmetric, transitive. *)
Class TotalCompare {T : Type} (cmp : T -> T -> comparison) : Prop := {
  cmp_eq : forall a b, cmp a b = Eq <-> a = b;
  cmp_antisym : forall a b, cmp b a = CompOpp (cmp a b);
  cmp_trans : forall a b c, cmp a b = Lt -> cmp b c = Lt -> cmp a c = Lt
}.

Lemma cmp_refl {T} (cmp : T -> T -> comparison) `{TotalCompare T cmp} a :
  cmp a a = Eq.
Proof. now apply cmp_eq. Qed.

(** "Not below" is transitive too. *)
Lemma cmp_not_lt_trans {T} (cmp : T -> T -> comparison) `{TotalCompare T cmp}
  a b c :
  cmp a b <> Lt -> cmp b c <> Lt -> cmp a c <> Lt.
Proof.
  intros Hab Hbc Hac.
  destruct (cmp a b) eqn:Eab; [| congruence |].
  - apply cmp_eq in Eab. subst b. congruence.
  - destruct (cmp b c) eqn:Ebc; [| congruence |].
    + apply cmp_eq in Ebc. subst c. congruence.
    + assert (Hba : cmp b a = Lt) by (rewrite cmp_antisym, Eab; reflexivity).
      pose proof (cmp_trans _ _ _ Hba Hac). congruence.
Qed.

(** Comparing first by [c1] and, on [Eq], by [c2]. *)
Section Lexicographic.

Context {A : Type} (cA : A -> A -> comparison) `{TotalCompare A cA}.

Lemma lex_eq a a' (c2 : comparison) :
  match cA a a' with Eq => c2 | c => c end = Eq <-> a = a' /\ c2 = Eq.
Proof.
  destruct (cA a a') eqn:E.
  - apply cmp_eq in E. tauto.
  - split; [discriminate|]. intros [-> _]. rewrite cmp_refl in E; congruence.
  - split; [discriminate|]. intros [-> _]. rewrite cmp_refl in E; congruence.
Qed.

Lemma lex_antisym a a' (c2 c2' : comparison) :
  c2' = CompOpp c2 ->
  match cA a' a with Eq => c2' | c => c end
  = CompOpp (match cA a a' with Eq => c2 | c => c end).
Proof.
  intros ->. rewrite (cmp_antisym a a'). destruct (cA a a'); reflexivity.
Qed.

Lemma lex_trans a b c (ab bc ac : comparison) :
  (ab = Lt -> bc = Lt -> ac = Lt) ->
  match cA a b with Eq => ab | r => r end = Lt ->
  match cA b c with Eq => bc | r => r end = Lt ->
  match cA a c with Eq => ac | r => r end = Lt.
Proof.
  intros Hrest.
  destruct (cA a b) eqn:Eab; try discriminate;
    destruct (cA b c) eqn:Ebc; try discriminate; intros Hab Hbc.
  - apply cmp_eq in Eab, Ebc. subst. rewrite cmp_refl; [auto|assumption].
  - apply cmp_eq in Eab. subst. now rewrite Ebc.
  - apply cmp_eq in Ebc. subst. now rewrite Eab.
  - now rewrite (cmp_trans _ _ _ Eab Ebc).
Qed.

End Lexicographic.

#[export] Instance N_total : TotalCompare N.compare.
Proof.
  split.
  - apply N.compare_eq_iff.
  - intros a b. apply N.compare_antisym.
  - intros a b c. rewrite !N.compare_lt_iff. lia.
Qed.

#[export] Instance ascii_total : TotalCompare Ascii.compare.
Proof.
  split.
  - intros a b. split; [apply Ascii.compare_eq_iff|].
    intros ->. apply N.compare_refl.
  - intros a b. apply Ascii.compare_antisym.
  - intros a b c. unfold Ascii.compare. apply cmp_trans.
Qed.

#[export] Instance string_total : TotalCompare String.compare.
Proof.
  split.
  - intros a b. split; [apply String.compare_eq_iff|].
    intros ->. induction b as [|c b IH]; cbn; [reflexivity|].
    now rewrite (cmp_refl Ascii.compare).
  - intros a b. apply String.compare_antisym.
  - intros a. induction a as [|x a IH]; intros [|y b] [|z c]; cbn;
      try discriminate; try reflexivity.
    apply (lex_trans Ascii.compare). apply IH.
Qed.

#[export] Instance identifier_total : TotalCompare compareIdentifiers.
Proof.
  split.
  - intros [x|x] [y|y]; cbn; try (split; discriminate).
    + rewrite (cmp_eq (cmp := N.compare)). split; congruence.
    + rewrite (cmp_eq (cmp := String.compare)). split; congruence.
  - intros [x|x] [y|y]; cbn; try reflexivity; apply cmp_antisym.
  - intros [x|x] [y|y] [z|z]; cbn; try discriminate; try reflexivity;
      apply cmp_trans.
Qed.

#[export] Instance list_total : TotalCompare compareList.
Proof.
  split.
  - intros a. induction a as [|x a IH]; intros [|y b]; cbn;
      try (split; [discriminate|discriminate]); [tauto|].
    rewrite (lex_eq compareIdentifiers), IH. split.
    + intros [-> ->]. reflexivity.
    + intros [= -> ->]. tauto.
  - intros a. induction a as [|x a IH]; intros [|y b]; cbn; try reflexivity.
    apply (lex_antisym compareIdentifiers), IH.
  - intros a. induction a as [|x a IH]; intros [|y b] [|z c]; cbn;
      try discriminate; try reflexivity.
    apply (lex_trans compareIdentifiers), IH.
Qed.

(** [comparePre] on the identifier lists. *)
Definition comparePreList (pa pb : list Identifier) : comparison :=
  match pa, pb with
  | _ :: _, [] => Lt
  | [], _ :: _ => Gt
  | [], [] => Eq
  | pa, pb => compareList pa pb
  end.

#[export] Instance prerelease_total : TotalCompare comparePreList.
Proof.
  split.
  - intros [|x a] [|y b]; cbn [comparePreList];
      try (split; discriminate); [tauto|].
    apply (cmp_eq (cmp := compareList)).
  - intros [|x a] [|y b]; cbn [comparePreList]; try reflexivity.
    apply (cmp_antisym (cmp := compareList)).
  - intros [|x a] [|y b] [|z c]; cbn [comparePreList];
      try discriminate; try reflexivity.
    apply (cmp_trans (cmp := compareList)).
Qed.

Lemma compare_unfold a b :
  compare a b
  = match N.compare (major a) (major b) with
    | Eq =>
        match N.compare (minor a) (minor b) with
        | Eq =>
            match N.compare (patch a) (patch b) with
            | Eq => comparePreList (prerelease a) (prerelease b)
            | c => c
            end
        | c => c
        end
    | c => c
    end.
Proof.
  unfold compare, compareMain, comparePre, comparePreList.
  destruct (N.compare (major a) (major b)); try reflexivity.
  destruct (N.compare (minor a) (minor b)); try reflexivity.
  destruct (N.compare (patch a) (patch b)); try reflexivity.
  destruct (prerelease a), (prerelease b); reflexivity.
Qed.

(** The precedence of versions is a total order. *)
#[export] Instance semver_total : TotalCompare compare.
Proof.
  split.
  - intros [a1 a2 a3 pa] [b1 b2 b3 pb]. rewrite compare_unfold. cbn.
    rewrite !(lex_eq N.compare), (cmp_eq (cmp := comparePreList)).
    split.
    + intros (-> & -> & -> & ->). reflexivity.
    + intros [= -> -> -> ->]. tauto.
  - intros a b. rewrite !compare_unfold.
    repeat apply (lex_antisym N.compare). apply cmp_antisym.
  - intros a b c. rewrite !compare_unfold.
    repeat apply (lex_trans N.compare). apply cmp_trans.
Qed.

End SemverFacts.

(* ===================================================================== *)
(** ** Properties of lib/node.ts *)
(* ===================================================================== *)

Module NodeFacts.
Import Js Node.

Lemma indexOf_in xs x : In x xs -> (0 <= indexOf xs x)%Z.
Proof.
  induction xs as [|y r IH]; simpl; [tauto|].
  intros [->|H].
  - rewrite String.eqb_refl. lia.
  - destruct (String.eqb y x); [lia|].
    specialize (IH H).
    destruct (indexOf r x <? 0)%Z eqn:E; lia.
Qed.

Lemma indexOf_cons_neq y r x :
  y <> x -> In x r -> indexOf (y :: r) x = (indexOf r x + 1)%Z.
Proof.
  intros Hn Hin. simpl.
  destruct (String.eqb_spec y x); [contradiction|].
  pose proof (indexOf_in _ _ Hin).
  destruct (indexOf r x <? 0)%Z eqn:E; lia.
Qed.

(** Index of [x] in [pre ++ x :: r]: the length of [pre] exactly when [x]
    does not occur in [pre]. *)
Lemma indexOf_app_here pre x r :
  (indexOf (pre ++ x :: r) x =? Z.of_nat (length pre))%Z = negb (existsb (String.eqb x) pre).
Proof.
  induction pre as [|y pre IH].
  - simpl. rewrite String.eqb_refl. reflexivity.
  - cbn [app indexOf existsb length].
    rewrite (String.eqb_sym x y).
    destruct (String.eqb y x) eqn:E.
    + simpl. destruct (Z.of_nat (S (length pre))) eqn:F; try reflexivity; lia.
    + cbn [orb].
      assert (Hin : In x (pre ++ x :: r)) by (apply in_or_app; right; left; reflexivity).
      pose proof (indexOf_in _ _ Hin) as Hge.
      destruct (indexOf (pre ++ x :: r) x <? 0)%Z eqn:G; [lia|].
      rewrite <- IH.
      rewrite Nat2Z.inj_succ.
      destruct (Z.eqb_spec (indexOf (pre ++ x :: r) x) (Z.of_nat (length pre)));
        destruct (Z.eqb_spec (indexOf (pre ++ x :: r) x + 1) (Z.succ (Z.of_nat (length pre))));
        try reflexivity; lia.
Qed.

(** The elements the filter keeps, told by what was seen so far. *)
Fixpoint keep_unseen (seen xs : list string) : list string :=
  match xs with
  | [] => []
  | x :: r =>
      if existsb (String.eqb x) seen then keep_unseen (seen ++ [x]) r
      else x :: keep_unseen (seen ++ [x]) r
  end.

Lemma filter_from_keep pre xs :
  filter_from (fun tag i => indexOf (pre ++ xs) tag =? i)%Z
              (Z.of_nat (length pre)) xs
  = keep_unseen pre xs.
Proof.
  revert pre. induction xs as [|x r IH]; intros pre; [reflexivity|].
  cbn [filter_from keep_unseen].
  rewrite indexOf_app_here.
  specialize (IH (pre ++ [x])).
  rewrite <- app_assoc in IH. cbn [app] in IH.
  rewrite length_app in IH. cbn [length] in IH.
  replace (Z.of_nat (length pre + 1)) with (Z.of_nat (length pre) + 1)%Z in IH by lia.
  rewrite IH.
  destruct (existsb (String.eqb x) pre); reflexivity.
Qed.

Lemma filter_indexed_keep xs :
  filter_indexed (fun tag i => indexOf xs tag =? i)%Z xs = keep_unseen [] xs.
Proof. exact (filter_from_keep [] xs). Qed.

Lemma existsb_eqb_In x l : existsb (String.eqb x) l = true <-> In x l.
Proof.
  rewrite existsb_exists. split.
  - intros [y [Hy E]]. apply String.eqb_eq in E. subst. exact Hy.
  - intros H. exists x. split; [exact H|apply String.eqb_refl].
Qed.

Lemma keep_unseen_In seen xs x :
  In x (keep_unseen seen xs) <-> In x xs /\ ~ In x seen.
Proof.
  revert seen. induction xs as [|y r IH]; intros seen; simpl; [tauto|].
  destruct (existsb (String.eqb y) seen) eqn:E.
  - apply existsb_eqb_In in E.
    rewrite IH, in_app_iff. simpl.
    split.
    + intros [H1 H2]. split; [right; exact H1|]. tauto.
    + intros [[->|H1] H2]; [contradiction|].
      split; [exact H1|]. intros [H|[->|[]]]; tauto.
  - assert (Hn : ~ In y seen).
    { intros H. apply existsb_eqb_In in H. congruence. }
    simpl. rewrite IH, in_app_iff. simpl.
    split.
    + intros [->|[H1 H2]]; [tauto|]. split; [right; exact H1|tauto].
    + intros [[->|H1] H2]; [left; reflexivity|].
      destruct (String.eqb_spec y x) as [->|Hne]; [left; reflexivity|].
      right. split; [exact H1|]. intros [H|[H|[]]]; tauto.
Qed.

Lemma keep_unseen_NoDup seen xs : NoDup (keep_unseen seen xs).
Proof.
  revert seen. induction xs as [|y r IH]; intros seen; simpl; [constructor|].
  destruct (existsb (String.eqb y) seen); [apply IH|].
  constructor; [|apply IH].
  rewrite keep_unseen_In, in_app_iff. simpl. tauto.
Qed.

Lemma keep_unseen_order seen xs x y :
  In x (keep_unseen seen xs) -> In y (keep_unseen seen xs) ->
  (indexOf (keep_unseen seen xs) x < indexOf (keep_unseen seen xs) y
   <-> indexOf xs x < indexOf xs y)%Z.
Proof.
  revert seen. induction xs as [|a r IH]; intros seen; [simpl; tauto|].
  cbn [keep_unseen].
  destruct (existsb (String.eqb a) seen) eqn:E.
  - intros Hx Hy.
    pose proof (proj1 (keep_unseen_In _ _ _) Hx) as [Hxr Hxs].
    pose proof (proj1 (keep_unseen_In _ _ _) Hy) as [Hyr Hys].
    rewrite in_app_iff in Hxs, Hys. simpl in Hxs, Hys.
    rewrite (indexOf_cons_neq a r x), (indexOf_cons_neq a r y) by tauto.
    rewrite (IH _ Hx Hy). lia.
  - intros Hx Hy.
    destruct (String.eqb_spec a x) as [Hax|Hax];
      destruct (String.eqb_spec a y) as [Hay|Hay]; subst.
    + simpl. rewrite !String.eqb_refl. lia.
    + destruct Hy as [Hy|Hy]; [contradiction|].
      pose proof (proj1 (keep_unseen_In _ _ _) Hy) as [Hyr _].
      rewrite (indexOf_cons_neq x _ y) by tauto.
      rewrite (indexOf_cons_neq x r y) by tauto.
      pose proof (indexOf_in _ _ Hy). pose proof (indexOf_in _ _ Hyr).
      simpl. rewrite !String.eqb_refl. lia.
    + destruct Hx as [Hx|Hx]; [contradiction|].
      pose proof (proj1 (keep_unseen_In _ _ _) Hx) as [Hxr _].
      rewrite (indexOf_cons_neq y _ x) by tauto.
      rewrite (indexOf_cons_neq y r x) by tauto.
      pose proof (indexOf_in _ _ Hx). pose proof (indexOf_in _ _ Hxr).
      simpl. rewrite !String.eqb_refl. lia.
    + destruct Hx as [Hx|Hx]; [contradiction|].
      destruct Hy as [Hy|Hy]; [contradiction|].
      pose proof (proj1 (keep_unseen_In _ _ _) Hx) as [Hxr _].
      pose proof (proj1 (keep_unseen_In _ _ _) Hy) as [Hyr _].
      rewrite (indexOf_cons_neq a _ x), (indexOf_cons_neq a _ y) by tauto.
      rewrite (indexOf_cons_neq a r x), (indexOf_cons_neq a r y) by tauto.
      pose proof (IH _ Hx Hy). lia.
Qed.

(** The Travis tags one node tag stands for: what the [switch] pushes for
    it. *)
Definition travis_tags_of (tag : string) : list string :=
  if (tag =? "stable")%string || (tag =? "lts")%string then ["lts/*"; "node"]
  else if (tag =? "latest")%string then ["node"]
  else [tag].

Lemma switch_tag_pushes travisTags tag :
  switch_tag travisTags tag = travisTags ++ travis_tags_of tag.
Proof.
  unfold switch_tag, travis_tags_of, push.
  destruct ((tag =? "stable")%string || (tag =? "lts")%string).
  - now rewrite <- app_assoc.
  - destruct (tag =? "latest")%string; reflexivity.
Qed.

Lemma fold_switch_tag tags : forall travisTags,
  fold_left switch_tag tags travisTags
  = travisTags ++ flat_map travis_tags_of tags.
Proof.
  induction tags as [|tag tags IH]; intros travisTags; cbn.
  - now rewrite app_nil_r.
  - now rewrite IH, switch_tag_pushes, <- app_assoc.
Qed.

(** The loop pushes, for the tags of the input in their order, the Travis
    tags each of them stands for. *)
Lemma pushed_tags_of_input tags :
  pushed_tags tags = flat_map travis_tags_of tags.
Proof. unfold pushed_tags. now rewrite fold_switch_tag. Qed.

(** C4. [toTravisTags(["stable","latest"])] is [["lts/*","node"]]; for every
    input list the output has no duplicates, holds exactly the Travis tags
    that the tags of the input stand for, and lists them in the order in
    which they are first seen when the input is read from left to right. *)
Theorem toTravisTags_first_seen :
  toTravisTags (TagsArray ["stable"; "latest"]) = ["lts/*"; "node"]
  /\ forall tags : list string,
       let out := toTravisTags (TagsArray tags) in
       let seen := flat_map travis_tags_of tags in
       NoDup out
       /\ (forall x, In x out
                     <-> exists tag, In tag tags /\ In x (travis_tags_of tag))
       /\ (forall x y, In x out -> In y out ->
             (indexOf out x < indexOf out y
              <-> indexOf seen x < indexOf seen y)%Z).
Proof.
  split; [reflexivity|].
  intros tags out seen. subst out seen. cbn [toTravisTags].
  rewrite filter_indexed_keep, pushed_tags_of_input.
  split; [apply keep_unseen_NoDup|].
  split.
  - intros x. rewrite keep_unseen_In, in_flat_map. simpl. tauto.
  - intros x y. apply keep_unseen_order.
Qed.

(** C10. A lone ["stable"] (or ["lts"]) yields both Travis tags: the case
    pushes ["lts/*"] and falls through into the push of ["node"]. *)
Theorem toTravisTags_stable_falls_through :
  toTravisTags (TagsArray ["stable"]) = ["lts/*"; "node"]
  /\ toTravisTags (TagsArray ["lts"]) = ["lts/*"; "node"]
  /\ switch_tag [] "stable" = ["lts/*"; "node"]
  /\ switch_tag [] "lts" = ["lts/*"; "node"].
Proof. repeat split; reflexivity. Qed.

(** *** [semverCompare] *)

Import Semver SemverFacts.

(** The number [semverCompare] returns for a precedence. *)
Definition sign (c : comparison) : Z :=
  match c with
  | Gt => -1
  | Eq => 0
  | Lt => 1
  end%Z.

Lemma semverCompare_parsed a b x y :
  parse a = Some x -> parse b = Some y ->
  semverCompare a b = Ok (sign (compare x y)).
Proof.
  intros Ha Hb. unfold semverCompare, gt, lt. rewrite Ha, Hb.
  destruct (compare x y); reflexivity.
Qed.

Lemma semverCompare_Ok a b r :
  semverCompare a b = Ok r ->
  exists x y, parse a = Some x /\ parse b = Some y /\ r = sign (compare x y).
Proof.
  intros H. unfold semverCompare, gt, lt in H.
  destruct (parse a) as [x|] eqn:Ha; [|discriminate].
  destruct (parse b) as [y|] eqn:Hb; [|discriminate].
  exists x, y. split; [reflexivity|]. split; [reflexivity|].
  destruct (compare x y); cbn in H; injection H as <-; reflexivity.
Qed.

Lemma sign_opp c : sign (CompOpp c) = (- sign c)%Z.
Proof. destruct c; reflexivity. Qed.

Lemma sign_inj c c' : sign c = sign c' -> c = c'.
Proof. destruct c, c'; cbn; congruence. Qed.

(** C8. [semverCompare("2.0.0","1.9.9")] is [-1] and
    [semverCompare("1.0.0","1.0.0")] is [0]; on valid versions
    [semverCompare] returns [-1], [0] or [1], [-1] exactly when the first
    version has the higher precedence, [1] exactly when it has the lower
    one, [0] exactly when both are the same version (build metadata
    apart); swapping the arguments negates the result; and the order is
    transitive. *)
Theorem semverCompare_total_order :
  semverCompare "2.0.0" "1.9.9" = Ok (-1)%Z
  /\ semverCompare "1.0.0" "1.0.0" = Ok 0%Z
  /\ forall a b c x y z,
       parse a = Some x -> parse b = Some y -> parse c = Some z ->
       (exists r, semverCompare a b = Ok r
                  /\ (r = -1 \/ r = 0 \/ r = 1)%Z
                  /\ semverCompare b a = Ok (- r)%Z)
       /\ (semverCompare a b = Ok (-1)%Z <-> compare x y = Gt)
       /\ (semverCompare a b = Ok 1%Z <-> compare x y = Lt)
       /\ (semverCompare a b = Ok 0%Z <-> x = y)
       /\ (semverCompare a b = Ok (-1)%Z -> semverCompare b c = Ok (-1)%Z ->
           semverCompare a c = Ok (-1)%Z)
       /\ (semverCompare a b = Ok 1%Z -> semverCompare b c = Ok 1%Z ->
           semverCompare a c = Ok 1%Z).
Proof.
  split; [vm_compute; reflexivity|]. split; [vm_compute; reflexivity|].
  intros a b c x y z Ha Hb Hc.
  rewrite (semverCompare_parsed a b x y Ha Hb),
          (semverCompare_parsed b a y x Hb Ha),
          (semverCompare_parsed b c y z Hb Hc),
          (semverCompare_parsed a c x z Ha Hc).
  repeat split.
  - exists (sign (compare x y)). split; [reflexivity|]. split.
    + destruct (compare x y); cbn; tauto.
    + now rewrite (cmp_antisym x y), sign_opp.
  - intros [= H]. now apply (sign_inj _ Gt).
  - intros ->. reflexivity.
  - intros [= H]. now apply (sign_inj _ Lt).
  - intros ->. reflexivity.
  - intros [= H]. apply (sign_inj _ Eq) in H. now apply cmp_eq in H.
  - intros ->. now rewrite (cmp_refl compare).
  - intros [= Hxy] [= Hyz].
    apply (sign_inj _ Gt) in Hxy. apply (sign_inj _ Gt) in Hyz.
    assert (Hyx : compare y x = Lt) by (rewrite cmp_antisym, Hxy; reflexivity).
    assert (Hzy : compare z y = Lt) by (rewrite cmp_antisym, Hyz; reflexivity).
    pose proof (cmp_trans _ _ _ Hzy Hyx) as Hzx.
    rewrite (cmp_antisym z x), Hzx. reflexivity.
  - intros [= Hxy] [= Hyz].
    apply (sign_inj _ Lt) in Hxy. apply (sign_inj _ Lt) in Hyz.
    now rewrite (cmp_trans _ _ _ Hxy Hyz).
Qed.

Lemma semverCompare_total_order_witness :
  parse "2.0.0"
  = Some {| major := 2; minor := 0; patch := 0; prerelease := [] |}
  /\ parse "1.9.9"
     = Some {| major := 1; minor := 9; patch := 9; prerelease := [] |}
  /\ parse "1.0.0-rc.1+build.7"
     = Some {| major := 1; minor := 0; patch := 0;
               prerelease := [Alphanumeric "rc"; Numeric 1] |}
  /\ (semverCompare "2.0.0" "1.9.9" = Ok (-1)%Z ->
      semverCompare "1.9.9" "1.0.0-rc.1+build.7" = Ok (-1)%Z ->
      semverCompare "2.0.0" "1.0.0-rc.1+build.7" = Ok (-1)%Z).
Proof.
  split; [reflexivity|]. split; [reflexivity|]. split; [reflexivity|].
  exact (proj1 (proj2 (proj2 (proj2 (proj2
          (proj2 (proj2 semverCompare_total_order)
             "2.0.0" "1.9.9" "1.0.0-rc.1+build.7" _ _ _
             eq_refl eq_refl eq_refl)))))).
Defined.

(** *** The catalog *)

(** [a] is listed before [b] rightly: the comparison of their versions
    returns [-1] or [0]. *)
Definition not_below (a b : NodeVersion) : bool :=
  match compare_entries a b with
  | Ok r => (r <=? 0)%Z
  | Throw _ => false
  end.

(** Each entry is not below the next one. *)
Fixpoint descending (catalog : list NodeVersion) : bool :=
  match catalog with
  | [] => true
  | a :: rest =>
      match rest with
      | [] => true
      | b :: _ => not_below a b
      end && descending rest
  end.

Lemma not_below_spec a b :
  not_below a b = true <->
  exists x y, parse (clean (version a)) = Some x
              /\ parse (clean (version b)) = Some y
              /\ compare x y <> Lt.
Proof.
  unfold not_below, compare_entries. split.
  - destruct (semverCompare _ _) as [r|e] eqn:E; [|discriminate].
    intros Hr. apply semverCompare_Ok in E as (x & y & Hx & Hy & ->).
    exists x, y. split; [exact Hx|]. split; [exact Hy|].
    intros Hlt. rewrite Hlt in Hr. discriminate.
  - intros (x & y & Hx & Hy & Hn).
    rewrite (semverCompare_parsed _ _ x y Hx Hy).
    destruct (compare x y); [reflexivity|congruence|reflexivity].
Qed.

Lemma not_below_trans a b c :
  not_below a b = true -> not_below b c = true -> not_below a c = true.
Proof.
  rewrite !not_below_spec.
  intros (x & y & Hx & Hy & Hxy) (y' & z & Hy' & Hz & Hyz).
  rewrite Hy in Hy'. injection Hy' as <-.
  exists x, z. split; [exact Hx|]. split; [exact Hz|].
  exact (cmp_not_lt_trans compare x y z Hxy Hyz).
Qed.

(** In a descending catalog an entry is not below any entry after it. *)
Lemma descending_head first rest :
  descending (first :: rest) = true ->
  forall e, In e rest -> not_below first e = true.
Proof.
  revert first. induction rest as [|b rest IH]; intros first H e He.
  - destruct He.
  - cbn [descending] in H. apply andb_true_iff in H as [Hab Hrest].
    destruct He as [<-|He]; [exact Hab|].
    apply (not_below_trans first b e Hab).
    apply (IH b Hrest e He).
Qed.

Lemma descending_app_r before after :
  descending (before ++ after) = true -> descending after = true.
Proof.
  induction before as [|a before IH]; [tauto|].
  cbn [app descending]. intros H. apply andb_true_iff in H as [_ H].
  apply IH, H.
Qed.

Lemma find_first {A} (f : A -> bool) before e after :
  forallb (fun x => negb (f x)) before = true -> f e = true ->
  find f (before ++ e :: after) = Some e.
Proof.
  intros Hb He. induction before as [|x before IH]; cbn.
  - now rewrite He.
  - cbn in Hb. apply andb_true_iff in Hb as [Hx Hb].
    apply negb_true_iff in Hx. rewrite Hx. apply IH, Hb.
Qed.

(** The entry the next one is checked against. *)
Definition heads_below (y : NodeVersion) (l : list NodeVersion) : bool :=
  match l with
  | [] => true
  | b :: _ => not_below y b
  end.

Lemma compare_entries_above x a c :
  compare_entries x a = Ok c -> (c <=? 0)%Z = false -> not_below a x = true.
Proof.
  intros Hc Hpos. unfold compare_entries in Hc.
  apply semverCompare_Ok in Hc as (vx & va & Hx & Ha & ->).
  apply not_below_spec. exists va, vx.
  split; [exact Ha|]. split; [exact Hx|].
  rewrite (cmp_antisym vx va).
  destruct (compare vx va); cbn in *; congruence.
Qed.

Lemma insert_sorted_descending : forall l x l',
  descending l = true ->
  insert_sorted compare_entries x l = Ok l' ->
  descending l' = true
  /\ Permutation (x :: l) l'
  /\ forall y, not_below y x = true -> heads_below y l = true ->
               heads_below y l' = true.
Proof.
  induction l as [|a rest IH]; intros x l' Hd Hins.
  - cbn in Hins. injection Hins as <-. repeat split; auto.
  - cbn [insert_sorted] in Hins.
    destruct (compare_entries x a) as [c|e] eqn:Hc; [|discriminate].
    destruct (c <=? 0)%Z eqn:Hle.
    + injection Hins as <-. repeat split; auto.
      change (descending (x :: a :: rest))
        with (not_below x a && descending (a :: rest)).
      unfold not_below at 1. rewrite Hc, Hle, Hd. reflexivity.
    + destruct (insert_sorted compare_entries x rest) as [rest'|e] eqn:Hr;
        [|discriminate].
      injection Hins as <-.
      cbn [descending] in Hd. apply andb_true_iff in Hd as [Hhead Hrest].
      destruct (IH x rest' Hrest Hr) as (Hd' & Hp & Hh).
      repeat split.
      * change (descending (a :: rest'))
          with (heads_below a rest' && descending rest').
        rewrite Hd', andb_true_r.
        apply Hh; [exact (compare_entries_above x a c Hc Hle)|exact Hhead].
      * apply perm_trans with (a :: x :: rest); [apply perm_swap|].
        apply perm_skip, Hp.
      * intros y _ Hy. exact Hy.
Qed.

(** Sorting with [compare_entries] gives a descending permutation. *)
Lemma sort_descending : forall l l',
  sort compare_entries l = Ok l' ->
  descending l' = true /\ Permutation l l'.
Proof.
  induction l as [|x rest IH]; intros l' H.
  - cbn in H. injection H as <-. split; [reflexivity|constructor].
  - cbn [sort] in H.
    destruct (sort compare_entries rest) as [sorted|e] eqn:Hs; [|discriminate].
    destruct (IH sorted eq_refl) as [Hd Hp].
    destruct (insert_sorted_descending sorted x l' Hd H) as (Hd' & Hp' & _).
    split; [exact Hd'|].
    apply perm_trans with (x :: sorted); [apply perm_skip, Hp|exact Hp'].
Qed.

(** A catalog just fetched is a descending permutation of the index, and
    is kept in [nodeVersions]. *)
Lemma getNodeVersions_fetch_descending w catalog w' :
  nodeVersions w = None ->
  getNodeVersions false w = (Ok catalog, w') ->
  descending catalog = true
  /\ nodeVersions w' = Some catalog
  /\ exists body,
       index_json w = Answered body
       /\ Permutation (match body with Some es => es | None => [] end) catalog.
Proof.
  intros Hnone H. unfold getNodeVersions in H. rewrite Hnone in H. cbn in H.
  destruct (index_json w) as [err|body]; [discriminate|].
  destruct (sort compare_entries _) as [sorted|e] eqn:Hs; [|discriminate].
  injection H as <- <-.
  destruct (sort_descending _ _ Hs) as [Hd Hp].
  split; [exact Hd|]. split; [reflexivity|].
  exists body. split; [reflexivity|exact Hp].
Qed.

(** A catalog found in [nodeVersions] is returned as it is. *)
Lemma getNodeVersions_cached w cached :
  nodeVersions w = Some cached ->
  getNodeVersions false w = (Ok cached, w).
Proof. intros H. unfold getNodeVersions. rewrite H. reflexivity. Qed.

(** C7. Let [getNodeVersions] give a catalog in descending order of
    version.  Then [nodeVersion("latest")] returns the version of the first
    entry, without its leading [v], and that entry is not below any other
    one; and [nodeVersion("lts")] returns the version, without its leading
    [v], of the first entry whose [lts] field is truthy, an entry that is
    not below any entry listed after it. *)
Theorem nodeVersion_latest_and_lts :
  forall (w w' : World) (catalog : list NodeVersion),
  getNodeVersions false w = (Ok catalog, w') ->
  descending catalog = true ->
  (forall first rest,
     catalog = first :: rest ->
     nodeVersion "latest" w = (Ok (clean (version first)), w')
     /\ forall e, In e rest -> not_below first e = true)
  /\ (forall before e after,
        catalog = before ++ e :: after ->
        forallb (fun x => negb (lts_truthy (lts x))) before = true ->
        lts_truthy (lts e) = true ->
        nodeVersion "lts" w = (Ok (clean (version e)), w')
        /\ forall x, In x after -> not_below e x = true).
Proof.
  intros w w' catalog Hget Hdesc. split.
  - intros first rest ->. split.
    + unfold nodeVersion, bind. rewrite Hget. reflexivity.
    + apply descending_head, Hdesc.
  - intros before e after -> Hbefore He. split.
    + unfold nodeVersion, bind. rewrite Hget. cbn [String.eqb Ascii.eqb orb].
      cbn. unfold ret. rewrite (find_first _ before e after Hbefore He).
      reflexivity.
    + apply descending_head. apply (descending_app_r before), Hdesc.
Qed.

(** A fresh process and an index answered out of order. *)
Definition unsorted_index : World :=
  {| nodeVersions := None;
     index_json := Answered (Some
       [ {| version := "v18.0.0"; date := "2022-04-18"; lts := LtsFlag false |};
         {| version := "v20.1.0"; date := "2023-05-03"; lts := LtsFlag false |};
         {| version := "v16.20.0"; date := "2023-03-28"; lts := LtsName "Gallium" |};
         {| version := "v18.16.0"; date := "2023-04-12"; lts := LtsName "Hydrogen" |} ]);
     requests := 0 |}.

Definition sorted_catalog : list NodeVersion :=
  [ {| version := "v20.1.0"; date := "2023-05-03"; lts := LtsFlag false |};
    {| version := "v18.16.0"; date := "2023-04-12"; lts := LtsName "Hydrogen" |};
    {| version := "v18.0.0"; date := "2022-04-18"; lts := LtsFlag false |};
    {| version := "v16.20.0"; date := "2023-03-28"; lts := LtsName "Gallium" |} ].

Lemma nodeVersion_latest_and_lts_witness :
  fst (getNodeVersions false unsorted_index) = Ok sorted_catalog
  /\ descending sorted_catalog = true
  /\ fst (nodeVersion "latest" unsorted_index) = Ok "20.1.0"
  /\ fst (nodeVersion "lts" unsorted_index) = Ok "18.16.0".
Proof.
  split; [vm_compute; reflexivity|]. split; [vm_compute; reflexivity|].
  pose proof (nodeVersion_latest_and_lts unsorted_index
                (snd (getNodeVersions false unsorted_index)) sorted_catalog
                ltac:(vm_compute; reflexivity) ltac:(vm_compute; reflexivity))
    as [Hlatest Hlts].
  split.
  - rewrite (proj1 (Hlatest _ _ eq_refl)). reflexivity.
  - rewrite (proj1 (Hlts [ {| version := "v20.1.0"; date := "2023-05-03";
                              lts := LtsFlag false |} ] _ _
                         eq_refl eq_refl eq_refl)).
    reflexivity.
Defined.

End NodeFacts.

(* ===================================================================== *)
(** ** Properties of lib/travis.ts *)
(* ===================================================================== *)

Module TravisFacts.
Import Js Travis.
Local Open Scope js_scope.

(** What the remote side answers is not changed by the calls. *)
Definition same_remote (w w' : World) : Prop :=
  authenticate_ok w' = authenticate_ok w
  /\ sync_post_ok w' = sync_post_ok w
  /\ hooks_answer w' = hooks_answer w
  /\ hook_put_ok w' = hook_put_ok w.

(** One unfolding of the body of [trySyncBuilds]. *)
Lemma trySyncBuilds_unfold retry maxRetries delay w :
  trySyncBuilds retry maxRetries delay w =
  if sync_post_ok w (syncs w) then (Ok true, record_sleep delay (record_sync w))
  else if (retry <? maxRetries)%Z then
    trySyncBuilds (retry + 1) maxRetries 2000 (record_sleep delay (record_sync w))
  else (Ok false, record_sync w).
Proof.
  rewrite trySyncBuilds_equation_1.
  unfold bind, users_sync_post, sleep.
  destruct (sync_post_ok w (syncs w)) eqn:E; cbn.
  - reflexivity.
  - destruct (Z_lt_dec retry maxRetries) as [Hlt|Hge]; cbn.
    + apply Z.ltb_lt in Hlt. rewrite Hlt. reflexivity.
    + apply Z.ltb_nlt in Hge. rewrite Hge. reflexivity.
Qed.

Ltac solve_attempt E :=
  first [ lia | reflexivity | exact E | intros; lia | intros; discriminate ].

(** The complete behaviour of [trySyncBuilds], by induction on the number
    of retries left. *)
Lemma trySyncBuilds_behaviour (n : nat) : forall retry maxRetries delay w,
  n = Z.to_nat (maxRetries - retry) ->
  exists (b : bool) (w' : World) (attempts : nat),
    trySyncBuilds retry maxRetries delay w = (Ok b, w')
    /\ syncs w' = syncs w + attempts
    /\ 1 <= attempts <= 1 + n
    /\ (forall k, k + 1 < attempts -> sync_post_ok w (syncs w + k) = false)
    /\ sync_post_ok w (syncs w + (attempts - 1)) = b
    /\ (b = false -> attempts = 1 + n)
    /\ slept w' = slept w ++ firstn (if b then attempts else attempts - 1)
                                    (delay :: repeat 2000%Z (attempts - 1))
    /\ same_remote w w'
    /\ authenticated w' = authenticated w
    /\ puts w' = puts w.
Proof.
  induction n as [|n IH]; intros retry maxRetries delay w Hn;
    rewrite trySyncBuilds_unfold;
    destruct (sync_post_ok w (syncs w)) eqn:E.
  - exists true, (record_sleep delay (record_sync w)), 1.
    cbn. rewrite Nat.add_0_r. unfold same_remote. cbn.
    repeat split; solve_attempt E.
  - assert (Hlt : (retry <? maxRetries)%Z = false) by (apply Z.ltb_nlt; lia).
    rewrite Hlt.
    exists false, (record_sync w), 1.
    cbn. rewrite Nat.add_0_r, app_nil_r. unfold same_remote. cbn.
    repeat split; solve_attempt E.
  - exists true, (record_sleep delay (record_sync w)), 1.
    cbn. rewrite Nat.add_0_r. unfold same_remote. cbn.
    repeat split; solve_attempt E.
  - assert (Hlt : (retry <? maxRetries)%Z = true) by (apply Z.ltb_lt; lia).
    rewrite Hlt.
    destruct (IH (retry + 1)%Z maxRetries 2000%Z (record_sleep delay (record_sync w)))
      as (b & w' & a & Heq & Hs & Ha & Hf & Hb & Hx & Hsl & Hr & Hau & Hp); [lia|].
    cbn in Hs, Hf, Hb, Hsl, Hau, Hp.
    exists b, w', (S a).
    split; [exact Heq|].
    split; [lia|].
    split; [lia|].
    split.
    { intros k Hk. destruct k as [|k].
      - rewrite Nat.add_0_r. exact E.
      - replace (syncs w + S k) with (S (syncs w + k)) by lia.
        apply Hf. lia. }
    split.
    { replace (syncs w + (S a - 1)) with (S (syncs w + (a - 1))) by lia.
      exact Hb. }
    split; [intros H; specialize (Hx H); lia|].
    split.
    { rewrite Hsl, <- app_assoc. f_equal.
      replace (S a - 1) with a by lia.
      destruct a as [|a]; [lia|].
      replace (S a - 1) with a in * by lia.
      destruct b; cbn [firstn app repeat]; reflexivity. }
    split.
    { destruct Hr as (H1 & H2 & H3 & H4). unfold same_remote.
      cbn in H1, H2, H3, H4. tauto. }
    split; assumption.
Qed.










(** With the default arguments and a service that rejects every sync:
    four attempts, three sleeps of 2000, and [false]. *)
Example trySyncBuilds_default_exhausted :
  let w := {| authenticate_ok := true; sync_post_ok := fun _ => false;
              hooks_answer := Some []; hook_put_ok := true;
              authenticated := []; syncs := 0; slept := []; puts := [] |} in
  let (r, w') := trySyncBuilds 0 3 2000 w in
  r = Ok false /\ syncs w' = 4 /\ slept w' = [2000; 2000; 2000]%Z.
Proof. vm_compute. repeat split; reflexivity. Qed.

(** A delay given by the caller is used for the first attempt only. *)
Example trySyncBuilds_custom_delay :
  let w := {| authenticate_ok := true; sync_post_ok := fun k => Nat.eqb k 2;
              hooks_answer := Some []; hook_put_ok := true;
              authenticated := []; syncs := 0; slept := []; puts := [] |} in
  let (r, w') := trySyncBuilds 0 5 500 w in
  r = Ok true /\ syncs w' = 3 /\ slept w' = [500; 2000; 2000]%Z.
Proof. vm_compute. repeat split; reflexivity. Qed.

(** The predicate [enableBuilds] passes to [find]. *)
Definition hook_matches (owner repo : string) (hook : Hook) : bool :=
  (owner_name hook =? owner)%string && (name hook =? repo)%string.

(** A service where every sync is rejected, listing one active hook. *)
Definition never_syncing : World :=
  {| authenticate_ok := true;
     sync_post_ok := fun _ => false;
     hooks_answer := Some [ {| id := 7; owner_name := "imqueue";
                               name := "user"; active := true |} ];
     hook_put_ok := true;
     authenticated := []; syncs := 0; slept := []; puts := [] |}.

(** A service listing one inactive hook after a hook of another owner. *)
Definition inactive_hook : World :=
  {| authenticate_ok := true;
     sync_post_ok := fun k => Nat.eqb k 1;
     hooks_answer := Some [ {| id := 3; owner_name := "other";
                               name := "user"; active := true |};
                            {| id := 7; owner_name := "imqueue";
                               name := "user"; active := false |} ];
     hook_put_ok := true;
     authenticated := []; syncs := 0; slept := []; puts := [] |}.

(** C1, as stated, fails: with every sync attempt rejected, [enableBuilds]
    still returns [true] when the hook list holds a matching hook. *)
Lemma enableBuilds_true_without_sync :
  (forall k, sync_post_ok never_syncing k = false)
  /\ fst (enableBuilds "imqueue" "user" "token" false never_syncing) = Ok true
  /\ fst (trySyncBuilds 0 3 2000 never_syncing) = Ok false.
Proof.
  split; [intros k; reflexivity|].
  split; vm_compute; reflexivity.
Qed.

(** C1, amended.  When authentication, the hook listing and the hook update
    are not rejected, [enableBuilds] returns [false] exactly when no hook of
    the fetched list matches the owner and the repository name, and [true]
    when one does, whatever the outcome of the sync; the first matching hook
    is put active when it was inactive, and no other hook update is made. *)
Theorem enableBuilds_decided_by_hooks :
  forall owner repo github_token isPrivate w hs,
  authenticate_ok w = true ->
  hooks_answer w = Some hs ->
  hook_put_ok w = true ->
  exists w',
    enableBuilds owner repo github_token isPrivate w
    = (Ok (match find (hook_matches owner repo) hs with
           | Some _ => true
           | None => false
           end), w')
    /\ puts w' = puts w ++ match find (hook_matches owner repo) hs with
                           | Some hook =>
                               if active hook then [] else [(id hook, true)]
                           | None => []
                           end.
Proof.
  intros owner repo github_token isPrivate w hs Hauth Hhooks Hput.
  unfold enableBuilds, bind at 1, authenticate. rewrite Hauth.
  unfold bind at 1.
  destruct (trySyncBuilds_behaviour _ 0%Z 3%Z 2000%Z
              (record_authenticate github_token w) eq_refl)
    as (b & w1 & a & Heq & _ & _ & _ & _ & _ & _ & Hr & _ & Hp).
  rewrite Heq.
  destruct Hr as (_ & _ & Hh & Hpo). cbn in Hh, Hpo, Hp.
  unfold bind at 1, hooks_get. rewrite Hh, Hhooks.
  fold (hook_matches owner repo).
  destruct (find (hook_matches owner repo) hs) as [hook|].
  - destruct (active hook).
    + exists w1. cbn. rewrite app_nil_r. split; [reflexivity|exact Hp].
    + exists (record_put (id hook) true w1).
      unfold bind, hooks_put, ret. rewrite Hpo, Hput.
      split; [reflexivity|]. cbn. rewrite Hp. reflexivity.
  - exists w1. cbn. rewrite app_nil_r. split; [reflexivity|exact Hp].
Qed.

Lemma enableBuilds_decided_by_hooks_witness :
  authenticate_ok inactive_hook = true
  /\ hook_put_ok inactive_hook = true
  /\ exists w',
       enableBuilds "imqueue" "user" "token" true inactive_hook = (Ok true, w')
       /\ puts w' = [(7%Z, true)].
Proof.
  split; [reflexivity|]. split; [reflexivity|].
  exact (enableBuilds_decided_by_hooks "imqueue" "user" "token" true
           inactive_hook _ eq_refl eq_refl eq_refl).
Defined.

End TravisFacts.

(* ===================================================================== *)
(** ** Properties of src/service/update-version.ts *)
(* ===================================================================== *)

Module UpdateVersionFacts.
Import Js UpdateVersion.
Local Open Scope js_scope.

Lemma for_of_app {S A} (xs ys : list A) (f : A -> M S unit) (s : S) :
  for_of (xs ++ ys) f s = (for_of xs f ;;; for_of ys f) s.
Proof.
  revert s. induction xs as [|x xs IH]; intros s.
  - reflexivity.
  - cbn [app for_of]. unfold bind.
    destruct (f x s) as [[[]|e] s1]; [|reflexivity].
    rewrite IH. reflexivity.
Qed.

(** The process started by the checkout step for a directory. *)
Definition checkout_call (servicePath : string) (args : Arguments) : Spawn :=
  {| command := "git"; args := ["checkout"; branch args]; cwd := servicePath |}.




(** An operating system where the checkout fails in [/srv/auth] and every
    other process succeeds. *)
Definition auth_checkout_fails : World :=
  {| answer := fun _ call =>
       if (cwd call =? "/srv/auth") && (command call =? "git")
          && match args call with
             | verb :: _ => verb =? "checkout"
             | [] => false
             end
       then Exited 1 "error: pathspec 'release' did not match"
       else Exited 0 "";
     spawned := [];
     logged := [] |}.

Definition release_args : Arguments :=
  {| branch := "release"; npmVersion := "prerelease" |}.


(** The whole walk over the two directories: one process for the first,
    the four steps for the second. *)
Example walk_two_directories :
  let w := snd (walkThroughFolders ["/srv/auth"; "/srv/user"] release_args
                  auth_checkout_fails) in
  map (fun c => (cwd c, command c, args c)) (spawned w)
  = [ ("/srv/auth", "git", ["checkout"; "release"]);
      ("/srv/user", "git", ["checkout"; "release"]);
      ("/srv/user", "git", ["pull"]);
      ("/srv/user", "npm", ["version"; "prerelease"]);
      ("/srv/user", "git", ["push"; "--follow-tags"]) ].
Proof. vm_compute. reflexivity. Qed.

End UpdateVersionFacts.

(* ===================================================================== *)
(** ** Properties of src/service/create.ts: the handler *)
(* ===================================================================== *)

Module HandlerFacts.
Import Js Create.
Local Open Scope js_scope.

Section Handler.

Variable World : Type.
Variable gitRepoInitialized : World -> bool.
Variables buildFromTemplate createGitRepo buildDockerCi installPackages commit
  : Arguments -> M World unit.
Variable resolve_path : string -> string.
Variable rmdir : string -> M World unit.
Variable printError : exn -> M World unit.
Variable console_log : string -> M World unit.

Let pipeline := pipeline World gitRepoInitialized buildFromTemplate
                  createGitRepo buildDockerCi installPackages commit console_log.
Let handler := handler World gitRepoInitialized buildFromTemplate
                 createGitRepo buildDockerCi installPackages commit
                 resolve_path rmdir printError console_log.

(** The guard of the cleanup lets every non-empty path through: no string
    equals both ["."] and ["./"]. *)
Lemma cleanup_wanted_truthy argv :
  cleanup_wanted argv = truthy (arg_path argv).
Proof.
  unfold cleanup_wanted.
  destruct (String.eqb_spec (arg_path argv) ".") as [E|_].
  - rewrite E. reflexivity.
  - cbn. apply andb_true_r.
Qed.

(** A stage that throws ends the pipeline: the stages after it do not run. *)
Lemma pipeline_stops_at_buildFromTemplate argv w err w1 :
  buildFromTemplate argv w = (Throw err, w1) ->
  pipeline argv w = (Throw err, w1).
Proof.
  intros H. unfold pipeline, Create.pipeline, bind at 1. rewrite H. reflexivity.
Qed.

Lemma pipeline_stops_at_createGitRepo argv w w1 err w2 :
  buildFromTemplate argv w = (Ok tt, w1) ->
  createGitRepo argv w1 = (Throw err, w2) ->
  pipeline argv w = (Throw err, w2).
Proof.
  intros H1 H2. unfold pipeline, Create.pipeline, bind at 1. rewrite H1.
  unfold bind at 1. rewrite H2. reflexivity.
Qed.

Lemma pipeline_stops_at_buildDockerCi argv w w1 w2 err w3 :
  buildFromTemplate argv w = (Ok tt, w1) ->
  createGitRepo argv w1 = (Ok tt, w2) ->
  buildDockerCi argv w2 = (Throw err, w3) ->
  pipeline argv w = (Throw err, w3).
Proof.
  intros H1 H2 H3. unfold pipeline, Create.pipeline, bind at 1. rewrite H1.
  unfold bind at 1. rewrite H2. unfold bind at 1. rewrite H3. reflexivity.
Qed.

(** What the handler does once the pipeline has thrown. *)
Lemma handler_after_throw argv w err w1 :
  pipeline argv w = (Throw err, w1) ->
  handler argv w
  = ((if truthy (arg_path argv) then rmdir (resolve_path (arg_path argv))
      else ret tt) ;;; printError err) w1.
Proof.
  intros H. unfold handler, Create.handler, try_catch.
  fold pipeline. rewrite H, cleanup_wanted_truthy. reflexivity.
Qed.

(** C3, on the code: with the path argument ["."], a throw in the pipeline
    is followed by the removal of the resolved current directory; the guard
    meant to spare it never holds. *)
Theorem handler_removes_current_directory : forall argv w err w1,
  arg_path argv = "." ->
  pipeline argv w = (Throw err, w1) ->
  handler argv w = (rmdir (resolve_path ".") ;;; printError err) w1.
Proof.
  intros argv w err w1 Hpath Hthrow.
  rewrite (handler_after_throw argv w err w1 Hthrow), Hpath. reflexivity.
Qed.

End Handler.

(** A run where the template is missing: the world is the list of what was
    done, newest last. *)
Definition act (what : string) : M (list string) unit :=
  modify (fun done => done ++ [what]).

Definition missing_template (_ : Arguments) : M (list string) unit :=
  act "buildFromTemplate" ;;; throw (Error "No such template exists").

Definition in_current_directory : Arguments :=
  {| arg_path := "."; noInstall := false |}.

Lemma handler_removes_current_directory_witness :
  arg_path in_current_directory = "."
  /\ handler (list string) (fun _ => false)
       missing_template (fun _ => act "createGitRepo")
       (fun _ => act "buildDockerCi") (fun _ => act "installPackages")
       (fun _ => act "commit")
       (fun p => if (p =? ".")%string then "/home/dev/service" else p)
       (fun dir => act ("rmdir " ++ dir)) (fun _ => act "printError") act
       in_current_directory []
     = (Ok tt, ["buildFromTemplate"; "rmdir /home/dev/service"; "printError"]).
Proof.
  split; [reflexivity|].
  exact (handler_removes_current_directory (list string) (fun _ => false)
           missing_template (fun _ => act "createGitRepo")
           (fun _ => act "buildDockerCi") (fun _ => act "installPackages")
           (fun _ => act "commit")
           (fun p => if (p =? ".")%string then "/home/dev/service" else p)
           (fun dir => act ("rmdir " ++ dir)) (fun _ => act "printError") act
           in_current_directory [] (Error "No such template exists")
           ["buildFromTemplate"] eq_refl eq_refl).
Defined.

End HandlerFacts.

(* ===================================================================== *)
(** ** Occurrences of a text in a string, and literal replacement *)
(* ===================================================================== *)

Module StringFacts.
Import Js.


Lemma append_assoc a b c : ((a ++ b) ++ c)%string = (a ++ (b ++ c))%string.
Proof. induction a as [|x a IH]; cbn; [reflexivity|now rewrite IH]. Qed.

Lemma length_append a b :
  String.length (a ++ b) = String.length a + String.length b.
Proof. induction a as [|x a IH]; cbn; [reflexivity|now rewrite IH]. Qed.

(** Two splittings of a string at the same position are equal. *)
Lemma append_inj a b a' b' :
  (a ++ b)%string = (a' ++ b')%string ->
  String.length a = String.length a' ->
  a = a' /\ b = b'.
Proof.
  revert a'. induction a as [|x a IH]; intros [|x' a'] E L; cbn in *;
    try discriminate.
  - tauto.
  - injection E as -> E. destruct (IH a' E) as [-> ->]; [lia|tauto].
Qed.

Lemma strip_prefix_Some p s r :
  strip_prefix p s = Some r <-> s = (p ++ r)%string.
Proof.
  revert s. induction p as [|a p IH]; intros s; cbn.
  - split; congruence.
  - destruct s as [|b s].
    + split; discriminate.
    + destruct (Ascii.eqb_spec a b) as [->|Hne].
      * rewrite IH. split; congruence.
      * split; [discriminate|]. intros E. injection E as E _. congruence.
Qed.

Lemma strip_prefix_None p s post :
  strip_prefix p s = None -> s <> (p ++ post)%string.
Proof.
  intros H E. apply strip_prefix_Some in E. congruence.
Qed.


(** *** Occurrences *)

(** [p] occurs in [s] right after [pre]. *)
Definition occurs_after (p s pre : string) : Prop :=
  exists post, s = (pre ++ p ++ post)%string.

(** [p] does not occur in [s]. *)
Definition absent (p s : string) : Prop :=
  forall pre, ~ occurs_after p s pre.

(** [pre ++ p ++ post] splits [s] at the first occurrence of [p]. *)
Definition first_occurrence (p s pre post : string) : Prop :=
  s = (pre ++ p ++ post)%string
  /\ forall pre', occurs_after p s pre' ->
                  String.length pre <= String.length pre'.

Lemma first_occurrence_unique p s pre post pre' post' :
  first_occurrence p s pre post -> first_occurrence p s pre' post' ->
  pre = pre' /\ post = post'.
Proof.
  intros [E M] [E' M'].
  assert (L : String.length pre = String.length pre').
  { apply Nat.le_antisymm.
    - apply M. exists post'. exact E'.
    - apply M'. exists post. exact E. }
  rewrite E in E'.
  destruct (append_inj _ _ _ _ E' L) as [-> E2].
  split; [reflexivity|].
  destruct (append_inj _ _ _ _ E2 eq_refl) as [_ ->]. reflexivity.
Qed.

Lemma absent_cons p c s :
  strip_prefix p (String c s) = None -> absent p s -> absent p (String c s).
Proof.
  intros Hn Ha [|c' pre'] [post E].
  - exact (strip_prefix_None _ _ _ Hn E).
  - cbn in E. injection E as _ E. apply (Ha pre'). exists post. exact E.
Qed.

Lemma first_occurrence_cons p c s pre post :
  strip_prefix p (String c s) = None ->
  first_occurrence p s pre post ->
  first_occurrence p (String c s) (String c pre) post.
Proof.
  intros Hn [E M]. split.
  - cbn. now rewrite E.
  - intros [|c' pre'] [post' E'].
    + exfalso. exact (strip_prefix_None _ _ _ Hn E').
    + cbn in E'. injection E' as _ E'. cbn.
      apply le_n_S, M. exists post'. exact E'.
Qed.

Lemma first_occurrence_here p after :
  first_occurrence p (p ++ after) "" after.
Proof. split; [reflexivity|]. intros pre' _. cbn. lia. Qed.

(** *** Replacement of the first occurrence, as a relation *)

(** [s'] is [s] with the first occurrence of [p] replaced by [v], the rest
    of [s], later occurrences included, being kept; [s' = s] when [p] does
    not occur. *)
Definition replaced_first (p v s s' : string) : Prop :=
  (absent p s /\ s' = s)
  \/ exists pre post,
       first_occurrence p s pre post /\ s' = (pre ++ v ++ post)%string.


(** Literal replacement of the first occurrence, as a function. *)
Fixpoint literal_replace_first (p v s : string) : string :=
  match strip_prefix p s with
  | Some after => (v ++ after)%string
  | None =>
      match s with
      | EmptyString => EmptyString
      | String c rest => String c (literal_replace_first p v rest)
      end
  end.

Lemma replaced_first_here p v s after :
  strip_prefix p s = Some after -> replaced_first p v s (v ++ after).
Proof.
  intros E. apply strip_prefix_Some in E. subst s.
  right. exists "", after.
  split; [apply first_occurrence_here|reflexivity].
Qed.

Lemma literal_replace_first_spec p v s :
  replaced_first p v s (literal_replace_first p v s).
Proof.
  induction s as [|c s IH].
  - cbn. destruct (strip_prefix p "") as [after|] eqn:E.
    + apply replaced_first_here, E.
    + left. split; [|reflexivity].
      intros [|c' pre'] [post E']; [|discriminate].
      exact (strip_prefix_None _ _ _ E E').
  - cbn [literal_replace_first].
    destruct (strip_prefix p (String c s)) as [after|] eqn:E.
    + apply replaced_first_here, E.
    + destruct IH as [[Ha ->]|(pre & post & F & ->)].
      * left. split; [|reflexivity]. apply absent_cons; assumption.
      * right. exists (String c pre), post.
        split; [apply first_occurrence_cons; assumption|reflexivity].
Qed.


(** *** Replacement of every occurrence, as a relation *)











End StringFacts.

(* ===================================================================== *)
(** ** Properties of src/service/create.ts: the license text *)
(* ===================================================================== *)

Module LicenseFacts.
Import Js Create StringFacts.










End LicenseFacts.

(* ===================================================================== *)
(** ** Properties of src/service/create.ts: template compilation *)
(* ===================================================================== *)

Module TemplateFacts.
Import Js Create StringFacts.
Local Open Scope js_scope.

(** *** The tags applied to one text *)









(** *** The file system *)

Fixpoint names_distinct (names : list string) : bool :=
  match names with
  | [] => true
  | x :: rest => negb (existsb (String.eqb x) rest) && names_distinct rest
  end.







Lemma assoc_update_entry x f es :
  assoc x (update_entry x f es) = option_map f (assoc x es).
Proof.
  induction es as [|[y n] es IH]; cbn; [reflexivity|].
  destruct (y =? x)%string eqn:E; cbn; rewrite E; [reflexivity|exact IH].
Qed.

Lemma update_entry_twice x f g es :
  update_entry x f (update_entry x g es) = update_entry x (fun n => f (g n)) es.
Proof.
  induction es as [|[y n] es IH]; cbn; [reflexivity|].
  destruct (y =? x)%string eqn:E; cbn; rewrite E; [reflexivity|now rewrite IH].
Qed.

Lemma update_entry_ext x f g es :
  (forall n, f n = g n) -> update_entry x f es = update_entry x g es.
Proof.
  intros H. induction es as [|[y n] es IH]; cbn; [reflexivity|].
  destruct (y =? x)%string; [now rewrite H|now rewrite IH].
Qed.

Lemma update_entry_same x f es c :
  assoc x es = Some c -> f c = c -> update_entry x f es = es.
Proof.
  induction es as [|[y n] es IH]; cbn; [discriminate|].
  destruct (y =? x)%string.
  - intros [= ->] ->. reflexivity.
  - intros H1 H2. now rewrite IH.
Qed.

Lemma lookup_app p q n :
  lookup (p ++ q) n
  = match lookup p n with Some m => lookup q m | None => None end.
Proof.
  revert n. induction p as [|x p IH]; intros n; cbn; [reflexivity|].
  destruct n as [c|es]; [reflexivity|].
  destruct (assoc x es); [apply IH|reflexivity].
Qed.

Lemma update_app p q f n : update (p ++ q) f n = update p (update q f) n.
Proof.
  revert n. induction p as [|x p IH]; intros n; cbn; [reflexivity|].
  destruct n as [c|es]; [reflexivity|].
  f_equal. apply update_entry_ext. intros m. apply IH.
Qed.

Lemma lookup_update p f n : lookup p (update p f n) = option_map f (lookup p n).
Proof.
  revert n. induction p as [|x p IH]; intros n; cbn; [reflexivity|].
  destruct n as [c|es]; [reflexivity|].
  rewrite assoc_update_entry.
  destruct (assoc x es); cbn; [apply IH|reflexivity].
Qed.

Lemma update_twice p f g n :
  update p f (update p g n) = update p (fun m => f (g m)) n.
Proof.
  revert n. induction p as [|x p IH]; intros n; cbn; [reflexivity|].
  destruct n as [c|es]; [reflexivity|].
  rewrite update_entry_twice. f_equal. apply update_entry_ext. intros m. apply IH.
Qed.

Lemma update_same p n d :
  lookup p n = Some d -> update p (fun _ => d) n = n.
Proof.
  revert n. induction p as [|x p IH]; intros n; cbn.
  - intros [= ->]. reflexivity.
  - destruct n as [c|es]; [reflexivity|].
    destruct (assoc x es) as [child|] eqn:E; [|discriminate].
    intros H. f_equal. apply (update_entry_same _ _ _ child E). apply IH, H.
Qed.


(** *** The walk *)

Section Walk.

Variable utf8_decode : string -> string.
Variable utf8_encode : string -> string.
Variable tags : Tags.











End Walk.




(** Files of ASCII characters are their own text. *)
Definition ascii_codec (s : string) : string := s.






(** A template with a nested directory; the second tag has a name that is
    no identifier and a value with a dollar sign. *)
Definition service_template : node :=
  Dir [ ("package.json",
         File "{ name: %SERVICE_NAME, price: %SERVICE-PRICE }");
        ("src", Dir [ ("index.ts", File "// %SERVICE_NAME, %SERVICE_NAME") ]) ].

Definition service_tags : Tags :=
  [ ("SERVICE_NAME", "user"); ("SERVICE-PRICE", "US$ 5") ].


Example compileTemplate_service :
  compileTemplate ascii_codec ascii_codec 2 [] service_tags service_template
  = (Ok tt,
     Dir [ ("package.json", File "{ name: user, price: US$ 5 }");
           ("src", Dir [ ("index.ts", File "// user, user") ]) ]).
Proof. vm_compute. reflexivity. Qed.

(** A stack too shallow for the tree ends the walk with a [RangeError]. *)
Example compileTemplate_shallow_stack :
  fst (compileTemplate ascii_codec ascii_codec 1 [] service_tags
         service_template)
  = Throw (RangeError "Maximum call stack size exceeded").
Proof. vm_compute. reflexivity. Qed.

End TemplateFacts.

(* ===================================================================== *)
(** ** Further properties of lib/node.ts *)
(* ===================================================================== *)

Module NodeMore.
Import Js Node NodeFacts.
Local Open Scope js_scope.

(** The tags [toTravisTags] translates. *)
Definition symbolic (tag : string) : bool :=
  (tag =? "stable") || (tag =? "lts") || (tag =? "latest").

Lemma switch_tag_plain acc tag :
  symbolic tag = false -> switch_tag acc tag = acc ++ [tag].
Proof.
  unfold symbolic, switch_tag, push. intros H.
  apply orb_false_iff in H as [H Hlatest].
  apply orb_false_iff in H as [Hstable Hlts].
  now rewrite Hstable, Hlts, Hlatest.
Qed.

Lemma switch_tag_never_symbolic acc tag :
  forallb (fun t => negb (symbolic t)) acc = true ->
  forallb (fun t => negb (symbolic t)) (switch_tag acc tag) = true.
Proof.
  intros Hacc. unfold switch_tag, push.
  destruct ((tag =? "stable") || (tag =? "lts")) eqn:E1.
  - rewrite !forallb_app, Hacc. reflexivity.
  - destruct (tag =? "latest") eqn:E2.
    + rewrite forallb_app, Hacc. reflexivity.
    + rewrite forallb_app, Hacc. cbn. unfold symbolic. now rewrite E1, E2.
Qed.

Lemma fold_switch_never_symbolic tags : forall acc,
  forallb (fun t => negb (symbolic t)) acc = true ->
  forallb (fun t => negb (symbolic t)) (fold_left switch_tag tags acc) = true.
Proof.
  induction tags as [|tag tags IH]; intros acc Hacc; [exact Hacc|].
  cbn. apply IH, switch_tag_never_symbolic, Hacc.
Qed.

Lemma fold_switch_plain tags : forall acc,
  forallb (fun t => negb (symbolic t)) tags = true ->
  fold_left switch_tag tags acc = acc ++ tags.
Proof.
  induction tags as [|tag tags IH]; intros acc H; cbn.
  - now rewrite app_nil_r.
  - cbn in H. apply andb_true_iff in H as [Ht Hrest].
    apply negb_true_iff in Ht.
    rewrite (switch_tag_plain _ _ Ht), (IH _ Hrest), <- app_assoc.
    reflexivity.
Qed.

Lemma keep_unseen_forallb f seen xs :
  forallb f xs = true -> forallb f (keep_unseen seen xs) = true.
Proof.
  revert seen. induction xs as [|x xs IH]; intros seen H; [reflexivity|].
  cbn in *. apply andb_true_iff in H as [Hx Hxs].
  destruct (existsb (String.eqb x) seen); cbn; [|rewrite Hx]; now apply IH.
Qed.

Lemma keep_unseen_fresh xs : forall seen,
  NoDup xs -> (forall x, In x xs -> ~ In x seen) ->
  keep_unseen seen xs = xs.
Proof.
  induction xs as [|x xs IH]; intros seen Hnd Hfresh; [reflexivity|].
  cbn. inversion Hnd as [|? ? Hx Hxs]; subst.
  destruct (existsb (String.eqb x) seen) eqn:E.
  - apply existsb_eqb_In in E. exfalso. apply (Hfresh x); [left; reflexivity|exact E].
  - f_equal. apply IH; [exact Hxs|].
    intros y Hy Hin. apply in_app_or in Hin as [Hin|[<-|[]]].
    + apply (Hfresh y); [right; exact Hy|exact Hin].
    + contradiction.
Qed.

Lemma toTravisTags_keep input :
  toTravisTags input
  = keep_unseen [] (match input with
                    | TagsUndefined => []
                    | TagsString s => if truthy s then pushed_tags [s] else []
                    | TagsArray l => pushed_tags l
                    end).
Proof.
  destruct input as [|s|l]; cbn [toTravisTags]; [reflexivity| |].
  - destruct (truthy s); cbn [negb]; [apply filter_indexed_keep|reflexivity].
  - apply filter_indexed_keep.
Qed.

(** X1. The tags [toTravisTags] returns never hold ["stable"], ["lts"] or
    ["latest"], and converting them again changes nothing. *)
Theorem toTravisTags_idempotent : forall input : TagsArg,
  forallb (fun t => negb (symbolic t)) (toTravisTags input) = true
  /\ toTravisTags (TagsArray (toTravisTags input)) = toTravisTags input.
Proof.
  intros input.
  assert (Hplain : forallb (fun t => negb (symbolic t)) (toTravisTags input) = true).
  { rewrite toTravisTags_keep. apply keep_unseen_forallb.
    destruct input as [|s|l]; [reflexivity| |].
    - destruct (truthy s); [|reflexivity].
      now apply fold_switch_never_symbolic.
    - now apply fold_switch_never_symbolic. }
  split; [exact Hplain|].
  rewrite (toTravisTags_keep (TagsArray _)).
  unfold pushed_tags. rewrite (fold_switch_plain _ _ Hplain). cbn [app].
  apply keep_unseen_fresh.
  - rewrite toTravisTags_keep. apply keep_unseen_NoDup.
  - intros x _ [].
Qed.

(** X2. A call of [getNodeVersions] makes at most one request.  Once it
    has returned a catalog, a call that is not forced returns the same
    catalog without a request.  And when the request fails, the catalog
    kept so far stays as it was, and the call, if forced or without a
    catalog kept, throws the error of the request. *)
Theorem getNodeVersions_cached_after : forall force w,
  let (r, w') := getNodeVersions force w in
  requests w' <= S (requests w)
  /\ (forall catalog,
        r = Ok catalog ->
        getNodeVersions false w' = (Ok catalog, w')
        /\ requests (snd (getNodeVersions false w')) = requests w')
  /\ (forall err,
        index_json w = RequestFailed err ->
        nodeVersions w' = nodeVersions w
        /\ (force = true \/ nodeVersions w = None -> r = Throw err)).
Proof.
  intros force w. unfold getNodeVersions at 1.
  destruct (if negb force then nodeVersions w else None) as [cached|] eqn:E.
  - destruct force; [discriminate|]. cbn in E.
    split; [lia|]. split.
    + intros catalog [= <-]. unfold getNodeVersions. cbn.
      rewrite E. split; reflexivity.
    + intros err _. split; [reflexivity|].
      intros [H|H]; [discriminate|congruence].
  - destruct (index_json w) as [err|body].
    + split; [cbn; lia|]. split; [discriminate|].
      intros err' [= <-]. split; reflexivity.
    + destruct (sort compare_entries _) as [sorted|e].
      * split; [cbn; lia|]. split; [|discriminate].
        intros catalog [= <-]. split; reflexivity.
      * split; [cbn; lia|]. split; discriminate.
Qed.

(** X3. A forced call does not look at the catalog kept so far: when it
    returns, it has made one request, its catalog holds the entries of the
    answered index in descending order of version, and that catalog
    replaces the one kept before. *)
Theorem getNodeVersions_forced_refresh : forall w catalog w',
  getNodeVersions true w = (Ok catalog, w') ->
  descending catalog = true
  /\ nodeVersions w' = Some catalog
  /\ requests w' = S (requests w)
  /\ exists body,
       index_json w = Answered body
       /\ Permutation (match body with Some es => es | None => [] end) catalog.
Proof.
  intros w catalog w' H. unfold getNodeVersions in H. cbn [negb] in H.
  destruct (index_json w) as [err|body]; [discriminate|].
  destruct (sort compare_entries _) as [sorted|e] eqn:Hs; [|discriminate].
  injection H as <- <-.
  destruct (sort_descending _ _ Hs) as [Hd Hp].
  repeat split; [exact Hd|].
  exists body. split; [reflexivity|exact Hp].
Qed.

(** A process that kept an old catalog, and an index answered out of
    order. *)
Definition stale_catalog : World :=
  {| nodeVersions := Some
       [ {| version := "v18.0.0"; date := "2022-04-18"; lts := LtsFlag false |} ];
     index_json := Answered (Some
       [ {| version := "v18.0.0"; date := "2022-04-18"; lts := LtsFlag false |};
         {| version := "v22.2.0"; date := "2024-05-15"; lts := LtsFlag false |};
         {| version := "v20.13.1"; date := "2024-05-09"; lts := LtsName "Iron" |} ]);
     requests := 1 |}.

Definition refreshed_catalog : list NodeVersion :=
  [ {| version := "v22.2.0"; date := "2024-05-15"; lts := LtsFlag false |};
    {| version := "v20.13.1"; date := "2024-05-09"; lts := LtsName "Iron" |};
    {| version := "v18.0.0"; date := "2022-04-18"; lts := LtsFlag false |} ].

Lemma getNodeVersions_forced_refresh_witness :
  getNodeVersions false stale_catalog
  = (Ok [ {| version := "v18.0.0"; date := "2022-04-18";
             lts := LtsFlag false |} ], stale_catalog)
  /\ descending refreshed_catalog = true
  /\ nodeVersions (snd (getNodeVersions true stale_catalog))
     = Some refreshed_catalog
  /\ requests (snd (getNodeVersions true stale_catalog)) = 2.
Proof.
  split; [reflexivity|].
  destruct (getNodeVersions_forced_refresh stale_catalog refreshed_catalog
              (snd (getNodeVersions true stale_catalog))
              ltac:(vm_compute; reflexivity))
    as (Hd & Hkept & Hreq & _).
  repeat split; assumption.
Defined.

End NodeMore.

(* ===================================================================== *)
(** ** Further properties of lib/travis.ts *)
(* ===================================================================== *)

Module TravisMore.
Import Js Travis TravisFacts.
Local Open Scope js_scope.

(** The hook [enableBuilds] would have to update: the first matching one,
    when it is inactive. *)
Definition hook_to_activate (owner repo : string) (w : World) : option Hook :=
  match hooks_answer w with
  | Some hs =>
      match find (hook_matches owner repo) hs with
      | Some hook => if active hook then None else Some hook
      | None => None
      end
  | None => None
  end.

Definition throws {A S} (r : result A * S) : bool :=
  match fst r with Throw _ => true | Ok _ => false end.

(** X4. [enableBuilds] throws exactly when the authentication is rejected,
    or the hook listing is, or the update of the inactive matching hook is;
    a sync that never succeeds does not make it throw. *)
Theorem enableBuilds_throws_iff : forall owner repo github_token isPrivate w,
  throws (enableBuilds owner repo github_token isPrivate w) = true
  <-> authenticate_ok w = false
      \/ hooks_answer w = None
      \/ (hook_put_ok w = false /\ hook_to_activate owner repo w <> None).
Proof.
  intros owner repo github_token isPrivate w.
  unfold throws, enableBuilds, bind at 1, authenticate, hook_to_activate.
  destruct (authenticate_ok w) eqn:Hauth; cbn [fst];
    [|split; [left; reflexivity|reflexivity]].
  unfold bind at 1.
  destruct (trySyncBuilds_behaviour _ 0%Z 3%Z 2000%Z
              (record_authenticate github_token w) eq_refl)
    as (b & w1 & a & Heq & _ & _ & _ & _ & _ & _ & Hr & _ & _).
  rewrite Heq. destruct Hr as (_ & _ & Hh & Hpo). cbn in Hh, Hpo.
  unfold bind at 1, hooks_get. rewrite Hh.
  destruct (hooks_answer w) as [hs|]; cbn [fst];
    [|split; [right; left; reflexivity|reflexivity]].
  fold (hook_matches owner repo).
  destruct (find (hook_matches owner repo) hs) as [hook|]; cbn.
  - destruct (active hook); cbn.
    + split; [discriminate|]. intros [H|[H|[_ H]]]; congruence.
    + unfold bind, hooks_put. rewrite Hpo.
      destruct (hook_put_ok w); cbn.
      * split; [discriminate|]. intros [H|[H|[H _]]]; congruence.
      * split; [|reflexivity]. intros _. right. right.
        split; [reflexivity|discriminate].
  - split; [discriminate|]. intros [H|[H|[_ H]]]; congruence.
Qed.

(** X5. Whatever the service answers, [enableBuilds] makes at most four
    sync requests and at most one hook update, and that update activates
    the first hook matching the owner and the repository; it never
    deactivates a hook, and never updates one when the authentication was
    rejected. *)
Theorem enableBuilds_at_most_one_activation :
  forall owner repo github_token isPrivate w,
  let (_, w') := enableBuilds owner repo github_token isPrivate w in
  syncs w' <= syncs w + 4
  /\ (puts w' = puts w
      \/ exists hook,
           authenticate_ok w = true
           /\ hook_to_activate owner repo w = Some hook
           /\ puts w' = puts w ++ [(id hook, true)]).
Proof.
  intros owner repo github_token isPrivate w.
  unfold enableBuilds, bind at 1, authenticate, hook_to_activate.
  destruct (authenticate_ok w) eqn:Hauth;
    [|cbn; split; [lia|left; reflexivity]].
  unfold bind at 1.
  destruct (trySyncBuilds_behaviour _ 0%Z 3%Z 2000%Z
              (record_authenticate github_token w) eq_refl)
    as (b & w1 & a & Heq & Hs & Ha & _ & _ & _ & _ & Hr & _ & Hp).
  rewrite Heq. destruct Hr as (_ & _ & Hh & Hpo). cbn in Hh, Hpo, Hp, Hs, Ha.
  assert (Hsync : syncs w1 <= syncs w + 4) by lia.
  unfold bind at 1, hooks_get. rewrite Hh.
  destruct (hooks_answer w) as [hs|]; [|cbn; split; [exact Hsync|left; exact Hp]].
  fold (hook_matches owner repo).
  destruct (find (hook_matches owner repo) hs) as [hook|];
    [|cbn; split; [exact Hsync|left; exact Hp]].
  destruct (active hook); [cbn; split; [exact Hsync|left; exact Hp]|].
  unfold bind, hooks_put.
  destruct (hook_put_ok w1); cbn; (split; [exact Hsync|]);
    right; exists hook; rewrite Hp; repeat split; reflexivity.
Qed.

End TravisMore.

(* ===================================================================== *)
(** ** Further properties of src/service/update-version.ts: the git flow *)
(* ===================================================================== *)

Module GitFlowFacts.
Import Js UpdateVersion UpdateVersionFacts.
Local Open Scope js_scope.

(** The four processes of the flow for a directory, in order. *)
Definition steps (servicePath : string) (args : Arguments) : list Spawn :=
  [ {| command := "git"; args := ["checkout"; branch args]; cwd := servicePath |};
    {| command := "git"; args := ["pull"]; cwd := servicePath |};
    {| command := "npm"; args := ["version"; npmVersion args]; cwd := servicePath |};
    {| command := "git"; args := ["push"; "--follow-tags"]; cwd := servicePath |} ].

(** What the [j]-th process of the flow returns, the ones before it having
    been run. *)
Definition response_at (w : World) (servicePath : string) (args : Arguments)
  (j : nat) : SpawnSyncReturns :=
  answer w (spawned w ++ firstn j (steps servicePath args))
    (nth j (steps servicePath args) (checkout_call servicePath args)).

(** The responses after which the flow goes on: an exit with status 0, and
    an end by a signal, whose [null] status is falsy. *)
Definition passes (r : SpawnSyncReturns) : bool :=
  match r with
  | Exited 0 _ | Signalled _ _ => true
  | _ => false
  end.

(** The world after a process was announced with [line] and run. *)
Definition ran (line : string) (call : Spawn) (w : World) : World :=
  {| answer := answer w; spawned := spawned w ++ [call];
     logged := logged w ++ [line] |}.

Definition noted (line : string) (w : World) : World :=
  {| answer := answer w; spawned := spawned w; logged := logged w ++ [line] |}.

(** One step of the flow followed by the rest [k]. *)
Lemma step_then (line : string) (call : Spawn) (k : M World unit)
  (w : World) :
  (response <- (logger_log line ;;;
                spawnSync (command call) (args call) (cwd call)) ;;
   st <- handleSpawnResponse response ;;
   if truthy_status st then ret tt else k) w
  = match answer w (spawned w) call with
    | Exited 0 _ => k (ran line call w)
    | Exited _ out => (Ok tt, noted out (ran line call w))
    | Signalled _ out => k (noted out (ran line call w))
    | NotSpawned _ =>
        (Throw (TypeError "Cannot read property 'toString' of null"),
         ran line call w)
    end.
Proof.
  unfold bind at 1 2, logger_log at 1, spawnSync. cbn [spawned answer logged].
  destruct call as [c a d]. cbn [command args cwd].
  fold (ran line {| command := c; args := a; cwd := d |} w).
  destruct (answer w (spawned w) _) as [code out|sig out|err];
    unfold bind, handleSpawnResponse, status_not_zero; cbn;
    [destruct code|..]; reflexivity.
Qed.

(** The lines announcing the four processes. *)
Definition announcements (args : Arguments) : list string :=
  [ ("Switching on branch " ++ branch args ++ "...")%string;
    "Execution git pull...";
    ("Execute npm version " ++ npmVersion args)%string;
    "Execution git push..." ].

(** The flow over the processes still to run, read off [step_then]. *)
Fixpoint flow (todo : list (string * Spawn)) (w : World) : result unit * World :=
  match todo with
  | [] => logger_log (chalk "Done!") w
  | (line, call) :: rest =>
      match answer w (spawned w) call with
      | Exited 0 _ => flow rest (ran line call w)
      | Exited _ out => (Ok tt, noted out (ran line call w))
      | Signalled _ out => flow rest (noted out (ran line call w))
      | NotSpawned _ =>
          (Throw (TypeError "Cannot read property 'toString' of null"),
           ran line call w)
      end
  end.

Lemma execGitFlow_flow servicePath args w :
  execGitFlow servicePath args w
  = flow (combine (announcements args) (steps servicePath args)) w.
Proof.
  unfold execGitFlow, gitCheckout, gitPull, changeVersion, gitPush.
  cbn [combine announcements steps flow].
  etransitivity; [apply (step_then _ (nth 0 (steps servicePath args)
                           (checkout_call servicePath args)))|].
  cbn [nth steps].
  destruct (answer w (spawned w) _) as [[|c|c] out|sig out|err]; try reflexivity;
    (etransitivity; [apply (step_then _ (nth 1 (steps servicePath args)
                              (checkout_call servicePath args)))|];
     cbn [nth steps];
     destruct (answer _ _ _) as [[|c1|c1] out1|sig1 out1|err1]; try reflexivity;
     (etransitivity; [apply (step_then _ (nth 2 (steps servicePath args)
                               (checkout_call servicePath args)))|];
      cbn [nth steps];
      destruct (answer _ _ _) as [[|c2|c2] out2|sig2 out2|err2]; try reflexivity;
      (etransitivity; [apply (step_then _ (nth 3 (steps servicePath args)
                                (checkout_call servicePath args)))|];
       cbn [nth steps];
       destruct (answer _ _ _) as [[|c3|c3] out3|sig3 out3|err3];
       reflexivity))).
Qed.

(** What the [j]-th process of [todo] returns, the ones before it having
    been run. *)
Definition answer_at (w : World) (calls : list Spawn) (d : Spawn) (j : nat)
  : SpawnSyncReturns :=
  answer w (spawned w ++ firstn j calls) (nth j calls d).

Lemma answer_at_ran line call rest d j w :
  answer_at (ran line call w) rest d j = answer_at w (call :: rest) d (S j).
Proof. unfold answer_at. cbn. now rewrite <- app_assoc. Qed.

Lemma answer_at_noted out line call rest d j w :
  answer_at (noted out (ran line call w)) rest d j
  = answer_at w (call :: rest) d (S j).
Proof. unfold answer_at. cbn. now rewrite <- app_assoc. Qed.

Lemma answer_at_0 w call rest d :
  answer_at w (call :: rest) d 0 = answer w (spawned w) call.
Proof. unfold answer_at. cbn. now rewrite app_nil_r. Qed.

(** The flow runs a prefix of its processes and nothing else: all of
    them, or up to one that does not pass. *)
Lemma flow_prefix d todo : forall w,
  exists k,
    k <= length todo
    /\ (todo <> [] -> 1 <= k)
    /\ spawned (snd (flow todo w)) = spawned w ++ firstn k (map snd todo)
    /\ answer (snd (flow todo w)) = answer w
    /\ (k = length todo
        \/ k <> 0 /\ passes (answer_at w (map snd todo) d (k - 1)) = false).
Proof.
  induction todo as [|[line call] rest IH]; intros w.
  - exists 0. cbn. rewrite app_nil_r. repeat split; try lia; tauto.
  - cbn [flow map snd length].
    pose proof (answer_at_0 w call (map snd rest) d) as H0.
    destruct (answer w (spawned w) call) as [[|c|c] out|sig out|err] eqn:E.
    + destruct (IH (ran line call w)) as (k & Hk & _ & Hs & Ha & Hr).
      exists (S k). cbn [firstn]. rewrite Hs, Ha. cbn [ran spawned answer].
      rewrite <- app_assoc. repeat split; try lia.
      destruct Hr as [Hr|[Hk0 Hr]]; [left; lia|right].
      split; [lia|]. rewrite answer_at_ran in Hr.
      replace (S k - 1) with (S (k - 1)) by lia. exact Hr.
    + exists 1. cbn [firstn noted ran spawned answer snd]. repeat split; try lia.
      right. split; [lia|]. cbn [Nat.sub]. rewrite H0. reflexivity.
    + exists 1. cbn [firstn noted ran spawned answer snd]. repeat split; try lia.
      right. split; [lia|]. cbn [Nat.sub]. rewrite H0. reflexivity.
    + destruct (IH (noted out (ran line call w))) as (k & Hk & _ & Hs & Ha & Hr).
      exists (S k). cbn [firstn]. rewrite Hs, Ha. cbn [noted ran spawned answer].
      rewrite <- app_assoc. repeat split; try lia.
      destruct Hr as [Hr|[Hk0 Hr]]; [left; lia|right].
      split; [lia|]. rewrite answer_at_noted in Hr.
      replace (S k - 1) with (S (k - 1)) by lia. exact Hr.
    + exists 1. cbn [firstn ran spawned answer snd]. repeat split; try lia.
      right. split; [lia|]. cbn [Nat.sub]. rewrite H0. reflexivity.
Qed.

(** Every process passing, the flow runs them all and ends on [Done!]. *)
Lemma flow_all_pass d todo : forall w,
  (forall j, j < length todo ->
             passes (answer_at w (map snd todo) d j) = true) ->
  exists w',
    flow todo w = (Ok tt, w')
    /\ spawned w' = spawned w ++ map snd todo
    /\ answer w' = answer w
    /\ last (logged w') EmptyString = "Done!".
Proof.
  induction todo as [|[line call] rest IH]; intros w Hall.
  - eexists. split; [reflexivity|]. cbn. rewrite app_nil_r, last_last.
    repeat split.
  - cbn [flow map snd length] in *.
    pose proof (Hall 0 ltac:(lia)) as H0. rewrite answer_at_0 in H0.
    destruct (answer w (spawned w) call) as [[|c|c] out|sig out|err];
      try discriminate.
    + destruct (IH (ran line call w)) as (w' & Hf & Hs & Ha & Hl).
      { intros j Hj. rewrite answer_at_ran. apply Hall. cbn. lia. }
      exists w'. rewrite Hf, Hs, Ha. cbn. rewrite <- app_assoc. repeat split.
      exact Hl.
    + destruct (IH (noted out (ran line call w))) as (w' & Hf & Hs & Ha & Hl).
      { intros j Hj. rewrite answer_at_noted. apply Hall. cbn. lia. }
      exists w'. rewrite Hf, Hs, Ha. cbn. rewrite <- app_assoc. repeat split.
      exact Hl.
Qed.

(** The first process that does not pass ends the flow: with a plain
    return when it exited, with a [TypeError] when it could not start. *)
Lemma flow_until d todo : forall w k,
  k < length todo ->
  (forall j, j < k -> passes (answer_at w (map snd todo) d j) = true) ->
  passes (answer_at w (map snd todo) d k) = false ->
  exists w',
    flow todo w
    = (match answer_at w (map snd todo) d k with
       | NotSpawned _ =>
           Throw (TypeError "Cannot read property 'toString' of null")
       | _ => Ok tt
       end, w')
    /\ spawned w' = spawned w ++ firstn (S k) (map snd todo)
    /\ answer w' = answer w.
Proof.
  induction todo as [|[line call] rest IH]; intros w k Hk Hbefore Hstop.
  - cbn in Hk. lia.
  - cbn [flow map snd length] in *.
    destruct k as [|k].
    + rewrite answer_at_0 in *.
      destruct (answer w (spawned w) call) as [[|c|c] out|sig out|err];
        try discriminate; eexists; (split; [reflexivity|]);
        cbn; repeat split.
    + pose proof (Hbefore 0 ltac:(lia)) as H0. rewrite answer_at_0 in H0.
      destruct (answer w (spawned w) call) as [[|c|c] out|sig out|err];
        try discriminate.
      * destruct (IH (ran line call w) k) as (w' & Hf & Hs & Ha).
        { cbn in Hk. lia. }
        { intros j Hj. rewrite answer_at_ran. apply Hbefore. lia. }
        { rewrite answer_at_ran. exact Hstop. }
        exists w'. rewrite Hf, Hs, Ha, answer_at_ran. cbn.
        rewrite <- app_assoc. repeat split.
      * destruct (IH (noted out (ran line call w)) k) as (w' & Hf & Hs & Ha).
        { cbn in Hk. lia. }
        { intros j Hj. rewrite answer_at_noted. apply Hbefore. lia. }
        { rewrite answer_at_noted. exact Hstop. }
        exists w'. rewrite Hf, Hs, Ha, answer_at_noted. cbn.
        rewrite <- app_assoc. repeat split.
Qed.

Lemma Forall_prefix {A} (P : A -> Prop) (l : list A) : forall k,
  Forall P l -> Forall P (firstn k l).
Proof.
  induction l as [|x l IH]; intros [|k] H; cbn; try constructor.
  - now inversion H.
  - apply IH. now inversion H.
Qed.

Lemma steps_of_combine servicePath args :
  map snd (combine (announcements args) (steps servicePath args))
  = steps servicePath args.
Proof. reflexivity. Qed.

(** X6. Whatever the processes return, [execGitFlow] runs between one and
    four processes: the checkout, pull, version and push commands, in this
    order and in the service directory, without gap and without any other
    command. *)
Theorem execGitFlow_runs_prefix : forall servicePath args w,
  exists k,
    1 <= k <= 4
    /\ spawned (snd (execGitFlow servicePath args w))
       = spawned w ++ firstn k (steps servicePath args)
    /\ Forall (fun call => cwd call = servicePath)
              (firstn k (steps servicePath args)).
Proof.
  intros servicePath args w. rewrite execGitFlow_flow.
  destruct (flow_prefix (checkout_call servicePath args)
              (combine (announcements args) (steps servicePath args)) w)
    as (k & Hk & H1 & Hs & _).
  exists k. split; [split; [apply H1; discriminate|exact Hk]|].
  split; [exact Hs|].
  apply Forall_prefix. repeat constructor.
Qed.

(** X7. When each of the four processes exits with status 0 or is ended by
    a signal, [execGitFlow] runs all four and logs [Done!] last: a [null]
    status counts as a success. *)
Theorem execGitFlow_completes : forall servicePath args w,
  (forall j, j < 4 -> passes (response_at w servicePath args j) = true) ->
  exists w',
    execGitFlow servicePath args w = (Ok tt, w')
    /\ spawned w' = spawned w ++ steps servicePath args
    /\ last (logged w') EmptyString = "Done!".
Proof.
  intros servicePath args w Hall. rewrite execGitFlow_flow.
  destruct (flow_all_pass (checkout_call servicePath args)
              (combine (announcements args) (steps servicePath args)) w Hall)
    as (w' & Hf & Hs & _ & Hl).
  exists w'. repeat split; assumption.
Qed.

(** X8. The first process that exits with a status other than 0, be it the
    checkout, the pull, the version bump or the push, is the last one run
    for the directory; [execGitFlow] then returns without throwing. *)
Theorem execGitFlow_stops_at_failure : forall servicePath args w k code out,
  k < 4 ->
  (forall j, j < k -> passes (response_at w servicePath args j) = true) ->
  response_at w servicePath args k = Exited code out ->
  code <> 0%Z ->
  exists w',
    execGitFlow servicePath args w = (Ok tt, w')
    /\ spawned w' = spawned w ++ firstn (S k) (steps servicePath args).
Proof.
  intros servicePath args w k code out Hk Hbefore Hresp Hcode.
  rewrite execGitFlow_flow.
  destruct (flow_until (checkout_call servicePath args)
              (combine (announcements args) (steps servicePath args)) w k Hk
              Hbefore)
    as (w' & Hf & Hs & _).
  { change (passes (response_at w servicePath args k) = false).
    rewrite Hresp. destruct code; [contradiction|reflexivity|reflexivity]. }
  exists w'.
  change (answer_at w _ _ k) with (response_at w servicePath args k) in Hf.
  rewrite Hresp in Hf. split; assumption.
Qed.

(** X9. A process ended by a signal does not end the flow: the next
    command is run all the same. *)
Theorem execGitFlow_goes_on_after_signal :
  forall servicePath args w k signal out,
  k < 3 ->
  (forall j, j < k -> passes (response_at w servicePath args j) = true) ->
  response_at w servicePath args k = Signalled signal out ->
  exists m,
    k + 2 <= m <= 4
    /\ spawned (snd (execGitFlow servicePath args w))
       = spawned w ++ firstn m (steps servicePath args).
Proof.
  intros servicePath args w k signal out Hk Hbefore Hresp.
  rewrite execGitFlow_flow.
  destruct (flow_prefix (checkout_call servicePath args)
              (combine (announcements args) (steps servicePath args)) w)
    as (m & Hm & _ & Hs & _ & Hlast).
  exists m. split; [|exact Hs]. cbn in Hm. split; [|exact Hm].
  destruct Hlast as [->|[Hm0 Hstop]]; [cbn; lia|].
  change (passes (response_at w servicePath args (m - 1)) = false) in Hstop.
  destruct (Nat.lt_ge_cases (m - 1) k) as [Hlt|Hge].
  - rewrite (Hbefore _ Hlt) in Hstop. discriminate.
  - destruct (Nat.eq_dec (m - 1) k) as [E|E]; [|lia].
    rewrite E, Hresp in Hstop. discriminate.
Qed.

(** X10. When a command of the flow cannot be started (no [git], no
    [npm]), the response has no error output to print, the flow throws a
    [TypeError], and [walkThroughFolders] ends there: the directories that
    follow are not visited. *)
Theorem walk_ends_when_not_spawned :
  forall args before servicePath following w w1 k err,
  walkThroughFolders before args w = (Ok tt, w1) ->
  k < 4 ->
  (forall j, j < k -> passes (response_at w1 servicePath args j) = true) ->
  response_at w1 servicePath args k = NotSpawned err ->
  exists w2,
    walkThroughFolders (before ++ servicePath :: following) args w
    = (Throw (TypeError "Cannot read property 'toString' of null"), w2)
    /\ spawned w2 = spawned w1 ++ firstn (S k) (steps servicePath args).
Proof.
  intros args before servicePath following w w1 k err Hpre Hk Hbefore Hresp.
  set (w1' := noted (chalk (String "010" "Service: " ++ servicePath)%string) w1).
  destruct (flow_until (checkout_call servicePath args)
              (combine (announcements args) (steps servicePath args)) w1' k Hk
              Hbefore)
    as (w2 & Hf & Hs & _).
  { change (passes (response_at w1 servicePath args k) = false).
    now rewrite Hresp. }
  change (answer_at w1' _ _ k) with (response_at w1 servicePath args k) in Hf.
  rewrite Hresp in Hf.
  exists w2. split; [|exact Hs].
  unfold walkThroughFolders. rewrite for_of_app.
  unfold bind at 1. fold (walkThroughFolders before args). rewrite Hpre.
  cbn [for_of]. unfold bind at 1 2, logger_log at 1. fold (noted (chalk (String "010" "Service: " ++ servicePath)%string) w1).
  fold w1'. rewrite execGitFlow_flow, Hf. reflexivity.
Qed.

Definition patch_on_master : Arguments :=
  {| branch := "master"; npmVersion := "patch" |}.

(** Operating systems for the examples: every process succeeds; the
    version bump fails; the pull is killed; [git] is not installed. *)
Definition all_succeed : World :=
  {| answer := fun _ _ => Exited 0 ""; spawned := []; logged := [] |}.

Definition dirty_tree : World :=
  {| answer := fun _ call =>
       if (command call =? "npm")%string
       then Exited 1 "npm ERR! Git working directory not clean."
       else Exited 0 "";
     spawned := []; logged := [] |}.

Definition pull_killed : World :=
  {| answer := fun _ call =>
       match args call with
       | ["pull"] => Signalled "SIGTERM" ""
       | _ => Exited 0 ""
       end;
     spawned := []; logged := [] |}.

Definition no_git : World :=
  {| answer := fun _ call =>
       if (command call =? "git")%string
       then NotSpawned (Error "spawnSync git ENOENT")
       else Exited 0 "";
     spawned := []; logged := [] |}.

Lemma execGitFlow_completes_witness :
  passes (response_at all_succeed "/srv/user" patch_on_master 3) = true
  /\ exists w',
       execGitFlow "/srv/user" patch_on_master all_succeed = (Ok tt, w')
       /\ spawned w' = [] ++ steps "/srv/user" patch_on_master
       /\ last (logged w') EmptyString = "Done!".
Proof.
  split; [reflexivity|].
  exact (execGitFlow_completes "/srv/user" patch_on_master all_succeed
           (fun j _ => eq_refl)).
Defined.

Lemma execGitFlow_stops_at_failure_witness :
  response_at dirty_tree "/srv/user" patch_on_master 2
  = Exited 1 "npm ERR! Git working directory not clean."
  /\ exists w',
       execGitFlow "/srv/user" patch_on_master dirty_tree = (Ok tt, w')
       /\ spawned w' = [] ++ firstn 3 (steps "/srv/user" patch_on_master).
Proof.
  split; [reflexivity|].
  refine (execGitFlow_stops_at_failure "/srv/user" patch_on_master dirty_tree 2 1
            "npm ERR! Git working directory not clean." _ _ eq_refl _).
  - lia.
  - intros [|[|j]] Hj; [reflexivity|reflexivity|lia].
  - discriminate.
Defined.

Lemma execGitFlow_goes_on_after_signal_witness :
  response_at pull_killed "/srv/user" patch_on_master 1 = Signalled "SIGTERM" ""
  /\ exists m,
       1 + 2 <= m <= 4
       /\ spawned (snd (execGitFlow "/srv/user" patch_on_master pull_killed))
          = [] ++ firstn m (steps "/srv/user" patch_on_master).
Proof.
  split; [reflexivity|].
  refine (execGitFlow_goes_on_after_signal "/srv/user" patch_on_master pull_killed
            1 "SIGTERM" "" _ _ eq_refl).
  - lia.
  - intros [|j] Hj; [reflexivity|lia].
Defined.

Lemma walk_ends_when_not_spawned_witness :
  response_at no_git "/srv/auth" patch_on_master 0
  = NotSpawned (Error "spawnSync git ENOENT")
  /\ exists w2,
       walkThroughFolders ([] ++ "/srv/auth" :: ["/srv/user"]) patch_on_master no_git
       = (Throw (TypeError "Cannot read property 'toString' of null"), w2)
       /\ spawned w2 = [] ++ firstn 1 (steps "/srv/auth" patch_on_master).
Proof.
  split; [reflexivity|].
  refine (walk_ends_when_not_spawned patch_on_master [] "/srv/auth" ["/srv/user"]
            no_git no_git 0 (Error "spawnSync git ENOENT") eq_refl _ _ eq_refl).
  - lia.
  - intros j Hj. lia.
Defined.

End GitFlowFacts.

(* ===================================================================== *)
(** ** Properties of the discovery of the service folders *)
(* ===================================================================== *)

Module DiscoveryFacts.
Import Js Discovery.
Local Open Scope js_scope.

(** The first export whose name includes [Service]. *)
Definition service_export (service : list (string * Exported))
  : option (string * Exported) :=
  find (fun e => includes "Service" (fst e)) service.

(** The folder can be entered, its module loads, and the first export
    whose name includes [Service] has a prototype named [IMQService]. *)
Definition is_service (w : World) (servicePath : string) : bool :=
  directories w servicePath
  && match modules w servicePath with
     | Some service =>
         match service_export service with
         | Some (_, Valued (Some name)) => (name =? BASE_SERVICE_NAME)%string
         | _ => false
         end
     | None => false
     end.

(** The part of the world the code does not change. *)
Definition same_disk (w w' : World) : Prop :=
  directories w' = directories w
  /\ modules w' = modules w
  /\ listing w' = listing w
  /\ ROOT_DIRECTORY w' = ROOT_DIRECTORY w.

Lemma first_service_export_spec service w :
  first_service_export service w
  = match service_export service with
    | None => (Ok None, w)
    | Some (_, Nullish) =>
        (Throw (TypeError "Cannot read property '__proto__' of undefined"), w)
    | Some (_, Valued proto_name) =>
        (Ok (Some (match proto_name with
                   | Some name => (name =? BASE_SERVICE_NAME)%string
                   | None => false
                   end)), w)
    end.
Proof.
  unfold service_export.
  induction service as [|[prop func] rest IH]; [reflexivity|].
  cbn [first_service_export find fst].
  destruct (includes "Service" prop); cbn [negb]; [|exact IH].
  destruct func; reflexivity.
Qed.

Ltac close_case :=
  repeat split;
  first [ reflexivity | congruence | intros; congruence ].

(** The complete behaviour of [isFolderContainsService]. *)
Lemma isFolderContainsService_spec servicePath w :
  exists w',
    isFolderContainsService servicePath w = (Ok (is_service w servicePath), w')
    /\ same_disk w w'
    /\ (forall service prop proto,
          directories w servicePath = true ->
          modules w servicePath = Some service ->
          service_export service = Some (prop, Valued proto) ->
          console_log w' = Silent /\ cwd w' = servicePath)
    /\ ((directories w servicePath = false
         \/ modules w servicePath = None
         \/ exists service,
              modules w servicePath = Some service
              /\ forall e, service_export service <> Some (fst e, Valued (snd e)))
        -> console_log w' = console_log w).
Proof.
  unfold isFolderContainsService, is_service, bind at 1, get.
  unfold bind at 1, try_catch, bind at 1, set_console_log, modify.
  unfold bind at 1, process_chdir. cbn [directories modules console_log].
  destruct (directories w servicePath) eqn:Hdir; cbn [andb].
  - unfold bind at 1, require. cbn [modules].
    destruct (modules w servicePath) as [service|] eqn:Hmod.
    + unfold bind at 1. rewrite first_service_export_spec.
      destruct (service_export service) as [[prop [|proto]]|] eqn:Hexp.
      * eexists. split; [reflexivity|]. unfold same_disk. cbn. close_case.
      * eexists. split; [reflexivity|]. unfold same_disk. cbn.
        repeat split; try reflexivity.
        intros [H|[H|(service' & [= <-] & H)]]; try discriminate.
        exfalso. apply (H (prop, proto)). exact Hexp.
      * unfold bind at 1, get, bind at 1, process_chdir.
        cbn [directories ROOT_DIRECTORY].
        destruct (directories w (ROOT_DIRECTORY w));
          (eexists; split; [reflexivity|]); unfold same_disk; cbn; close_case.
    + eexists. split; [reflexivity|]. unfold same_disk. cbn. close_case.
  - eexists. split; [reflexivity|]. unfold same_disk. cbn. close_case.
Qed.

Lemma service_export_first before prop value after :
  forallb (fun e => negb (includes "Service" (fst e))) before = true ->
  includes "Service" prop = true ->
  service_export (before ++ (prop, value) :: after) = Some (prop, value).
Proof.
  intros Hb Hp. unfold service_export.
  induction before as [|e before IH]; cbn.
  - now rewrite Hp.
  - cbn in Hb. apply andb_true_iff in Hb as [He Hb].
    apply negb_true_iff in He. rewrite He. apply IH, Hb.
Qed.

(** X11. [isFolderContainsService] never throws, and of the exports of the
    module it looks at one only: the first whose name includes [Service].
    The folder is a service exactly when the prototype of that export is
    named [IMQService]; the exports after it are not looked at. *)
Theorem first_service_export_decides :
  forall servicePath w before prop value after,
  directories w servicePath = true ->
  modules w servicePath = Some (before ++ (prop, value) :: after) ->
  forallb (fun e => negb (includes "Service" (fst e))) before = true ->
  includes "Service" prop = true ->
  fst (isFolderContainsService servicePath w)
  = Ok (match value with
        | Valued (Some name) => (name =? "IMQService")%string
        | _ => false
        end).
Proof.
  intros servicePath w before prop value after Hdir Hmod Hbefore Hprop.
  destruct (isFolderContainsService_spec servicePath w) as (w' & Hr & _).
  rewrite Hr. cbn [fst]. unfold is_service.
  rewrite Hdir, Hmod, (service_export_first _ _ _ _ Hbefore Hprop).
  destruct value as [|[name|]]; reflexivity.
Qed.

(** X12. When the loop of [isFolderContainsService] returns, that is when
    the first export whose name includes [Service] is neither [null] nor
    [undefined], the statements after the [try] block are skipped:
    [console.log] is left silenced and the process is left in the folder,
    whether the answer is [true] or [false]. *)
Theorem console_left_silent_after_return :
  forall servicePath w before prop proto after,
  directories w servicePath = true ->
  modules w servicePath = Some (before ++ (prop, Valued proto) :: after) ->
  forallb (fun e => negb (includes "Service" (fst e))) before = true ->
  includes "Service" prop = true ->
  let w' := snd (isFolderContainsService servicePath w) in
  console_log w' = Silent /\ cwd w' = servicePath.
Proof.
  intros servicePath w before prop proto after Hdir Hmod Hbefore Hprop.
  destruct (isFolderContainsService_spec servicePath w)
    as (w' & Hr & _ & Hsilent & _).
  rewrite Hr. cbn [snd].
  exact (Hsilent _ prop proto Hdir Hmod
           (service_export_first _ _ _ _ Hbefore Hprop)).
Qed.

Lemma is_service_same_disk w w' servicePath :
  same_disk w w' -> is_service w' servicePath = is_service w servicePath.
Proof.
  intros (Hd & Hm & _ & _). unfold is_service. now rewrite Hd, Hm.
Qed.

Lemma same_disk_trans w1 w2 w3 :
  same_disk w1 w2 -> same_disk w2 w3 -> same_disk w1 w3.
Proof.
  unfold same_disk. intros (A1 & A2 & A3 & A4) (B1 & B2 & B3 & B4).
  repeat split; congruence.
Qed.

Section Folders.

Variable resolve : string -> string.
Variable resolve_in : string -> string -> string.

Lemma scan_spec path dirs : forall folders w,
  exists w',
    scan resolve_in path dirs folders w
    = (Ok (folders ++ filter (is_service w) (map (resolve_in path) dirs)), w')
    /\ same_disk w w'.
Proof.
  induction dirs as [|dir rest IH]; intros folders w.
  - exists w. cbn. rewrite app_nil_r. unfold same_disk. tauto.
  - cbn [scan map filter]. unfold bind at 1.
    destruct (isFolderContainsService_spec (resolve_in path dir) w)
      as (w1 & Hr & Hdisk & _).
    rewrite Hr.
    destruct (IH (if is_service w (resolve_in path dir)
                  then push folders (resolve_in path dir) else folders) w1)
      as (w' & Hs & Hdisk').
    exists w'. split; [|exact (same_disk_trans _ _ _ Hdisk Hdisk')].
    rewrite Hs. f_equal. f_equal.
    rewrite (filter_ext _ _ (fun p => is_service_same_disk w w1 p Hdisk)).
    destruct (is_service w (resolve_in path dir)); unfold push;
      [rewrite <- app_assoc|]; reflexivity.
Qed.

(** X13. [getServicesFolders] returns the resolved path alone when it is a
    service folder, without listing it; otherwise it returns those entries
    of the listing that are service folders, in the order of the listing
    (plain files and folders without a loadable module are passed over),
    and throws only when the path cannot be listed. *)
Theorem getServicesFolders_result : forall path w,
  fst (getServicesFolders resolve resolve_in path w)
  = if is_service w (resolve path) then Ok [resolve path]
    else
      match listing w (resolve path) with
      | Some dirs =>
          Ok (filter (is_service w) (map (resolve_in (resolve path)) dirs))
      | None => Throw (Error "ENOENT: no such file or directory, scandir")
      end.
Proof.
  intros path w. unfold getServicesFolders, bind at 1.
  destruct (isFolderContainsService_spec (resolve path) w)
    as (w1 & Hr & Hdisk & _).
  rewrite Hr.
  destruct (is_service w (resolve path)); [reflexivity|].
  unfold bind, readdirSync.
  destruct Hdisk as (Hd & Hm & Hl & Hroot). rewrite Hl.
  destruct (listing w (resolve path)) as [dirs|]; [|reflexivity].
  destruct (scan_spec (resolve path) dirs [] w1) as (w' & Hs & _).
  rewrite Hs. cbn [fst app]. f_equal.
  apply filter_ext. intros p.
  apply is_service_same_disk. unfold same_disk. tauto.
Qed.

End Folders.

(** A disk with a service folder whose module exports a helper before the
    service class, and a folder whose first [...Service] export is not
    derived from the base class. *)
Definition sample_disk : World :=
  {| directories := fun p =>
       (p =? "/srv/user")%string || (p =? "/srv/mail")%string
       || (p =? "/srv")%string;
     modules := fun p =>
       if (p =? "/srv/user")%string then
         Some [ ("config", Valued None);
                ("UserService", Valued (Some "IMQService"));
                ("MockService", Valued (Some "")) ]
       else if (p =? "/srv/mail")%string then
         Some [ ("ServiceHelper", Valued (Some ""));
                ("MailService", Valued (Some "IMQService")) ]
       else None;
     listing := fun p =>
       if (p =? "/srv")%string then Some ["README.md"; "mail"; "user"]
       else None;
     ROOT_DIRECTORY := "/home/dev";
     cwd := "/home/dev";
     console_log := Printing |}.

Lemma first_service_export_decides_witness :
  fst (isFolderContainsService "/srv/user" sample_disk) = Ok true
  /\ fst (isFolderContainsService "/srv/mail" sample_disk) = Ok false.
Proof.
  split.
  - exact (first_service_export_decides "/srv/user" sample_disk
             [("config", Valued None)] "UserService"
             (Valued (Some "IMQService")) [("MockService", Valued (Some ""))]
             eq_refl eq_refl eq_refl eq_refl).
  - exact (first_service_export_decides "/srv/mail" sample_disk
             [] "ServiceHelper" (Valued (Some ""))
             [("MailService", Valued (Some "IMQService"))]
             eq_refl eq_refl eq_refl eq_refl).
Defined.

Lemma console_left_silent_after_return_witness :
  console_log sample_disk = Printing
  /\ console_log (snd (isFolderContainsService "/srv/mail" sample_disk)) = Silent
  /\ cwd (snd (isFolderContainsService "/srv/mail" sample_disk)) = "/srv/mail".
Proof.
  split; [reflexivity|].
  exact (console_left_silent_after_return "/srv/mail" sample_disk
           [] "ServiceHelper" (Some "")
           [("MailService", Valued (Some "IMQService"))]
           eq_refl eq_refl eq_refl eq_refl).
Defined.

Example getServicesFolders_sample :
  fst (getServicesFolders (fun p => p) (fun p d => (p ++ "/" ++ d)%string)
         "/srv" sample_disk)
  = Ok ["/srv/user"].
Proof. vm_compute. reflexivity. Qed.

End DiscoveryFacts.

(* ===================================================================== *)
(** ** Properties of the command [completions on] *)
(* ===================================================================== *)

Module CompletionsFacts.
Import Js Completions StringFacts.
Local Open Scope js_scope.

Lemma includes_unfold needle hay :
  Discovery.includes needle hay
  = match strip_prefix needle hay with
    | Some _ => true
    | None =>
        match hay with
        | EmptyString => false
        | String _ rest => Discovery.includes needle rest
        end
    end.
Proof. destruct hay; reflexivity. Qed.

Lemma includes_here needle rest :
  Discovery.includes needle (needle ++ rest) = true.
Proof.
  rewrite includes_unfold.
  now rewrite (proj2 (strip_prefix_Some needle (needle ++ rest) rest) eq_refl).
Qed.

Lemma includes_app needle before hay :
  Discovery.includes needle hay = true ->
  Discovery.includes needle (before ++ hay) = true.
Proof.
  intros H. induction before as [|c before IH]; [exact H|].
  cbn [append]. rewrite includes_unfold.
  destruct (strip_prefix needle _); [reflexivity|exact IH].
Qed.

Section Handler.

Variable PROGRAM : string.
Variable resolve : string -> string.
Variable RegExp : string -> result (string -> bool).

(** The script added for the shell the environment shows. *)
Definition zshScript (w : World) : string :=
  if existsb starts_with_ZSH (env_keys w)
  then ("autoload bashcompinit" ++ nl ++ "bashcompinit")%string
  else EmptyString.

(** The file the handler reads and extends. *)
Definition rcFile (w : World) : string :=
  resolve (if truthy (zshScript w) then "~/.zshrc" else "~/.bashrc").

Lemma script_includes_marker text z :
  Discovery.includes (marker PROGRAM) (text ++ script PROGRAM z) = true.
Proof.
  apply includes_app. unfold script.
  match goal with
  | |- context [ (nl ++ marker PROGRAM ++ ?rest)%string ] =>
      change (nl ++ marker PROGRAM ++ rest)%string
        with (String "010" (marker PROGRAM ++ rest))
  end.
  rewrite includes_unfold.
  destruct (strip_prefix _ _); [reflexivity|].
  apply includes_here.
Qed.

(** The environment is left as it was, and the only change a run can make
    to the files is the script added at the end of the file it read. *)
Lemma handler_files touch w :
  let w' := snd (handler PROGRAM resolve touch RegExp w) in
  env_keys w' = env_keys w
  /\ files w'
     = match files w (rcFile w), RegExp (marker PROGRAM) with
       | Some text, Ok rxExist =>
           if rxExist text then files w
           else fun f =>
                  if (f =? rcFile w)%string
                  then Some (text ++ script PROGRAM (zshScript w))%string
                  else files w f
       | _, _ => files w
       end.
Proof.
  intros w'. subst w'.
  unfold handler, bind, get, try_catch, read, new_RegExp, exists_. cbv beta.
  fold (zshScript w). fold (rcFile w).
  destruct (files w (rcFile w)) as [text|] eqn:Hrc; cbv beta iota;
    [|split; reflexivity].
  destruct (RegExp (marker PROGRAM)) as [rxExist|err]; cbv beta iota;
    [|split; reflexivity].
  rewrite Hrc.
  destruct (rxExist text); cbn [negb]; cbv beta iota; [split; reflexivity|].
  unfold append, modify, stdout_write. cbn. rewrite Hrc. split; reflexivity.
Qed.

(** X14. When the pattern built from the program name matches every text
    that holds the begin marker, running the [completions on] handler a
    second time changes no file: the script it adds holds the begin marker
    it looks for, so the script is added at most once. *)
Theorem handler_adds_script_once : forall touch w,
  (forall rxExist text,
     RegExp (marker PROGRAM) = Ok rxExist ->
     Discovery.includes (marker PROGRAM) text = true ->
     rxExist text = true) ->
  let w1 := snd (handler PROGRAM resolve touch RegExp w) in
  files (snd (handler PROGRAM resolve touch RegExp w1)) = files w1.
Proof.
  intros touch w Hrx w1.
  destruct (handler_files touch w) as [Henv Hfiles]. fold w1 in Henv, Hfiles.
  destruct (handler_files touch w1) as [_ Hfiles1].
  rewrite Hfiles1.
  assert (Hz : zshScript w1 = zshScript w) by (unfold zshScript; now rewrite Henv).
  assert (Hr : rcFile w1 = rcFile w) by (unfold rcFile; now rewrite Hz).
  rewrite Hr, Hz.
  destruct (RegExp (marker PROGRAM)) as [rxExist|err] eqn:Hre.
  - destruct (files w (rcFile w)) as [text|] eqn:Hrc.
    + destruct (rxExist text) eqn:Hinc.
      * rewrite Hfiles, Hrc, Hinc. reflexivity.
      * assert (Hat : files w1 (rcFile w)
                      = Some (text ++ script PROGRAM (zshScript w))%string)
          by (rewrite Hfiles; now rewrite String.eqb_refl).
        rewrite Hat.
        now rewrite (Hrx rxExist _ eq_refl (script_includes_marker text _)).
    + rewrite Hfiles, Hrc. reflexivity.
  - destruct (files w1 (rcFile w)); reflexivity.
Qed.

(** X15. The handler reads the file before it asks whether the file
    exists: [touch] is never called, and when the file is missing no file
    is created or changed, nothing goes to the standard output, and the
    message of the read error goes to the standard error. *)
Theorem handler_never_creates : forall touch touch' w,
  handler PROGRAM resolve touch RegExp w
  = handler PROGRAM resolve touch' RegExp w
  /\ (files w (rcFile w) = None ->
      let w' := snd (handler PROGRAM resolve touch RegExp w) in
      files w' = files w
      /\ stdout w' = stdout w
      /\ stderr w'
         = stderr w
           ++ [("ENOENT: no such file or directory, open '"
                ++ rcFile w ++ "'")%string]).
Proof.
  intros touch touch' w. split.
  - unfold handler, bind, get, try_catch, read, new_RegExp, exists_.
    cbv beta. fold (zshScript w). fold (rcFile w).
    destruct (files w (rcFile w)) as [text|] eqn:Hrc; cbv beta iota;
      [|reflexivity].
    destruct (RegExp (marker PROGRAM)) as [rxExist|err]; cbv beta iota;
      [|reflexivity].
    rewrite Hrc. reflexivity.
  - intros Hrc w'. subst w'.
    assert (Hrun : handler PROGRAM resolve touch RegExp w
                   = (Ok tt,
                      {| files := files w; env_keys := env_keys w;
                         stdout := stdout w;
                         stderr := stderr w
                           ++ [("ENOENT: no such file or directory, open '"
                                ++ rcFile w ++ "'")%string] |})).
    { unfold handler, bind, get, try_catch, read, new_RegExp, exists_.
      cbv beta. fold (zshScript w). fold (rcFile w). rewrite Hrc.
      reflexivity. }
    rewrite Hrun. repeat split.
Qed.

End Handler.

(** The patterns of a program name of letters: the test that the text
    includes the pattern. *)
Definition literal_RegExp (pattern : string) : result (string -> bool) :=
  Ok (Discovery.includes pattern).

Definition home (name : string) : string :=
  match strip_prefix "~" name with
  | Some rest => ("/home/dev" ++ rest)%string
  | None => name
  end.

(** A bash user whose [.bashrc] has no completion script yet, and a user
    without a [.bashrc]. *)
Definition bash_user : World :=
  {| files := fun f =>
       if (f =? "/home/dev/.bashrc")%string
       then Some ("export EDITOR=vi" ++ nl)%string
       else None;
     env_keys := ["HOME"; "PATH"; "SHELL"];
     stdout := []; stderr := [] |}.

Definition no_rc_file : World :=
  {| files := fun _ => None;
     env_keys := ["HOME"; "PATH"; "SHELL"];
     stdout := []; stderr := [] |}.

Definition no_touch (_ _ : string) : M World unit := ret tt.

Lemma handler_adds_script_once_witness :
  files (snd (handler "imq" home no_touch literal_RegExp bash_user))
        "/home/dev/.bashrc"
  = Some ("export EDITOR=vi" ++ nl ++ script "imq" "")%string
  /\ files (snd (handler "imq" home no_touch literal_RegExp
                   (snd (handler "imq" home no_touch literal_RegExp bash_user))))
     = files (snd (handler "imq" home no_touch literal_RegExp bash_user)).
Proof.
  split; [vm_compute; reflexivity|].
  apply (handler_adds_script_once "imq" home literal_RegExp no_touch bash_user).
  intros rxExist text Hrx Hinc. injection Hrx as <-. exact Hinc.
Defined.

Lemma handler_never_creates_witness :
  files no_rc_file (rcFile home no_rc_file) = None
  /\ files (snd (handler "imq" home no_touch literal_RegExp no_rc_file))
     = files no_rc_file
  /\ stderr (snd (handler "imq" home no_touch literal_RegExp no_rc_file))
     = ["ENOENT: no such file or directory, open '/home/dev/.bashrc'"].
Proof.
  split; [reflexivity|].
  destruct (proj2 (handler_never_creates "imq" home literal_RegExp
                     no_touch no_touch no_rc_file) eq_refl)
    as (Hfiles & _ & Herr).
  split; [exact Hfiles|exact Herr].
Defined.

End CompletionsFacts.

(* ===================================================================== *)
(** ** Further properties of the template compilation *)
(* ===================================================================== *)

Module TemplateMore.
Import Js Create TemplateFacts.
Local Open Scope js_scope.









End TemplateMore.

(* ===================================================================== *)
(** ** Properties of the service without docker *)
(* ===================================================================== *)

Module DockerFacts.
Import Js Create Docker StringFacts TemplateFacts.
Local Open Scope js_scope.

(** *** The text cut from [.travis.yml] *)

Lemma strip_services_cons c rest :
  strip_services (String c rest)
  = match strip_prefix "services:" (String c rest) with
    | Some (String _ _) => EmptyString
    | _ => String c (strip_services rest)
    end.
Proof. reflexivity. Qed.

Lemma strip_services_absent s :
  absent "services:" s -> strip_services s = s.
Proof.
  induction s as [|c rest IH]; intros Ha; [reflexivity|].
  rewrite strip_services_cons.
  destruct (strip_prefix "services:" (String c rest)) as [after|] eqn:E.
  - exfalso. apply strip_prefix_Some in E.
    apply (Ha ""). exists after. exact E.
  - rewrite IH; [reflexivity|].
    intros pre [post Hpost]. apply (Ha (String c pre)).
    exists post. cbn. now rewrite Hpost.
Qed.

Lemma absent_short p s : String.length s < String.length p -> absent p s.
Proof.
  intros Hlen pre [post E].
  apply (f_equal String.length) in E. rewrite !length_append in E. lia.
Qed.

Lemma first_occurrence_tail p c s pre post :
  strip_prefix p (String c s) = None ->
  first_occurrence p (String c s) pre post ->
  exists pre', pre = String c pre' /\ first_occurrence p s pre' post.
Proof.
  intros Hn [E M]. destruct pre as [|c' pre'].
  - exfalso. exact (strip_prefix_None _ _ _ Hn E).
  - cbn in E. injection E as <- E. exists pre'. split; [reflexivity|].
    split; [exact E|].
    intros pre'' [post'' E''].
    assert (Hle : String.length (String c pre') <= String.length (String c pre'')).
    { apply M. exists post''. cbn. now rewrite E''. }
    cbn in Hle. lia.
Qed.

Lemma strip_services_first : forall s pre post,
  first_occurrence "services:" s pre post ->
  strip_services s = match post with EmptyString => s | String _ _ => pre end.
Proof.
  induction s as [|c rest IH]; intros pre post F.
  - exfalso. destruct F as [E _]. destruct pre; discriminate.
  - rewrite strip_services_cons.
    destruct (strip_prefix "services:" (String c rest)) as [after|] eqn:E.
    + pose proof E as E'. apply strip_prefix_Some in E'.
      assert (F' : first_occurrence "services:" (String c rest) "" after).
      { rewrite E'. apply first_occurrence_here. }
      destruct (first_occurrence_unique _ _ _ _ _ _ F F') as [-> ->].
      destruct after as [|a after]; [|reflexivity].
      rewrite strip_services_absent; [reflexivity|].
      apply absent_short. apply (f_equal String.length) in E'.
      cbn in E'. cbn. lia.
    + destruct (first_occurrence_tail _ _ _ _ _ E F) as (pre' & -> & F').
      rewrite (IH _ _ F'). destruct post; reflexivity.
Qed.

Lemma occurrence_cases p s :
  absent p s \/ exists pre post, first_occurrence p s pre post.
Proof.
  destruct (literal_replace_first_spec p "" s) as [[Ha _]|(pre & post & F & _)].
  - left. exact Ha.
  - right. exists pre, post. exact F.
Qed.

Lemma absent_before_first p s pre post :
  p <> EmptyString -> first_occurrence p s pre post -> absent p pre.
Proof.
  intros Hp [E M] pre' [post' E'].
  assert (Hle : String.length pre <= String.length pre').
  { apply M. exists (post' ++ p ++ post)%string.
    rewrite E, E'. now rewrite !append_assoc. }
  apply (f_equal String.length) in E'. rewrite !length_append in E'.
  destruct p; [now apply Hp|]. cbn in E'. lia.
Qed.

Lemma strip_services_idempotent s :
  strip_services (strip_services s) = strip_services s.
Proof.
  destruct (occurrence_cases "services:" s) as [Ha|(pre & post & F)].
  - now rewrite !(strip_services_absent s Ha).
  - rewrite (strip_services_first _ _ _ F).
    destruct post as [|a post].
    + now rewrite (strip_services_first _ _ _ F).
    + apply strip_services_absent.
      apply (absent_before_first "services:" _ _ _ ltac:(discriminate) F).
Qed.

(** X17. The text written back to [.travis.yml] ends right before the
    first [services:] of the text read, when some character follows that
    [services:]; a text whose first [services:] is its very end is written
    back whole, as is a text without [services:]. *)
Theorem strip_services_cuts_at_first : forall s pre post,
  first_occurrence "services:" s pre post ->
  strip_services s = (if (post =? "")%string then s else pre)
  /\ absent "services:" pre.
Proof.
  intros s pre post F. split.
  - rewrite (strip_services_first _ _ _ F). destruct post; reflexivity.
  - apply (absent_before_first "services:" _ _ _ ltac:(discriminate) F).
Qed.

Lemma strip_services_cuts_at_first_witness :
  strip_services ("language: node_js" ++ "services:" ++ " docker")
  = "language: node_js"
  /\ strip_services ("language: node_js" ++ "services:" ++ "")
     = "language: node_jsservices:".
Proof.
  split.
  - refine (proj1 (strip_services_cuts_at_first _ "language: node_js" " docker" _)).
    repeat (apply first_occurrence_cons; [reflexivity|]).
    apply (first_occurrence_here "services:" " docker").
  - refine (proj1 (strip_services_cuts_at_first _ "language: node_js" "" _)).
    repeat (apply first_occurrence_cons; [reflexivity|]).
    apply (first_occurrence_here "services:" "").
Defined.

(** *** The directory of the service *)

Lemma update_at p f : forall n d,
  lookup p n = Some d -> update p f n = update p (fun _ => f d) n.
Proof.
  induction p as [|x p IH]; intros n d; cbn.
  - intros [= ->]. reflexivity.
  - destruct n as [c|es]; [reflexivity|].
    destruct (assoc x es) as [child|] eqn:E; [|discriminate].
    intros H. f_equal. clear -E H IH.
    induction es as [|[y m] es IHes]; cbn in *; [reflexivity|].
    destruct (y =? x)%string.
    + injection E as ->. now rewrite (IH _ _ H).
    + now rewrite IHes.
Qed.

Lemma update_entry_at x f es n :
  assoc x es = Some n ->
  update_entry x f es = update_entry x (fun _ => f n) es.
Proof.
  induction es as [|[y m] es IH]; cbn; [reflexivity|].
  destruct (y =? x)%string.
  - intros [= ->]. reflexivity.
  - intros H. now rewrite IH.
Qed.

Lemma update_entry_absent x f es :
  assoc x es = None -> update_entry x f es = es.
Proof.
  induction es as [|[y m] es IH]; cbn; [reflexivity|].
  destruct (y =? x)%string; [discriminate|].
  intros H. now rewrite IH.
Qed.

Lemma drop_entry_absent x es : assoc x es = None -> drop_entry x es = es.
Proof.
  induction es as [|[y m] es IH]; cbn; [reflexivity|].
  destruct (y =? x)%string; [discriminate|].
  intros H. now rewrite IH.
Qed.

Lemma assoc_update_entry_other x y f es :
  x <> y -> assoc x (update_entry y f es) = assoc x es.
Proof.
  intros Hxy. induction es as [|[z m] es IH]; cbn; [reflexivity|].
  destruct (z =? y)%string eqn:Ey; cbn.
  - apply String.eqb_eq in Ey. subst z.
    destruct (y =? x)%string eqn:Ex; [|reflexivity].
    apply String.eqb_eq in Ex. now subst.
  - destruct (z =? x)%string; [reflexivity|exact IH].
Qed.

Lemma assoc_drop_entry_other x y es :
  x <> y -> assoc x (drop_entry y es) = assoc x es.
Proof.
  intros Hxy. induction es as [|[z m] es IH]; cbn; [reflexivity|].
  destruct (z =? y)%string eqn:Ey; cbn.
  - apply String.eqb_eq in Ey. subst z.
    destruct (y =? x)%string eqn:Ex; [|reflexivity].
    apply String.eqb_eq in Ex. now subst.
  - destruct (z =? x)%string; [reflexivity|exact IH].
Qed.

Lemma assoc_fresh x es :
  existsb (String.eqb x) (map fst es) = false -> assoc x es = None.
Proof.
  induction es as [|[y m] es IH]; cbn; [reflexivity|].
  rewrite (String.eqb_sym x y).
  destruct (y =? x)%string; [discriminate|exact IH].
Qed.

Lemma assoc_drop_entry_same x es :
  names_distinct (map fst es) = true -> assoc x (drop_entry x es) = None.
Proof.
  induction es as [|[y m] es IH]; cbn; [reflexivity|].
  intros H. apply andb_true_iff in H as [Hy Hes].
  destruct (y =? x)%string eqn:E; cbn.
  - apply String.eqb_eq in E. subst y.
    apply assoc_fresh. now apply negb_true_iff.
  - rewrite E. apply IH, Hes.
Qed.

Lemma map_fst_update_entry x f es :
  map fst (update_entry x f es) = map fst es.
Proof.
  induction es as [|[y m] es IH]; cbn; [reflexivity|].
  destruct (y =? x)%string; cbn; [reflexivity|now rewrite IH].
Qed.

Lemma filter_fresh x names :
  existsb (String.eqb x) names = false ->
  filter (fun y => negb (y =? x)%string) names = names.
Proof.
  induction names as [|y names IH]; cbn; [reflexivity|].
  rewrite (String.eqb_sym x y).
  destruct (y =? x)%string; [discriminate|]. cbn.
  intros H. now rewrite IH.
Qed.

Lemma map_fst_drop_entry x es :
  names_distinct (map fst es) = true ->
  map fst (drop_entry x es)
  = filter (fun y => negb (y =? x)%string) (map fst es).
Proof.
  induction es as [|[y m] es IH]; cbn; [reflexivity|].
  intros H. apply andb_true_iff in H as [Hy Hes].
  destruct (y =? x)%string eqn:E; cbn.
  - apply String.eqb_eq in E. subst y.
    symmetry. apply filter_fresh. now apply negb_true_iff.
  - now rewrite IH.
Qed.

Lemma existsb_filter x (keep : string -> bool) names :
  existsb (String.eqb x) names = false ->
  existsb (String.eqb x) (filter keep names) = false.
Proof.
  induction names as [|y names IH]; cbn; [reflexivity|].
  intros H. apply orb_false_iff in H as [Hxy Hn].
  destruct (keep y); cbn; [rewrite Hxy|]; now apply IH.
Qed.

Lemma names_distinct_filter (keep : string -> bool) names :
  names_distinct names = true -> names_distinct (filter keep names) = true.
Proof.
  induction names as [|y names IH]; cbn; [reflexivity|].
  intros H. apply andb_true_iff in H as [Hy Hn].
  destruct (keep y); cbn; [|now apply IH].
  apply andb_true_iff. split; [|now apply IH].
  apply negb_true_iff, existsb_filter. now apply negb_true_iff.
Qed.

(** Two listings with the same distinct names, in the same order, and the
    same node under every name are the same listing. *)
Lemma entries_ext : forall a b : list (string * node),
  names_distinct (map fst a) = true ->
  map fst a = map fst b ->
  (forall x, assoc x a = assoc x b) ->
  a = b.
Proof.
  induction a as [|[x n] a IH]; intros [|[y m] b] Hd Hn Ha;
    try discriminate; [reflexivity|].
  cbn in Hn. injection Hn as -> Hn.
  cbn in Hd. apply andb_true_iff in Hd as [Hy Hd].
  apply negb_true_iff in Hy.
  pose proof (Ha y) as Hy'. cbn in Hy'. rewrite String.eqb_refl in Hy'.
  injection Hy' as ->. f_equal.
  apply IH; [exact Hd|exact Hn|].
  intros x. destruct (String.eqb_spec y x) as [->|Hne].
  - rewrite (assoc_fresh x a Hy).
    symmetry. apply assoc_fresh. now rewrite <- Hn.
  - pose proof (Ha x) as Hx. cbn in Hx.
    apply String.eqb_neq in Hne. now rewrite Hne in Hx.
Qed.

(** The steps of [stripDockerization] in a directory [p] listing [es]. *)
Lemma lookup_entry p fs es x :
  lookup p fs = Some (Dir es) -> lookup (resolve p x) fs = assoc x es.
Proof.
  intros H. unfold resolve. rewrite lookup_app, H. cbn.
  destruct (assoc x es); reflexivity.
Qed.

Lemma update_listing p fs es es' :
  lookup p fs = Some (Dir es) ->
  lookup p (update p (fun _ => Dir es') fs) = Some (Dir es').
Proof. intros H. now rewrite lookup_update, H. Qed.

Lemma update_listing_twice p fs es es' :
  update p (fun _ => Dir es') (update p (fun _ => Dir es) fs)
  = update p (fun _ => Dir es') fs.
Proof. now rewrite update_twice. Qed.

Lemma writeFileSync_entry p fs es x old content :
  lookup p fs = Some (Dir es) ->
  assoc x es = Some (File old) ->
  writeFileSync (resolve p x) content fs
  = (Ok tt, update p (fun _ => Dir (update_entry x (fun _ => File content) es)) fs).
Proof.
  intros H Hx. unfold writeFileSync.
  rewrite (lookup_entry _ _ _ x H), Hx.
  unfold resolve. rewrite update_app, (update_at _ _ _ _ H). reflexivity.
Qed.

Lemma unlinkSync_entry p fs es x old :
  lookup p fs = Some (Dir es) ->
  assoc x es = Some (File old) ->
  unlinkSync (resolve p x) fs
  = (Ok tt, update p (fun _ => Dir (drop_entry x es)) fs).
Proof.
  intros H Hx. unfold unlinkSync.
  rewrite (lookup_entry _ _ _ x H), Hx.
  unfold resolve. rewrite removelast_last, last_last.
  now rewrite (update_at _ _ _ _ H).
Qed.

(** No directory stands where [stripDockerization] expects a file. *)
Definition regular (es : list (string * node)) (x : string) : Prop :=
  forall d, assoc x es <> Some (Dir d).

Definition cut (n : node) : node :=
  match n with
  | File text => File (strip_services text)
  | Dir es => Dir es
  end.

(** The listing [stripDockerization] leaves. *)
Definition stripped (es : list (string * node)) : list (string * node) :=
  drop_entry ".dockerignore"
    (drop_entry "Dockerfile" (update_entry ".travis.yml" cut es)).

Lemma unlink_stage p fs es x :
  lookup p fs = Some (Dir es) ->
  regular es x ->
  (found <- existsSync (resolve p x) ;;
   if found then unlinkSync (resolve p x) else ret tt) fs
  = (Ok tt, update p (fun _ => Dir (drop_entry x es)) fs).
Proof.
  intros H Hx. unfold bind, existsSync at 1.
  rewrite (lookup_entry _ _ _ x H).
  destruct (assoc x es) as [[old|d]|] eqn:E.
  - apply (unlinkSync_entry _ _ _ _ old H E).
  - now destruct (Hx d).
  - rewrite (drop_entry_absent _ _ E), (update_same _ _ _ H). reflexivity.
Qed.

Lemma travis_stage p fs es :
  lookup p fs = Some (Dir es) ->
  regular es ".travis.yml" ->
  (found <- existsSync (resolve p ".travis.yml") ;;
   if found then
     travisYml <- readFileSync (resolve p ".travis.yml") ;;
     writeFileSync (resolve p ".travis.yml") (strip_services travisYml)
   else ret tt) fs
  = (Ok tt, update p (fun _ => Dir (update_entry ".travis.yml" cut es)) fs).
Proof.
  intros H Hx. unfold bind, existsSync at 1, readFileSync.
  rewrite !(lookup_entry _ _ _ ".travis.yml" H).
  destruct (assoc ".travis.yml" es) as [[old|d]|] eqn:E; cbv beta iota.
  - rewrite (lookup_entry _ _ _ ".travis.yml" H), E.
    rewrite (writeFileSync_entry _ _ _ _ old _ H E).
    now rewrite (update_entry_at _ cut _ _ E).
  - now destruct (Hx d).
  - rewrite (update_entry_absent _ _ _ E), (update_same _ _ _ H). reflexivity.
Qed.

Lemma regular_update_entry es x y f :
  x <> y -> regular es x -> regular (update_entry y f es) x.
Proof. intros Hxy Hx d. rewrite assoc_update_entry_other; auto. Qed.

Lemma regular_drop_entry es x y :
  x <> y -> regular es x -> regular (drop_entry y es) x.
Proof. intros Hxy Hx d. rewrite assoc_drop_entry_other; auto. Qed.

Lemma stripDockerization_run p fs es :
  lookup p fs = Some (Dir es) ->
  regular es ".travis.yml" ->
  regular es "Dockerfile" ->
  regular es ".dockerignore" ->
  stripDockerization p fs
  = (Ok tt, update p (fun _ => Dir (stripped es)) fs).
Proof.
  intros H Ht Hd Hi.
  pose proof (travis_stage p fs es H Ht) as S1.
  set (es1 := update_entry ".travis.yml" cut es) in *.
  set (fs1 := update p (fun _ => Dir es1) fs) in *.
  assert (H1 : lookup p fs1 = Some (Dir es1))
    by apply (update_listing _ _ _ _ H).
  assert (Hd1 : regular es1 "Dockerfile")
    by (apply regular_update_entry; [discriminate|exact Hd]).
  assert (Hi1 : regular es1 ".dockerignore")
    by (apply regular_update_entry; [discriminate|exact Hi]).
  pose proof (unlink_stage p fs1 es1 "Dockerfile" H1 Hd1) as S2.
  set (es2 := drop_entry "Dockerfile" es1) in *.
  set (fs2 := update p (fun _ => Dir es2) fs1) in *.
  assert (H2 : lookup p fs2 = Some (Dir es2))
    by apply (update_listing _ _ _ _ H1).
  assert (Hi2 : regular es2 ".dockerignore")
    by (apply regular_drop_entry; [discriminate|exact Hi1]).
  pose proof (unlink_stage p fs2 es2 ".dockerignore" H2 Hi2) as S3.
  unfold stripDockerization.
  unfold bind in S1, S2, S3 |- *.
  destruct (existsSync (resolve p ".travis.yml") fs) as [[found|e] fs'];
    [|discriminate].
  rewrite S1.
  destruct (existsSync (resolve p "Dockerfile") fs1) as [[found1|e] fs1'];
    [|discriminate].
  rewrite S2.
  rewrite S3. unfold stripped, fs2, fs1.
  now rewrite !update_listing_twice.
Qed.

(** The names [stripDockerization] leaves in the directory. *)
Definition kept (x : string) : bool :=
  negb (x =? "Dockerfile")%string && negb (x =? ".dockerignore")%string.

Lemma filter_kept names :
  filter (fun y => negb (y =? ".dockerignore")%string)
    (filter (fun y => negb (y =? "Dockerfile")%string) names)
  = filter kept names.
Proof.
  induction names as [|y names IH]; cbn; [reflexivity|].
  unfold kept at 1.
  destruct (y =? "Dockerfile")%string; cbn; [exact IH|].
  destruct (y =? ".dockerignore")%string; cbn; [exact IH|now rewrite IH].
Qed.

Lemma stripped_names es :
  names_distinct (map fst es) = true ->
  map fst (stripped es) = filter kept (map fst es).
Proof.
  intros H. unfold stripped.
  rewrite map_fst_drop_entry.
  - rewrite map_fst_drop_entry by now rewrite map_fst_update_entry.
    rewrite map_fst_update_entry. apply filter_kept.
  - rewrite map_fst_drop_entry by now rewrite map_fst_update_entry.
    rewrite map_fst_update_entry. now apply names_distinct_filter.
Qed.

Lemma stripped_assoc es x :
  names_distinct (map fst es) = true ->
  assoc x (stripped es)
  = if kept x
    then if (x =? ".travis.yml")%string
         then option_map cut (assoc x es)
         else assoc x es
    else None.
Proof.
  intros H. unfold stripped, kept.
  destruct (String.eqb_spec x ".dockerignore") as [->|Hi]; cbn.
  { apply assoc_drop_entry_same.
    rewrite map_fst_drop_entry by now rewrite map_fst_update_entry.
    rewrite map_fst_update_entry. now apply names_distinct_filter. }
  rewrite assoc_drop_entry_other by exact Hi.
  destruct (String.eqb_spec x "Dockerfile") as [->|Hd]; cbn.
  { apply assoc_drop_entry_same. now rewrite map_fst_update_entry. }
  rewrite assoc_drop_entry_other by exact Hd.
  destruct (String.eqb_spec x ".travis.yml") as [->|Ht].
  - apply assoc_update_entry.
  - now apply assoc_update_entry_other.
Qed.


Lemma stripped_twice es :
  names_distinct (map fst es) = true -> stripped (stripped es) = stripped es.
Proof.
  intros Hn.
  assert (Hn' : names_distinct (map fst (stripped es)) = true).
  { rewrite stripped_names by exact Hn. now apply names_distinct_filter. }
  symmetry. apply entries_ext; [exact Hn'| |].
  - rewrite (stripped_names _ Hn'), (stripped_names _ Hn).
    clear. induction (map fst es) as [|y names IH]; cbn; [reflexivity|].
    destruct (kept y) eqn:E; cbn; [rewrite E; now rewrite <- IH|exact IH].
  - intros x. rewrite (stripped_assoc _ x Hn'), (stripped_assoc _ x Hn).
    destruct (kept x); [|reflexivity].
    destruct (x =? ".travis.yml")%string; [|reflexivity].
    destruct (assoc x es) as [[text|d]|]; cbn; [|reflexivity|reflexivity].
    now rewrite strip_services_idempotent.
Qed.

(** X19. Stripping a directory that has been stripped changes nothing. *)
Theorem stripDockerization_idempotent : forall p fs es fs1,
  lookup p fs = Some (Dir es) ->
  names_distinct (map fst es) = true ->
  regular es ".travis.yml" ->
  regular es "Dockerfile" ->
  regular es ".dockerignore" ->
  stripDockerization p fs = (Ok tt, fs1) ->
  stripDockerization p fs1 = (Ok tt, fs1).
Proof.
  intros p fs es fs1 H Hn Ht Hd Hi Hrun.
  rewrite (stripDockerization_run _ _ _ H Ht Hd Hi) in Hrun.
  injection Hrun as <-.
  assert (H1 : lookup p (update p (fun _ => Dir (stripped es)) fs)
               = Some (Dir (stripped es)))
    by apply (update_listing _ _ _ _ H).
  assert (Hreg : forall x, regular es x -> regular (stripped es) x).
  { intros x Hx d. rewrite (stripped_assoc _ x Hn).
    destruct (kept x); [|discriminate].
    destruct (x =? ".travis.yml")%string; [|apply Hx].
    destruct (assoc x es) as [[text|d']|] eqn:E; cbn; try discriminate.
    now destruct (Hx d'). }
  rewrite (stripDockerization_run _ _ _ H1 (Hreg _ Ht) (Hreg _ Hd) (Hreg _ Hi)).
  rewrite update_listing_twice, (stripped_twice _ Hn). reflexivity.
Qed.

(** A service copied from the template, with its docker files. *)
Definition dockerized_service : node :=
  Dir [ ("services",
         Dir [ ("user",
                Dir [ ("Dockerfile", File "FROM node:lts");
                      (".travis.yml",
                       File "language: node_js services: - docker");
                      ("package.json", File "{}");
                      (".dockerignore", File "node_modules") ]) ]) ].

Definition plain_service : node :=
  Dir [ ("services",
         Dir [ ("user",
                Dir [ (".travis.yml", File "language: node_js ");
                      ("package.json", File "{}") ]) ]) ].


Lemma stripDockerization_idempotent_witness :
  stripDockerization ["services"; "user"] plain_service = (Ok tt, plain_service).
Proof.
  apply (stripDockerization_idempotent ["services"; "user"] dockerized_service
           [ ("Dockerfile", File "FROM node:lts");
             (".travis.yml", File "language: node_js services: - docker");
             ("package.json", File "{}");
             (".dockerignore", File "node_modules") ]
           plain_service eq_refl eq_refl
           ltac:(intros d; discriminate) ltac:(intros d; discriminate)
           ltac:(intros d; discriminate)).
  vm_compute. reflexivity.
Defined.

End DockerFacts.

(* ===================================================================== *)
(** ** Properties of the node versions of the CI builds *)
(* ===================================================================== *)

Module TravisTagsFacts.
Import Js TravisTags.
Local Open Scope js_scope.

(** A text without white space and comma. *)
Definition clean (t : string) : bool :=
  string_forallb (fun c => negb (is_separator c)) t.

Lemma clean_app a b : clean (a ++ b) = clean a && clean b.
Proof.
  induction a as [|c a IH]; [reflexivity|].
  cbn. unfold clean in IH. now rewrite IH, andb_assoc.
Qed.

Lemma separator_length_cons c rest :
  separator_length (String c rest)
  = if is_separator c then S (spaces rest) else 0.
Proof. reflexivity. Qed.

Lemma split_from_cons skip piece c rest :
  split_from skip piece (String c rest)
  = match skip with
    | S k => split_from k piece rest
    | O =>
        if is_separator c then piece :: split_from (spaces rest) "" rest
        else split_from 0 (piece ++ String c "") rest
    end.
Proof.
  destruct skip; [|reflexivity].
  cbn [split_from]. rewrite separator_length_cons.
  destruct (is_separator c); reflexivity.
Qed.

Lemma split_from_clean : forall s skip piece,
  clean piece = true ->
  Forall (fun t => clean t = true) (split_from skip piece s).
Proof.
  induction s as [|c rest IH]; intros skip piece Hp.
  - constructor; [exact Hp|constructor].
  - rewrite split_from_cons. destruct skip as [|k]; [|now apply IH].
    destruct (is_separator c) eqn:E.
    + constructor; [exact Hp|]. now apply IH.
    + apply IH. rewrite clean_app, Hp. cbn. now rewrite E.
Qed.

Lemma split_from_not_nil : forall s skip piece, split_from skip piece s <> [].
Proof.
  induction s as [|c rest IH]; intros skip piece; [discriminate|].
  rewrite split_from_cons. destruct skip as [|k]; [|apply IH].
  destruct (is_separator c); [discriminate|apply IH].
Qed.


Lemma filter_truthy_clean tags :
  Forall (fun t => clean t = true) tags ->
  Forall (fun t => truthy t = true /\ clean t = true) (filter truthy tags).
Proof.
  induction 1 as [|t tags Ht _ IH]; cbn; [constructor|].
  destruct (truthy t) eqn:E; [|exact IH].
  constructor; [split; assumption|exact IH].
Qed.

(** The values that have no [split]: the empty array, a number other than
    zero, and [true]. *)
Definition has_no_split (given : argument) : bool :=
  match given with
  | Array [] => true
  | Scalar (Num z) => negb (z =? 0)%Z
  | Scalar (Bool b) => b
  | _ => false
  end.

(** The text that is split: [argv.n || '']. *)
Definition text_of (given : argument) : string :=
  match given with Scalar (Str s) => s | _ => EmptyString end.

(** The arguments with the tags stored, after [asked] prompts. *)
Definition with_tags (tags : list string) (asked : nat) (w : World) : World :=
  {| n := Array (map Str tags); nodeVersions := Array (map Str tags);
     answer_tags := answer_tags w; prompts := asked + prompts w |}.

Lemma ensureTravisTags_throws w :
  has_no_split (n w) = true ->
  ensureTravisTags w
  = (Throw (TypeError "(argv.n || '').split is not a function"), w).
Proof.
  unfold ensureTravisTags, bind, get.
  destruct (n w) as [|[s|z|b]|[|first rest]]; try discriminate; cbn.
  - destruct (z =? 0)%Z; [discriminate|reflexivity].
  - destruct b; [reflexivity|discriminate].
  - reflexivity.
Qed.

Lemma ensureTravisTags_text w :
  has_no_split (n w) = false ->
  (forall first rest, n w <> Array (first :: rest)) ->
  ensureTravisTags w
  = match filter truthy (split (text_of (n w))) with
    | [] =>
        let tags := if truthy (answer_tags w) then split (answer_tags w)
                    else ["stable"; "latest"] in
        (Ok (map Str tags), with_tags tags 1 w)
    | tags => (Ok (map Str tags), with_tags tags 0 w)
    end.
Proof.
  intros Hs Hn. unfold ensureTravisTags, bind, get.
  assert (Hempty : forall k : M World (list scalar),
            (pieces <- split_argument (Scalar (Str "")) ;;
             (let tags := filter truthy pieces in
              tags <-
                (if (length tags =? 0)%nat then
                   answer <- prompt_tags ;;
                   if negb (truthy answer)
                   then ret (tags ++ ["stable"; "latest"])
                   else ret (split answer)
                 else ret tags) ;;
              set_tags tags ;;; ret (map Str tags))) w
            = (let tags := if truthy (answer_tags w) then split (answer_tags w)
                           else ["stable"; "latest"] in
               (Ok (map Str tags), with_tags tags 1 w))).
  { intros _. unfold bind. cbn. destruct (truthy (answer_tags w)); reflexivity. }
  destruct (n w) as [|[s|z|b]|[|first rest]] eqn:E; cbn [text_of].
  - exact (Hempty (ret [])).
  - destruct s as [|c s].
    + exact (Hempty (ret [])).
    + cbn [truthy_argument truthy split_argument]. unfold ret at 1.
      cbv beta iota.
      destruct (filter truthy (split (String c s))) as [|t tags]; cbn.
      * destruct (truthy (answer_tags w)); reflexivity.
      * reflexivity.
  - cbn in Hs. apply negb_false_iff in Hs.
    cbn [truthy_argument]. rewrite Hs. exact (Hempty (ret [])).
  - cbn in Hs. subst b. exact (Hempty (ret [])).
  - discriminate.
  - now destruct (Hn first rest).
Qed.

(** X20. [ensureTravisTags] throws exactly when [argv.n] has no [split] to
    call, that is for an empty array, a number other than zero and
    [true], and then changes nothing; when it returns, the tags are not an
    empty list and are what [argv.n] holds; and it shows at most one
    prompt. *)
Theorem ensureTravisTags_outcome : forall w,
  let (r, w') := ensureTravisTags w in
  prompts w' <= S (prompts w)
  /\ match r with
     | Ok tags =>
         has_no_split (n w) = false /\ tags <> [] /\ n w' = Array tags
     | Throw _ => has_no_split (n w) = true /\ w' = w
     end.
Proof.
  intros w.
  destruct (has_no_split (n w)) eqn:Hs.
  { rewrite (ensureTravisTags_throws _ Hs). split; [lia|]. split; reflexivity. }
  destruct (n w) as [|[s|z|b]|[|first rest]] eqn:Hn; try discriminate.
  1-4: rewrite ensureTravisTags_text by (rewrite Hn; first [assumption|discriminate]);
       destruct (filter truthy _) as [|t tags];
       [ destruct (truthy (answer_tags w)) eqn:Ha; cbn;
         (split; [lia|]); (split; [reflexivity|]); (split; [|reflexivity]);
         [ intros Hnil; apply map_eq_nil in Hnil;
           exact (split_from_not_nil _ _ _ Hnil)
         | discriminate ]
       | cbn; split; [lia|]; split; [reflexivity|];
         split; [discriminate|reflexivity] ].
  unfold ensureTravisTags, bind, get. rewrite Hn. cbn.
  split; [lia|]. split; [reflexivity|]. split; [discriminate|exact Hn].
Qed.

(** X21. Tags given on the command line as a text of ASCII characters
    with at least one tag in it are returned without a prompt: every tag
    is a non-empty text without white space and comma, and the tags are
    stored as [argv.n] and [argv.nodeVersions]. *)
Theorem ensureTravisTags_argument : forall w s,
  n w = Scalar (Str s) ->
  ascii_text s = true ->
  filter truthy (split s) <> [] ->
  let tags := filter truthy (split s) in
  ensureTravisTags w = (Ok (map Str tags), with_tags tags 0 w)
  /\ Forall (fun t => truthy t = true /\ clean t = true) tags.
Proof.
  intros w s Hn _ Hsome tags. split.
  - rewrite ensureTravisTags_text by (rewrite Hn; first [reflexivity|discriminate]).
    rewrite Hn. cbn [text_of]. subst tags.
    destruct (filter truthy (split s)) as [|t rest];
      [now destruct Hsome|reflexivity].
  - apply filter_truthy_clean, split_from_clean. reflexivity.
Qed.



(** The tags as a command line argument, and as an answer to the prompt. *)
Definition tags_given : World :=
  {| n := Scalar (Str "stable , latest"); nodeVersions := Undefined;
     answer_tags := ""; prompts := 0 |}.


Lemma ensureTravisTags_argument_witness :
  fst (ensureTravisTags tags_given) = Ok [Str "stable"; Str "latest"]
  /\ prompts (snd (ensureTravisTags tags_given)) = 0.
Proof.
  destruct (ensureTravisTags_argument tags_given "stable , latest" eq_refl
              eq_refl ltac:(vm_compute; discriminate)) as [Hrun _].
  rewrite Hrun. split; reflexivity.
Defined.


End TravisTagsFacts.

(* ===================================================================== *)
(** ** Properties of the package installation and the first commit *)
(* ===================================================================== *)

Module ShellFacts.
Import Js Shell.
Local Open Scope js_scope.

Ltac run_cases :=
  repeat (unfold ret, throw; cbv beta iota; match goal with
         | |- context [if ?b then _ else _] => destruct b eqn:?
         | |- context [match failing ?w ?c with _ => _ end] =>
             destruct (failing w c) eqn:?
         | |- context [match packages ?w ?f with _ => _ end] =>
             destruct (packages w f) eqn:?
         | |- context [Object_keys ?v] => destruct v eqn:?; cbn [Object_keys]
         end);
  cbn.

Section Lib.

Variable resolve : string -> string.
Variable resolve_in : string -> string -> string.
Variable dashed : string -> string.

(** The address of the repository [commit] pushes to. *)
Definition origin (argv : Arguments) (w : World) : string :=
  let name := dashed (Semver.trim (arg_name argv)) in
  let owner := Semver.trim (arg_u argv) in
  if truthy owner then ("git@github.com:" ++ owner ++ "/" ++ name ++ ".git")%string
  else (gitBaseUrl w ++ "/" ++ name ++ ".git")%string.

(** X23. For a service name and an owner of ASCII characters: when
    [commit] returns, it has run one command line, pushing to the GitHub
    address of the owner when an owner is given and below
    [config.gitBaseUrl] otherwise, and the process is back in its working
    directory.  When it throws, either nothing has happened, or the
    process is left in the directory of the service. *)
Theorem commit_outcome : forall argv w,
  ascii_text (arg_name argv) = true ->
  ascii_text (arg_u argv) = true ->
  let (r, w') := commit resolve dashed argv w in
  match r with
  | Ok _ =>
      cwd w' = cwd w
      /\ executed w' = executed w ++ [commit_command (origin argv w)]
  | Throw _ =>
      w' = w
      \/ (cwd w' = resolve (arg_path argv)
          /\ directories w (resolve (arg_path argv)) = true)
  end.
Proof.
  intros argv w _ _.
  unfold commit, origin, ensureName, bind, get, throw, ret, process_chdir,
    execSync, console_log, modify.
  run_cases; auto; try discriminate.
Qed.

(** X24. When [installPackages] returns, the process is back in its
    working directory; when it throws, either nothing has happened, or
    the process is left in the directory of the service. *)
Theorem installPackages_outcome : forall argv w,
  let (r, w') := installPackages resolve resolve_in argv w in
  match r with
  | Ok _ => cwd w' = cwd w
  | Throw _ =>
      w' = w
      \/ (cwd w' = resolve (arg_path argv)
          /\ directories w (resolve (arg_path argv)) = true)
  end.
Proof.
  intros argv w.
  unfold installPackages, bind, get, throw, ret, require, process_chdir,
    execSync, console_log, modify.
  run_cases; auto.
Qed.

End Lib.

(** A machine without [git], and one where the installation fails. *)
Definition user_service : Arguments :=
  {| arg_path := "./user"; arg_name := "User"; arg_u := "imqueue" |}.

Definition absolute (p : string) : string :=
  match strip_prefix "./" p with
  | Some rest => ("/srv/" ++ rest)%string
  | None => p
  end.

Definition below (directory file : string) : string :=
  (directory ++ "/" ++ file)%string.

Definition lower (s : string) : string := "user".

Definition without_git : World :=
  {| cwd := "/srv"; directories := fun _ => true;
     installed := fun name => (name =? "npm")%string;
     failing := fun _ => None;
     packages := fun _ =>
       Some {| dependencies := Some ["@imqueue/rpc"];
               devDependencies := Some [] |};
     gitBaseUrl := ""; executed := []; logged := [] |}.

Definition registry_down : World :=
  {| cwd := "/srv"; directories := fun _ => true;
     installed := fun _ => true;
     failing := fun _ => Some (Error "Command failed");
     packages := fun _ =>
       Some {| dependencies := Some ["@imqueue/rpc"];
               devDependencies := Some ["mocha"] |};
     gitBaseUrl := ""; executed := []; logged := [] |}.

(** A machine where everything is installed and succeeds. *)
Definition ready : World :=
  {| cwd := "/srv"; directories := fun _ => true;
     installed := fun _ => true;
     failing := fun _ => None;
     packages := fun _ => None;
     gitBaseUrl := "git@git.example.org:services";
     executed := []; logged := [] |}.

Lemma commit_outcome_witness :
  fst (commit absolute lower user_service ready) = Ok tt
  /\ cwd (snd (commit absolute lower user_service ready)) = "/srv"
  /\ executed (snd (commit absolute lower user_service ready))
     = [commit_command "git@github.com:imqueue/user.git"].
Proof.
  pose proof (commit_outcome absolute lower user_service ready
                eq_refl eq_refl) as H.
  destruct (commit absolute lower user_service ready) as [r w'] eqn:E.
  assert (Hr : r = Ok tt) by (vm_compute in E; congruence).
  subst r. destruct H as [Hcwd Hexec].
  split; [reflexivity|]. split; [exact Hcwd|exact Hexec].
Defined.

Example commit_without_git :
  fst (commit absolute lower user_service without_git)
  = Throw (Error "Git command expected, but is not installed!")
  /\ cwd (snd (commit absolute lower user_service without_git)) = "/srv/user"
  /\ executed (snd (commit absolute lower user_service without_git)) = [].
Proof. vm_compute. repeat split. Qed.

Example installPackages_registry_down :
  fst (installPackages absolute below user_service registry_down)
  = Throw (Error "Command failed")
  /\ cwd (snd (installPackages absolute below user_service registry_down))
     = "/srv/user"
  /\ executed (snd (installPackages absolute below user_service registry_down))
     = ["npm i --save @imqueue/rpc 2>&1"].
Proof. vm_compute. repeat split. Qed.

End ShellFacts.
